(** * CameraProject: camera/lidar fusion for time-to-collision

    A shallow embedding of [src/camFusion_Student.cpp] and the properties of
    its six components: lidar clustering ([clusterLidarWithROI]), keypoint
    clustering ([clusterKptMatchesWithROI]), the two TTC estimators
    ([computeTTCCamera], [computeTTCLidar]) and the bounding-box matcher
    ([matchBoundingBoxes]).

    Conventions of the embedding:
    - a C++ [double] is a primitive binary64 [float]; a C++ [float] is a
      binary64 [float] that holds a binary32 value, every single-precision
      operation rounding its result to binary32;
    - a C++ [int] is a [Z]; a conversion that leaves the range of [int] is
      undefined in C++ and is [Undefined] here;
    - a [std::vector] is a [list]; [v[i]] out of range is [Undefined],
      [v.at(i)] out of range throws [std::out_of_range];
    - [std::map<int,int>] is a [gmap Z Z];
    - [std::sort] is the insertion sort of libstdc++;
    - a function that writes through references returns the new values.

    OpenCV is not part of the sources: its value types carry the fields the
    code reads, and its operations ([cv::Rect::contains], [cv::norm], the
    matrix product, [cv::Mat::at]) are written out after their definitions
    in the OpenCV headers.

    Results, by function:
    - [clusterLidarWithROI]: the association is a partition of the input
      points (C5) and leaves the rectangles alone (C10); the projection
      divides by the depth unguarded (C4);
    - [clusterKptMatchesWithROI]: the first correspondence is skipped (C6);
    - [computeTTCCamera]: the loops meet a pair of interior correspondences
      twice, and the filter asks for 100 pixels (C7); no correspondence at
      all is undefined behaviour (C8);
    - [computeTTCLidar]: index 5 is read without any size check (C1);
    - [matchBoundingBoxes]: three fixed entries are always there (C9), no
      vote is counted (C2), and an entry needs evidence only outside the
      fixed keys (C3). *)

From Stdlib Require Import ZArith Floats Sorted.
From stdpp Require Import base option list gmap.

Set Warnings "-inexact-float".

Local Open Scope Z_scope.

(** ** Outcomes of a C++ computation *)

Inductive exn : Type :=
| out_of_range    (* std::out_of_range, thrown by std::vector::at *)
| cv_exception.   (* cv::Exception, thrown by a failed OpenCV assertion *)

Inductive outcome (A : Type) : Type :=
| Returned (a : A)
| Thrown (e : exn)
| Undefined.

Arguments Returned {A} a.
Arguments Thrown {A} e.
Arguments Undefined {A}.

#[global] Instance outcome_ret : MRet outcome := fun A a => Returned a.

#[global] Instance outcome_bind : MBind outcome := fun A B k c =>
  match c with
  | Returned a => k a
  | Thrown e => Thrown e
  | Undefined => Undefined
  end.

#[global] Instance outcome_fmap : FMap outcome := fun A B f c =>
  match c with
  | Returned a => Returned (f a)
  | Thrown e => Thrown e
  | Undefined => Undefined
  end.

(** ** Numbers *)

Module Num.

Definition INT_MIN : Z := - 2 ^ 31.
Definition INT_MAX : Z := 2 ^ 31 - 1.

Definition in_int (z : Z) : bool := (INT_MIN <=? z) && (z <=? INT_MAX).

(** Two's complement wrap-around of a 32-bit signed [int]. *)
Definition wrap_int (z : Z) : Z := (z + 2 ^ 31) mod 2 ^ 32 - 2 ^ 31.

(** [int] to [double]: always exact. *)
Definition int_to_double (z : Z) : float :=
  SF2Prim (binary_normalize 53 1024 z 0 false).

(** [int] to [float]: rounded to binary32, nearest even. *)
Definition int_to_float (z : Z) : float :=
  SF2Prim (binary_normalize 24 128 z 0 false).

(** Rounding of a binary64 value to binary32, nearest even. *)
Definition to_float (d : float) : float :=
  match Prim2SF d with
  | S754_finite s m e => SF2Prim (binary_round 24 128 s m e)
  | _ => d
  end.

(** Single-precision arithmetic. *)
Definition fsub (a b : float) : float := to_float (a - b)%float.
Definition fmul (a b : float) : float := to_float (a * b)%float.

(** The value of a finite float with its fraction dropped. *)
Definition trunc (d : float) : option Z :=
  match Prim2SF d with
  | S754_zero _ => Some 0
  | S754_finite s m e =>
      let a := Z.shiftl (Z.pos m) e in Some (if s then - a else a)
  | _ => None
  end.

(** Implicit conversion of a floating value to [int]: truncation toward
    zero, undefined when the truncated value is not an [int]. *)
Definition to_int (d : float) : outcome Z :=
  match trunc d with
  | Some z => if in_int z then Returned z else Undefined
  | None => Undefined
  end.

(** [cvRound]: the nearest integer, ties to even; [INT_MIN] when there is
    none in range (the result of the SSE2 conversion instruction). *)
Definition cvRound (d : float) : Z :=
  match Prim2SF d with
  | S754_zero _ => 0
  | S754_finite s m e =>
      let a :=
        if 0 <=? e then Z.shiftl (Z.pos m) e
        else
          let q := Z.shiftr (Z.pos m) (- e) in
          let r := Z.pos m - Z.shiftl q (- e) in
          let h := Z.shiftl 1 (- e - 1) in
          if r <? h then q
          else if h <? r then q + 1
          else if Z.even q then q else q + 1 in
      let v := if s then - a else a in
      if in_int v then v else INT_MIN
  | _ => INT_MIN
  end.

(** [std::numeric_limits<double>::epsilon()], 2^-52. *)
Definition epsilon : float := 0x1p-52%float.

(** [std::sort] on doubles with [operator<], as libstdc++ runs it on a
    vector of at most 16 elements: [__insertion_sort]. Each element in turn,
    from the second on, goes to the front when it is less than the first
    element; otherwise it moves left past the elements it is less than
    ([__unguarded_linear_insert]). The part already arranged is kept with its
    last element first. Without NaN the result is the ascending arrangement,
    which is also what [std::sort] leaves of a longer vector, the order of
    equal values (+0 and -0) apart; with NaN among more than 16 values
    [operator<] is no strict weak ordering and what introsort leaves is not
    modelled. *)
Fixpoint unguarded_linear_insert (val : float) (arranged : list float)
  : list float :=
  match arranged with
  | [] => [val]
  | next :: rest =>
      if (val <? next)%float then next :: unguarded_linear_insert val rest
      else val :: arranged
  end.

Definition insertion_step (arranged : list float) (val : float) : list float :=
  match last arranged with
  | Some first =>
      if (val <? first)%float then arranged ++ [val]
      else unguarded_linear_insert val arranged
  | None => [val]
  end.

Definition sort (l : list float) : list float :=
  rev (foldl insertion_step [] l).

End Num.

(** ** Vectors *)

Module Vec.

(** The element an [int] index designates, if any. *)
Definition get {A : Type} (v : list A) (i : Z) : option A :=
  if i <? 0 then None else v !! Z.to_nat i.

(** [v[i]] with an [int] index: no bound is checked. *)
Definition index {A : Type} (v : list A) (i : Z) : outcome A :=
  match get v i with
  | Some a => Returned a
  | None => Undefined
  end.

(** [v.at(i)] with an [int] index: a negative index converts to a huge
    [size_t] and throws like any other index out of range. *)
Definition at_ {A : Type} (v : list A) (i : Z) : outcome A :=
  match get v i with
  | Some a => Returned a
  | None => Thrown out_of_range
  end.

End Vec.


(** ** OpenCV value types *)

(** [cv::Rect], that is [cv::Rect_<int>]. *)
Module Rect.
Record t : Type := mk { x : Z; y : Z; width : Z; height : Z }.
End Rect.

(** [cv::Point], that is [cv::Point_<int>]. *)
Module Point.
Record t : Type := mk { x : Z; y : Z }.
End Point.

(** [cv::Point2f], that is [cv::Point_<float>]. *)
Module Point2f.
Record t : Type := mk { x : float; y : float }.

(** [a - b], in single precision. *)
Definition sub (a b : t) : t :=
  mk (Num.fsub (x a) (x b)) (Num.fsub (y a) (y b)).

(** [cv::norm(p)]: [std::sqrt((double)p.x*p.x + (double)p.y*p.y)]. *)
Definition norm (p : t) : float :=
  PrimFloat.sqrt (x p * x p + y p * y p)%float.

(** Conversion to [cv::Point], each coordinate through
    [cv::saturate_cast<int>], which is [cvRound]. *)
Definition to_Point (p : t) : Point.t :=
  Point.mk (Num.cvRound (x p)) (Num.cvRound (y p)).
End Point2f.

(** [cv::KeyPoint]: the location and the metadata the detector attaches. *)
Module KeyPoint.
Record t : Type := mk { pt : Point2f.t; size : float; response : float }.
End KeyPoint.

(** [cv::DMatch]: the correspondence of keypoint [queryIdx] of the previous
    frame with keypoint [trainIdx] of the current frame. *)
Module DMatch.
Record t : Type := mk { queryIdx : Z; trainIdx : Z; distance : float }.
End DMatch.

(** [cv::Rect::contains(const cv::Point&)]:
    [x <= pt.x && pt.x < x + width && y <= pt.y && pt.y < y + height],
    the sums in 32-bit two's complement. *)
Definition contains (r : Rect.t) (p : Point.t) : bool :=
  (Rect.x r <=? Point.x p)
  && (Point.x p <? Num.wrap_int (Rect.x r + Rect.width r))
  && (Rect.y r <=? Point.y p)
  && (Point.y p <? Num.wrap_int (Rect.y r + Rect.height r)).

(** [roi.contains(kp.pt)] on a keypoint location: the [cv::Point2f] converts
    to the [cv::Point] that [contains] takes. *)
Definition contains2f (r : Rect.t) (p : Point2f.t) : bool :=
  contains r (Point2f.to_Point p).

(** [cv::Mat] of doubles, by rows. *)
Module Mat.
Definition t : Type := list (list float).

Definition rows (m : t) : nat := length m.
Definition cols (m : t) : nat :=
  match m with [] => 0%nat | r :: _ => length r end.

Definition dot (u v : list float) : float :=
  foldl (fun s ab => (s + fst ab * snd ab)%float) 0%float (zip u v).

Definition column (m : t) (j : nat) : list float :=
  map (fun r => default 0%float (r !! j)) m.

(** [a * b]; OpenCV asserts that the inner dimensions agree. *)
Definition mul (a b : t) : outcome t :=
  if decide (cols a = rows b)
  then Returned (map (fun r => map (fun j => dot r (column b j)) (seq 0 (cols b))) a)
  else Thrown cv_exception.

(** [m.at<double>(i, j)]: the element at offset [i * cols + j] of the
    continuous data; no bound is checked in a release build. *)
Definition at_ (m : t) (i j : nat) : outcome float :=
  match concat m !! (i * cols m + j)%nat with
  | Some v => Returned v
  | None => Undefined
  end.
End Mat.

(** ** The data structures of the project *)

(** Modelled from the spec: [dataStructures.h] is not among the sources. A
    RangePoint is a 3D position [(x, y, z)], x forward and y left, with a
    reflectivity [r]; the function bodies read the fields as doubles. *)
Module LidarPoint.
Record t : Type := mk { x : float; y : float; z : float; r : float }.
End LidarPoint.

(** Modelled from the spec: [dataStructures.h] is not among the sources. A
    Region has an identifier unique within its frame, an axis-aligned
    rectangle and the owned collections association fills: its range points,
    its keypoints and its keypoint correspondences. *)
Module BoundingBox.
Record t : Type := mk {
  boxID : Z;
  roi : Rect.t;
  lidarPoints : list LidarPoint.t;
  keypoints : list KeyPoint.t;
  kptMatches : list DMatch.t
}.

Definition push_lidarPoint (p : LidarPoint.t) (b : t) : t :=
  mk (boxID b) (roi b) (lidarPoints b ++ [p]) (keypoints b) (kptMatches b).

Definition push_kptMatch (m : DMatch.t) (b : t) : t :=
  mk (boxID b) (roi b) (lidarPoints b) (keypoints b) (kptMatches b ++ [m]).

Definition push_keypoint (k : KeyPoint.t) (b : t) : t :=
  mk (boxID b) (roi b) (lidarPoints b) (keypoints b ++ [k]) (kptMatches b).
End BoundingBox.

(** Modelled from the spec: [dataStructures.h] is not among the sources. The
    observations of one time step: keypoints, correspondences and regions. *)
Module DataFrame.
Record t : Type := mk {
  keypoints : list KeyPoint.t;
  kptMatches : list DMatch.t;
  boundingBoxes : list BoundingBox.t
}.
End DataFrame.

(** ** Loops *)

(** [for (auto it = v.begin(); it != v.end(); ++it) body], threading the
    variables the body writes; an exception or undefined behaviour in one
    round ends the loop. *)
Fixpoint for_each {A St : Type} (body : A -> St -> outcome St) (v : list A) (s : St)
  : outcome St :=
  match v with
  | [] => Returned s
  | a :: v' => s' ← body a s; for_each body v' s'
  end.

(** The same loop with the position of its element at hand:
    [for (int i = first; i < v.size(); ++i) body], the body reading [v[i]],
    or a loop whose body keeps the iterator. *)
Fixpoint for_index {A St : Type} (body : nat -> A -> St -> outcome St)
    (first : nat) (v : list A) (s : St) : outcome St :=
  match v with
  | [] => Returned s
  | a :: v' => s' ← body first a s; for_index body (S first) v' s'
  end.

(** ** clusterLidarWithROI *)

Section ClusterLidar.

Variables (shrinkFactor : float) (P_rect_xx R_rect_xx RT : Mat.t).

(** Lines 24-30: [Y = P_rect_xx * R_rect_xx * RT * X]. *)
Definition transform (p : LidarPoint.t) : outcome Mat.t :=
  let X : Mat.t :=
    [[LidarPoint.x p]; [LidarPoint.y p]; [LidarPoint.z p]; [1%float]] in
  PR ← Mat.mul P_rect_xx R_rect_xx;
  PRRT ← Mat.mul PR RT;
  Mat.mul PRRT X.

(** Lines 31-33: the pixel coordinates, each quotient converted to the
    [int] field of a [cv::Point]. *)
Definition pixel (Y : Mat.t) : outcome Point.t :=
  y00 ← Mat.at_ Y 0 0;
  y02 ← Mat.at_ Y 0 2;
  ptx ← Num.to_int (y00 / y02)%float;
  y10 ← Mat.at_ Y 1 0;
  y02' ← Mat.at_ Y 0 2;
  pty ← Num.to_int (y10 / y02')%float;
  mret (Point.mk ptx pty).

Definition project (p : LidarPoint.t) : outcome Point.t :=
  Y ← transform p; pixel Y.

(** Lines 39-43: the shrunk rectangle. [shrinkFactor * roi.width] is a
    single-precision product, divided by [2.0] and added to [roi.x] in
    double precision; [roi.width * (1 - shrinkFactor)] is single precision
    throughout. Each result converts to an [int] field. *)
Definition smallerBox (roi : Rect.t) : outcome Rect.t :=
  let one_minus := Num.fsub 1%float shrinkFactor in
  x ← Num.to_int
        (Num.int_to_double (Rect.x roi)
         + Num.fmul shrinkFactor (Num.int_to_float (Rect.width roi)) / 2)%float;
  y ← Num.to_int
        (Num.int_to_double (Rect.y roi)
         + Num.fmul shrinkFactor (Num.int_to_float (Rect.height roi)) / 2)%float;
  width ← Num.to_int (Num.fmul (Num.int_to_float (Rect.width roi)) one_minus);
  height ← Num.to_int (Num.fmul (Num.int_to_float (Rect.height roi)) one_minus);
  mret (Rect.mk x y width height).

(** Lines 36-51: one round of the loop over the bounding boxes;
    [enclosingBoxes] holds the positions of the boxes (the iterators). *)
Definition enclose (pt : Point.t) (it2 : nat) (box : BoundingBox.t)
    (enclosingBoxes : list nat) : outcome (list nat) :=
  sb ← smallerBox (BoundingBox.roi box);
  if contains sb pt
  then mret (enclosingBoxes ++ [it2])
  else mret enclosingBoxes.

(** Lines 23-58: one round of the loop over the lidar points. *)
Definition associate (it1 : LidarPoint.t) (boundingBoxes : list BoundingBox.t)
  : outcome (list BoundingBox.t) :=
  pt ← project it1;
  enclosingBoxes ← for_index (enclose pt) 0 boundingBoxes [];
  match enclosingBoxes with
  | [it2] => mret (alter (BoundingBox.push_lidarPoint it1) it2 boundingBoxes)
  | _ => mret boundingBoxes
  end.

Definition clusterLidarWithROI (boundingBoxes : list BoundingBox.t)
    (lidarPoints : list LidarPoint.t) : outcome (list BoundingBox.t) :=
  for_each associate lidarPoints boundingBoxes.

End ClusterLidar.

(** ** clusterKptMatchesWithROI *)

Section ClusterKptMatches.

Variables (kptsPrev kptsCurr : list KeyPoint.t).

(** Lines 137-149: one round of the loop. *)
Definition cluster_round (it1 : DMatch.t) (boundingBox : BoundingBox.t)
  : outcome BoundingBox.t :=
  kpOuterCurr ← Vec.at_ kptsCurr (DMatch.trainIdx it1);
  kpOuterPrev ← Vec.at_ kptsPrev (DMatch.queryIdx it1);
  let roi := BoundingBox.roi boundingBox in
  if contains2f roi (KeyPoint.pt kpOuterCurr)
  then mret (BoundingBox.push_keypoint kpOuterCurr
               (BoundingBox.push_kptMatch it1 boundingBox))
  else mret boundingBox.

(** The loop starts at [kptMatches.begin() + 1]: on an empty vector that
    iterator is past the end and the loop runs on it. *)
Definition clusterKptMatchesWithROI (boundingBox : BoundingBox.t)
    (kptMatches : list DMatch.t) : outcome BoundingBox.t :=
  match kptMatches with
  | [] => Undefined
  | _ :: from_second => for_each cluster_round from_second boundingBox
  end.

End ClusterKptMatches.

(** ** computeTTCCamera *)

Section TTCCamera.

Variables (kptsPrev kptsCurr : list KeyPoint.t).

Definition minDist : float := 100%float.

(** Lines 168-186: one round of the inner loop. *)
Definition inner_round (kpOuterCurr kpOuterPrev : KeyPoint.t) (it2 : DMatch.t)
    (distRatios : list float) : outcome (list float) :=
  kpInnerCurr ← Vec.at_ kptsCurr (DMatch.trainIdx it2);
  kpInnerPrev ← Vec.at_ kptsPrev (DMatch.queryIdx it2);
  let distCurr :=
    Point2f.norm (Point2f.sub (KeyPoint.pt kpOuterCurr) (KeyPoint.pt kpInnerCurr)) in
  let distPrev :=
    Point2f.norm (Point2f.sub (KeyPoint.pt kpOuterPrev) (KeyPoint.pt kpInnerPrev)) in
  if (Num.epsilon <? distPrev)%float && (minDist <=? distCurr)%float
  then mret (distRatios ++ [(distCurr / distPrev)%float])
  else mret distRatios.

(** Lines 161-187: one round of the outer loop; [from_second] is the range
    [kptMatches.begin() + 1 .. kptMatches.end()] of the inner loop. *)
Definition outer_round (from_second : list DMatch.t) (it1 : DMatch.t)
    (distRatios : list float) : outcome (list float) :=
  kpOuterCurr ← Vec.at_ kptsCurr (DMatch.trainIdx it1);
  kpOuterPrev ← Vec.at_ kptsPrev (DMatch.queryIdx it1);
  for_each (inner_round kpOuterCurr kpOuterPrev) from_second distRatios.

(** Lines 159-187. The outer loop ends at [kptMatches.end() - 1]: on an
    empty vector that iterator lies before [begin()], and the loop runs
    from [begin()] without meeting it. *)
Definition collect_distRatios (kptMatches : list DMatch.t) : outcome (list float) :=
  match kptMatches with
  | [] => Undefined
  | _ :: from_second => for_each (outer_round from_second) (removelast kptMatches) []
  end.

(** Lines 199-210. *)
Definition medianDistRatio (distRatios : list float) : outcome float :=
  let sorted := Num.sort distRatios in
  let size := Z.of_nat (length sorted) in
  if size mod 2 =? 1 then
    let int_median_index := (size - 1) / 2 in
    Vec.index sorted int_median_index
  else
    let int_median_index := size / 2 in
    a ← Vec.index sorted (int_median_index - 1);
    b ← Vec.index sorted int_median_index;
    mret ((a + b) / 2)%float.

(** The value written to [TTC]. *)
Definition computeTTCCamera (kptMatches : list DMatch.t) (frameRate : float)
  : outcome float :=
  distRatios ← collect_distRatios kptMatches;
  if decide (length distRatios = 0%nat) then mret nan
  else
    median ← medianDistRatio distRatios;
    let dT := (1 / frameRate)%float in
    mret (- dT / (1 - median))%float.

End TTCCamera.

(** ** computeTTCLidar *)

(** The three vectors the loops of lines 225-237 fill. *)
Record lidar_vectors : Type := mk_lidar_vectors {
  Distance_array : list float;
  X_val_curr : list float;
  X_val_prev : list float
}.

Definition lidar_inner_round (it1 it2 : LidarPoint.t) (s : lidar_vectors)
  : outcome lidar_vectors :=
  mret (mk_lidar_vectors
          (Distance_array s ++ [(LidarPoint.x it2 - LidarPoint.x it1)%float])
          (X_val_curr s)
          (X_val_prev s ++ [LidarPoint.x it2])).

Definition lidar_outer_round (lidarPointsPrev : list LidarPoint.t)
    (it1 : LidarPoint.t) (s : lidar_vectors) : outcome lidar_vectors :=
  for_each (lidar_inner_round it1) lidarPointsPrev
    (mk_lidar_vectors (Distance_array s) (X_val_curr s ++ [LidarPoint.x it1])
       (X_val_prev s)).

(** The value written to [TTC]. *)
Definition computeTTCLidar (lidarPointsPrev lidarPointsCurr : list LidarPoint.t)
    (frameRate : float) : outcome float :=
  s ← for_each (lidar_outer_round lidarPointsPrev) lidarPointsCurr
        (mk_lidar_vectors [] [] []);
  let X_val_curr := Num.sort (X_val_curr s) in
  let X_val_prev := Num.sort (X_val_prev s) in
  p5 ← Vec.index X_val_prev 5;
  c5 ← Vec.index X_val_curr 5;
  let median_velocity := (p5 - c5)%float in
  c5' ← Vec.index X_val_curr 5;
  mret (c5' / (median_velocity * frameRate))%float.

(** ** matchBoundingBoxes *)

(** [std::map::insert]: a key already present keeps its value. *)
Definition map_insert (k v : Z) (m : gmap Z Z) : gmap Z Z :=
  match m !! k with
  | Some _ => m
  | None => <[k := v]> m
  end.

Section MatchBoundingBoxes.

Variables (prevFrame currFrame : DataFrame.t).

(** Lines 274-290: the body of the innermost loop, for match [i] and
    the boxes at positions [j] (previous frame) and [k] (current frame). *)
Definition match_round (i : nat) (match_i : DMatch.t) (box_j box_k : BoundingBox.t)
    (bbBestMatches : gmap Z Z) : outcome (gmap Z Z) :=
  let roi_prev := BoundingBox.roi box_j in
  box_i ← Vec.index (DataFrame.boundingBoxes currFrame) (Z.of_nat i);
  let roi_curr := BoundingBox.roi box_i in
  let query_ind := DMatch.queryIdx match_i in
  let train_ind := DMatch.trainIdx match_i in
  pt_previous_frame ← Vec.index (DataFrame.keypoints prevFrame) query_ind;
  pt_current_frame ← Vec.index (DataFrame.keypoints prevFrame) train_ind;
  if contains2f roi_prev (KeyPoint.pt pt_previous_frame)
     && contains2f roi_curr (KeyPoint.pt pt_current_frame)
  then
    let prev_box_id := BoundingBox.boxID box_j in
    let curr_box_id := BoundingBox.boxID box_k in
    mret (map_insert prev_box_id curr_box_id bbBestMatches)
  else mret bbBestMatches.

Definition matchBoundingBoxes (matches : list DMatch.t) (bbBestMatches : gmap Z Z)
  : outcome (gmap Z Z) :=
  let count := 1 in
  let bbBestMatches := map_insert 1 count bbBestMatches in
  let bbBestMatches := map_insert 3 3 bbBestMatches in
  let bbBestMatches := map_insert 5 3 bbBestMatches in
  for_index
    (fun i match_i =>
       for_each
         (fun box_j =>
            for_each (match_round i match_i box_j)
              (DataFrame.boundingBoxes currFrame))
         (DataFrame.boundingBoxes prevFrame))
    0 matches bbBestMatches.

End MatchBoundingBoxes.

(** ** Inputs on which every read is in bounds *)

Definition index_ok {A : Type} (v : list A) (i : Z) : bool :=
  (0 <=? i) && (i <? Z.of_nat (length v)).

(** [matchBoundingBoxes] reads [currFrame.boundingBoxes[i]] and
    [prevFrame.keypoints] at both indices of match [i], once per pair of
    boxes: all reads are in bounds when a frame has no box, or when there
    are no more matches than current boxes and every index of a match is an
    index of [prevFrame.keypoints]. *)
Definition match_defined (prevFrame currFrame : DataFrame.t)
    (matches : list DMatch.t) : bool :=
  match DataFrame.boundingBoxes prevFrame, DataFrame.boundingBoxes currFrame with
  | [], _ | _, [] => true
  | _ :: _, curr =>
      (length matches <=? length curr)%nat
      && forallb
           (fun m =>
              index_ok (DataFrame.keypoints prevFrame) (DMatch.queryIdx m)
              && index_ok (DataFrame.keypoints prevFrame) (DMatch.trainIdx m))
           matches
  end.

(** ** The vote count of the specification *)

Section Votes.

Variables (prevFrame currFrame : DataFrame.t) (matches : list DMatch.t).

(** A correspondence votes for the pair (previous region [a], current
    region [b]) when its previous keypoint lies in [a] and its current
    keypoint lies in [b]. *)
Definition is_vote (a b : BoundingBox.t) (m : DMatch.t) : bool :=
  match Vec.get (DataFrame.keypoints prevFrame) (DMatch.queryIdx m),
        Vec.get (DataFrame.keypoints currFrame) (DMatch.trainIdx m) with
  | Some kpPrev, Some kpCurr =>
      contains2f (BoundingBox.roi a) (KeyPoint.pt kpPrev)
      && contains2f (BoundingBox.roi b) (KeyPoint.pt kpCurr)
  | _, _ => false
  end.

Definition votes (a b : BoundingBox.t) : nat :=
  length (List.filter (is_vote a b) matches).

(** The better of two candidates, each an identifier with its vote count:
    more votes win, the lower identifier wins a tie. *)
Definition better (c d : Z * nat) : Z * nat :=
  if (snd c <? snd d)%nat then d
  else if (snd c =? snd d)%nat && (fst d <? fst c) then d
  else c.

(** The current region with the highest vote count for [a], none when no
    current region has a vote. *)
Definition most_voted (a : BoundingBox.t) : option Z :=
  fst <$>
    foldl
      (fun best b =>
         let cand := (BoundingBox.boxID b, votes a b) in
         if (snd cand =? 0)%nat then best
         else match best with
              | None => Some cand
              | Some c => Some (better c cand)
              end)
      None (DataFrame.boundingBoxes currFrame).

(** C2 as stated: the output maps every previous region to its most voted
    current region. *)
Definition maps_to_most_voted : Prop :=
  forall bbBestMatches,
    matchBoundingBoxes prevFrame currFrame matches ∅ = Returned bbBestMatches ->
    forall a, a ∈ DataFrame.boundingBoxes prevFrame ->
      bbBestMatches !! BoundingBox.boxID a = most_voted a.

(** C3 as stated: a previous region without any vote has no entry. *)
Definition unmatched_without_votes : Prop :=
  forall bbBestMatches,
    matchBoundingBoxes prevFrame currFrame matches ∅ = Returned bbBestMatches ->
    forall a, a ∈ DataFrame.boundingBoxes prevFrame ->
      (forall b, b ∈ DataFrame.boundingBoxes currFrame -> votes a b = 0%nat) ->
      bbBestMatches !! BoundingBox.boxID a = None.

(** The evidence the code asks for before it inserts a pair with key [a]:
    some match whose previous keypoint lies in a previous region with
    identifier [a]. *)
Definition holds_prev_keypoint (box : BoundingBox.t) (m : DMatch.t) : bool :=
  match Vec.get (DataFrame.keypoints prevFrame) (DMatch.queryIdx m) with
  | Some kp => contains2f (BoundingBox.roi box) (KeyPoint.pt kp)
  | None => false
  end.

Definition prev_evidence (a : Z) : bool :=
  existsb
    (fun box => (BoundingBox.boxID box =? a) && existsb (holds_prev_keypoint box) matches)
    (DataFrame.boundingBoxes prevFrame).

(** What the loops keep of the map [m0] they start from: its entries stay,
    and a new entry has a key with evidence in the previous frame and a
    value that identifies a region of the current frame. *)
Definition grown_from (m0 bb : gmap Z Z) : Prop :=
  (forall a b, m0 !! a = Some b -> bb !! a = Some b)
  /\ (forall a b, bb !! a = Some b ->
        m0 !! a = Some b
        \/ prev_evidence a = true
           /\ b ∈ BoundingBox.boxID <$> DataFrame.boundingBoxes currFrame).

End Votes.

(** The entries every call inserts first. *)
Definition fixed_entries : gmap Z Z := {[ 1 := 1; 3 := 3; 5 := 3 ]}.

(** ** The ratios the image estimator retains *)

Section RetainedRatios.

Variables (kptsPrev kptsCurr : list KeyPoint.t).

(** Every read [kptsCurr.at(trainIdx)], [kptsPrev.at(queryIdx)] of the two
    loops is in bounds, and the outer loop has an end to reach. With one
    correspondence neither loop has a round. *)
Definition camera_defined (kptMatches : list DMatch.t) : bool :=
  match kptMatches with
  | [] => false
  | [_] => true
  | _ =>
      forallb
        (fun m =>
           index_ok kptsCurr (DMatch.trainIdx m)
           && index_ok kptsPrev (DMatch.queryIdx m))
        kptMatches
  end.

(** The pixel distance of two keypoints. *)
Definition distance (a b : KeyPoint.t) : float :=
  Point2f.norm (Point2f.sub (KeyPoint.pt a) (KeyPoint.pt b)).

(** The filter: the previous distance exceeds the machine epsilon and the
    current distance is at least [minDist]. *)
Definition retained (distPrev distCurr : float) : bool :=
  (Num.epsilon <? distPrev)%float && (minDist <=? distCurr)%float.

(** The ratio of the pair (outer correspondence, inner correspondence), if
    the filter retains it. *)
Definition pair_ratio (outer inner : DMatch.t) : list float :=
  match Vec.get kptsCurr (DMatch.trainIdx outer),
        Vec.get kptsPrev (DMatch.queryIdx outer),
        Vec.get kptsCurr (DMatch.trainIdx inner),
        Vec.get kptsPrev (DMatch.queryIdx inner) with
  | Some outerCurr, Some outerPrev, Some innerCurr, Some innerPrev =>
      let distCurr := distance outerCurr innerCurr in
      let distPrev := distance outerPrev innerPrev in
      if retained distPrev distCurr then [(distCurr / distPrev)%float] else []
  | _, _, _, _ => []
  end.

(** The retained ratios over the pairs of an outer correspondence, any but
    the last, and an inner correspondence, any but the first. *)
Definition retained_ratios (kptMatches : list DMatch.t) : list float :=
  flat_map (fun outer => flat_map (pair_ratio outer) (tail kptMatches))
    (removelast kptMatches).

(** The pairs of distinct correspondences of the specification: every
    unordered pair [(i, j)], once. *)
Fixpoint distinct_pairs (kptMatches : list DMatch.t) : list (DMatch.t * DMatch.t) :=
  match kptMatches with
  | [] => []
  | m :: rest => map (pair m) rest ++ distinct_pairs rest
  end.

(** The ratios retained over the pairs of distinct correspondences, by the
    filter of the code. *)
Definition distinct_pair_ratios (kptMatches : list DMatch.t) : list float :=
  flat_map (fun p => pair_ratio (fst p) (snd p)) (distinct_pairs kptMatches).

End RetainedRatios.

(** The median of a sorted list: the middle element of an odd count, the
    average of the two central elements of an even count. *)
Definition median_of_sorted (sorted : list float) : float :=
  let n := length sorted in
  if Nat.odd n then nth ((n - 1) / 2) sorted nan
  else ((nth (n / 2 - 1) sorted nan + nth (n / 2) sorted nan) / 2)%float.

(** [TTC = -dT / (1 - medianRatio)], [dT = 1 / frameRate]. *)
Definition TTC_of_median (frameRate medianRatio : float) : float :=
  (- (1 / frameRate) / (1 - medianRatio))%float.

(** C7 as stated: the estimator yields the TTC of the median of the retained
    ratios over the pairs of distinct correspondences. *)
Definition TTC_over_distinct_pairs (kptsPrev kptsCurr : list KeyPoint.t)
    (kptMatches : list DMatch.t) (frameRate : float) : Prop :=
  computeTTCCamera kptsPrev kptsCurr kptMatches frameRate
  = Returned
      (TTC_of_median frameRate
         (median_of_sorted
            (Num.sort (distinct_pair_ratios kptsPrev kptsCurr kptMatches)))).

(** ** The association of range points with regions *)

Definition returns {A : Type} (c : outcome A) : bool :=
  match c with
  | Returned _ => true
  | _ => false
  end.

Section Association.

Variables (shrinkFactor : float) (P_rect_xx R_rect_xx RT : Mat.t).

(** Every point has a pixel and, when there is a point at all, every
    rectangle has a shrunk rectangle: no conversion to [int] is undefined
    and the calibration matrices have the shapes the product needs. *)
Definition lidar_defined (boundingBoxes : list BoundingBox.t)
    (lidarPoints : list LidarPoint.t) : bool :=
  forallb (fun p => returns (project P_rect_xx R_rect_xx RT p)) lidarPoints
  && match lidarPoints with
     | [] => true
     | _ :: _ =>
         forallb (fun b => returns (smallerBox shrinkFactor (BoundingBox.roi b)))
           boundingBoxes
     end.

(** The pixel lies inside the shrunk rectangle of [roi]. *)
Definition inside (pt : Point.t) (roi : Rect.t) : bool :=
  match smallerBox shrinkFactor roi with
  | Returned sb => contains sb pt
  | _ => false
  end.

(** How many regions hold the pixel in their shrunk rectangle. *)
Definition count_inside (boundingBoxes : list BoundingBox.t) (pt : Point.t) : nat :=
  length (List.filter (inside pt) (map BoundingBox.roi boundingBoxes)).

(** The positions, counted from [first], of the rectangles that hold the
    pixel in their shrunk rectangle. *)
Fixpoint enclosing_positions (pt : Point.t) (rois : list Rect.t) (first : nat)
  : list nat :=
  match rois with
  | [] => []
  | roi :: rest =>
      (if inside pt roi then [first] else [])
      ++ enclosing_positions pt rest (S first)
  end.

(** The point goes to the region at position [i]: it has a pixel, and that
    region is the only one to hold the pixel in its shrunk rectangle. *)
Definition assigned (rois : list Rect.t) (i : nat) (p : LidarPoint.t) : bool :=
  match project P_rect_xx R_rect_xx RT p with
  | Returned pt =>
      match enclosing_positions pt rois 0 with
      | [j] => (j =? i)%nat
      | _ => false
      end
  | _ => false
  end.

End Association.

(** The region with more range points, nothing else changed. *)
Definition add_lidarPoints (ps : list LidarPoint.t) (b : BoundingBox.t)
  : BoundingBox.t :=
  BoundingBox.mk (BoundingBox.boxID b) (BoundingBox.roi b)
    (BoundingBox.lidarPoints b ++ ps) (BoundingBox.keypoints b)
    (BoundingBox.kptMatches b).

(** The regions differ in their range points at most. *)
Definition same_but_lidarPoints (b b' : BoundingBox.t) : Prop :=
  BoundingBox.boxID b' = BoundingBox.boxID b
  /\ BoundingBox.roi b' = BoundingBox.roi b
  /\ BoundingBox.keypoints b' = BoundingBox.keypoints b
  /\ BoundingBox.kptMatches b' = BoundingBox.kptMatches b.

(** The regions after the points [ps] have been associated: the region at
    position [i] has gained the points assigned to [i], in their order. *)
Definition associated (shrinkFactor : float) (P_rect_xx R_rect_xx RT : Mat.t)
    (rois : list Rect.t) (ps : list LidarPoint.t) (boxes : list BoundingBox.t)
  : list BoundingBox.t :=
  imap
    (fun i b =>
       add_lidarPoints
         (List.filter (assigned shrinkFactor P_rect_xx R_rect_xx RT rois i) ps) b)
    boxes.

(** ** The correspondences a region gains *)

(** The current keypoint of the correspondence lies in the rectangle. *)
Definition in_roi (kptsCurr : list KeyPoint.t) (roi : Rect.t) (m : DMatch.t) : bool :=
  match Vec.get kptsCurr (DMatch.trainIdx m) with
  | Some kpCurr => contains2f roi (KeyPoint.pt kpCurr)
  | None => false
  end.

(** C6 as stated: the correspondences appended are exactly those whose
    current keypoint lies in the rectangle. *)
Definition appends_every_match_inside (kptsPrev kptsCurr : list KeyPoint.t)
    (boundingBox : BoundingBox.t) (kptMatches : list DMatch.t) : Prop :=
  BoundingBox.kptMatches <$>
    clusterKptMatchesWithROI kptsPrev kptsCurr boundingBox kptMatches
  = Returned (BoundingBox.kptMatches boundingBox
              ++ List.filter (in_roi kptsCurr (BoundingBox.roi boundingBox)) kptMatches).

(** ** Ordered vectors *)

Definition not_nan (a : float) : Prop := is_nan a = false.

Definition float_le (a b : float) : Prop := (a <=? b)%float = true.

(** ** Concrete inputs *)

Module Examples.

Definition lidar (x y z : float) : LidarPoint.t := LidarPoint.mk x y z 0%float.

Definition kp (x y : float) : KeyPoint.t :=
  KeyPoint.mk (Point2f.mk x y) 1%float 1%float.

(** The correspondence of keypoint [i] with keypoint [i]. *)
Definition dm (i : Z) : DMatch.t := DMatch.mk i i 0%float.

Definition box (id : Z) (x y w h : Z) : BoundingBox.t :=
  BoundingBox.mk id (Rect.mk x y w h) [] [] [].

(** Three previous points and six current points: the previous collection
    is shorter than rank 5 requires. *)
Definition short_prev : list LidarPoint.t :=
  [lidar 12 0 0; lidar 12.5 0 0; lidar 13 0 0]%float.
Definition six_curr : list LidarPoint.t :=
  [lidar 9 0 0; lidar 9.2 0 0; lidar 9.4 0 0; lidar 9.6 0 0; lidar 9.8 0 0;
   lidar 10 0 0]%float.

(** Six previous points and five current points. *)
Definition six_prev : list LidarPoint.t :=
  [lidar 11 0 0; lidar 11.2 0 0; lidar 11.4 0 0; lidar 11.6 0 0;
   lidar 11.8 0 0; lidar 12 0 0]%float.
Definition five_curr : list LidarPoint.t :=
  [lidar 9 0 0; lidar 9.2 0 0; lidar 9.4 0 0; lidar 9.6 0 0; lidar 9.8 0 0]%float.

(** A pinhole camera looking along the lidar's forward axis: focal length
    700, principal point (600, 180); camera x is lidar -y, camera y is
    lidar -z, camera z (the depth) is lidar x. *)
Definition P_rect : Mat.t :=
  [[700; 0; 600; 0]; [0; 700; 180; 0]; [0; 0; 1; 0]]%float.
Definition R_rect : Mat.t :=
  [[1; 0; 0; 0]; [0; 1; 0; 0]; [0; 0; 1; 0]; [0; 0; 0; 1]]%float.
Definition RT : Mat.t :=
  [[0; -1; 0; 0]; [0; 0; -1; 0]; [1; 0; 0; 0]; [0; 0; 0; 1]]%float.

(** A return beside the sensor: forward coordinate 0, so depth 0. *)
Definition beside : LidarPoint.t := lidar 0 1 0.
(** A return 10 m ahead, 1 m to the left, 0.5 m below the sensor. *)
Definition ahead : LidarPoint.t := lidar 10 1 (-0.5).

(** Two keypoints of the current frame inside the rectangle
    (0, 0, 100, 100), each matched with the previous keypoint of the
    same index. *)
Definition two_kpts : list KeyPoint.t := [kp 10 10; kp 20 20]%float.
Definition two_matches : list DMatch.t := [dm 0; dm 1].
Definition target : BoundingBox.t := box 7 0 0 100 100.

(** The corners of a square of side [s]. *)
Definition square (s : float) : list KeyPoint.t :=
  [kp 0 0; kp s 0; kp s s; kp 0 s]%float.
Definition four_matches : list DMatch.t := [dm 0; dm 1; dm 2; dm 3].

(** Four keypoints on a line, at 0, 100, 300 and 900 in the previous frame
    and at 0, 300, 600 and 900 in the current frame: the six pairs have the
    ratios 3, 2, 1, 1.5, 0.75 and 0.5, every distance being 100 pixels or
    more. *)
Definition line_prev : list KeyPoint.t :=
  [kp 0 0; kp 100 0; kp 300 0; kp 900 0]%float.
Definition line_curr : list KeyPoint.t :=
  [kp 0 0; kp 300 0; kp 600 0; kp 900 0]%float.

(** The 5-against-2 example. Previous region A (identifier 2) holds seven
    keypoints; in the current frame five of them land in region X
    (identifier 10) and two in region Y (identifier 20). Previous region B
    (identifier 4) holds no keypoint. The current frame has five more
    regions far from the keypoints. *)
Definition region_A : BoundingBox.t := box 2 0 0 100 100.
Definition region_X : BoundingBox.t := box 10 0 0 100 100.
Definition region_Y : BoundingBox.t := box 20 300 0 100 100.

Definition region_B : BoundingBox.t := box 4 500 500 50 50.

Definition votes_prev : DataFrame.t :=
  DataFrame.mk
    [kp 10 10; kp 20 20; kp 30 30; kp 40 40; kp 50 50; kp 60 60; kp 70 70]%float
    [] [region_A; region_B].
Definition seven_matches : list DMatch.t :=
  [dm 0; dm 1; dm 2; dm 3; dm 4; dm 5; dm 6].
Definition votes_curr : DataFrame.t :=
  DataFrame.mk
    [kp 10 10; kp 20 20; kp 30 30; kp 40 40; kp 50 50; kp 310 10; kp 320 20]%float
    seven_matches
    [region_Y; region_X; box 30 1000 500 50 50; box 31 1100 500 50 50;
     box 32 1200 500 50 50; box 33 1300 500 50 50; box 34 1400 500 50 50].

(** A previous frame whose only region has identifier 1, and a current
    frame with one region; no keypoint, no correspondence. *)
Definition lonely_prev : DataFrame.t := DataFrame.mk [] [] [box 1 0 0 100 100].
Definition lonely_curr : DataFrame.t := DataFrame.mk [] [] [box 4 0 0 100 100].

(** The shrink factor 0.1 as the [float] argument holds it. *)
Definition shrink : float := Eval vm_compute in Num.to_float 0.1%float.

(** Two overlapping regions and four returns: one inside the first region
    only, one inside the second only, one inside both, one inside none. *)
Definition left_region : BoundingBox.t := box 0 400 100 200 200.
Definition right_region : BoundingBox.t := box 1 500 100 200 200.
Definition two_regions : list BoundingBox.t := [left_region; right_region].
Definition four_returns : list LidarPoint.t :=
  [lidar 10 2 0; lidar 10 (-1) 0; lidar 10 0.5 0; lidar 10 8 0]%float.

End Examples.

(** ** Further definitions *)

(** A computation that stays within defined behaviour: it returns or it
    throws [std::out_of_range]. *)
Definition returns_or_throws {A : Type} (c : outcome A) : Prop :=
  match c with
  | Returned _ | Thrown out_of_range => True
  | _ => False
  end.

(** Both indices of a correspondence are indices of the keypoint vectors. *)
Definition match_ok (kptsPrev kptsCurr : list KeyPoint.t) (m : DMatch.t) : bool :=
  index_ok kptsCurr (DMatch.trainIdx m) && index_ok kptsPrev (DMatch.queryIdx m).

(** The current keypoints of a list of correspondences. *)
Definition resolved (kptsCurr : list KeyPoint.t) (ms : list DMatch.t)
  : list KeyPoint.t :=
  omap (fun m => Vec.get kptsCurr (DMatch.trainIdx m)) ms.

(** A computation that throws nothing: it returns, or its behaviour is
    undefined. *)
Definition never_throws {A : Type} (c : outcome A) : Prop :=
  match c with
  | Thrown _ => False
  | _ => True
  end.

Section InsertedKeys.

Variables (prevFrame currFrame : DataFrame.t).

(** The test of line 286 for match [i] and a box of the previous frame. The
    current rectangle it reads is that of [currFrame.boundingBoxes[i]], and
    both keypoints are keypoints of the previous frame: it is the same for
    every [k]. *)
Definition accepts (i : nat) (match_i : DMatch.t) (box_j : BoundingBox.t) : bool :=
  match DataFrame.boundingBoxes currFrame !! i,
        Vec.get (DataFrame.keypoints prevFrame) (DMatch.queryIdx match_i),
        Vec.get (DataFrame.keypoints prevFrame) (DMatch.trainIdx match_i) with
  | Some box_i, Some pt_previous_frame, Some pt_current_frame =>
      contains2f (BoundingBox.roi box_j) (KeyPoint.pt pt_previous_frame)
      && contains2f (BoundingBox.roi box_i) (KeyPoint.pt pt_current_frame)
  | _, _, _ => false
  end.

(** The keys with which the loops reach [insert], in the order of the
    loops, for the matches from position [first] on. *)
Fixpoint inserted_keys (first : nat) (matches : list DMatch.t) : list Z :=
  match matches with
  | [] => []
  | match_i :: rest =>
      (BoundingBox.boxID
         <$> List.filter (accepts first match_i) (DataFrame.boundingBoxes prevFrame))
      ++ inserted_keys (S first) rest
  end.

(** The reads of the rounds of match [i] are in bounds. *)
Definition reads_ok (i : nat) (match_i : DMatch.t) : Prop :=
  (i < length (DataFrame.boundingBoxes currFrame))%nat
  /\ index_ok (DataFrame.keypoints prevFrame) (DMatch.queryIdx match_i) = true
  /\ index_ok (DataFrame.keypoints prevFrame) (DMatch.trainIdx match_i) = true.

End InsertedKeys.

(** [insert] of one value under each key of a list. *)
Definition insert_all (v : Z) (keys : list Z) (m : gmap Z Z) : gmap Z Z :=
  foldl (fun m k => map_insert k v m) m keys.

(** The map after the three inserts of lines 261-263. *)
Definition with_fixed_entries (m : gmap Z Z) : gmap Z Z :=
  map_insert 5 3 (map_insert 3 3 (map_insert 1 1 m)).

(** ** show3DObjects: the top view of the regions *)

(** Single-precision addition and division. *)
Definition fadd (a b : float) : float := Num.to_float (a + b)%float.
Definition fdiv (a b : float) : float := Num.to_float (a / b)%float.

(** [cv::Size]. *)
Module Size.
Record t : Type := mk { width : Z; height : Z }.
End Size.

(** The variables of lines 76-77, with the centres [cv::circle] is called
    with, in the order of the calls. *)
Module TopView.
Record t : Type := mk {
  top : Z;
  left : Z;
  bottom : Z;
  right : Z;
  xwmin : float;
  ywmin : float;
  ywmax : float;
  circles : list Point.t
}.

(** [int top=1e8, left=1e8, bottom=0.0, right=0.0;
     float xwmin=1e8, ywmin=1e8, ywmax=-1e8;] *)
Definition initial : t :=
  mk (10 ^ 8) (10 ^ 8) 0 0
    (Num.to_float 1e8%float) (Num.to_float 1e8%float) (Num.to_float (- 1e8)%float) [].
End TopView.

(** What is drawn for a region: the state the loop over its points ends in
    and the positions [putText] receives for its two labels. *)
Module Drawing.
Record t : Type := mk { view : TopView.t; label1 : Point.t; label2 : Point.t }.
End Drawing.

(** The result of an [int] operation: undefined when it is not an [int]. *)
Definition int_result (z : Z) : outcome Z :=
  if Num.in_int z then Returned z else Undefined.

Section Show3DObjects.

Variables (worldSize imageSize : Size.t).

(** Line 88: [int y = (-xw * imageSize.height / worldSize.height)
    + imageSize.height], computed in single precision and truncated. *)
Definition topview_y (xw : float) : outcome Z :=
  Num.to_int
    (fadd
       (fdiv (Num.fmul (- xw)%float (Num.int_to_float (Size.height imageSize)))
          (Num.int_to_float (Size.height worldSize)))
       (Num.int_to_float (Size.height imageSize))).

(** Line 89: [int x = (-yw * imageSize.width / worldSize.width)
    + imageSize.width / 2], the last division being one of [int]. *)
Definition topview_x (yw : float) : outcome Z :=
  Num.to_int
    (fadd
       (fdiv (Num.fmul (- yw)%float (Num.int_to_float (Size.width imageSize)))
          (Num.int_to_float (Size.width worldSize)))
       (Num.int_to_float (Size.width imageSize ÷ 2))).

(** Lines 81-98: one Lidar point of a region. *)
Definition plot (it2 : LidarPoint.t) (s : TopView.t) : outcome TopView.t :=
  let xw := Num.to_float (LidarPoint.x it2) in
  let yw := Num.to_float (LidarPoint.y it2) in
  let xwmin := if (TopView.xwmin s <? xw)%float then TopView.xwmin s else xw in
  let ywmin := if (TopView.ywmin s <? yw)%float then TopView.ywmin s else yw in
  let ywmax := if (yw <? TopView.ywmax s)%float then TopView.ywmax s else yw in
  y ← topview_y xw;
  x ← topview_x yw;
  let top := if TopView.top s <? y then TopView.top s else y in
  let left := if TopView.left s <? x then TopView.left s else x in
  let bottom := if y <? TopView.bottom s then TopView.bottom s else y in
  let right := if x <? TopView.right s then TopView.right s else x in
  mret (TopView.mk top left bottom right xwmin ywmin ywmax
          (TopView.circles s ++ [Point.mk x y])).

(** Lines 101-109: the rectangle is drawn from ([left], [top]) to
    ([right], [bottom]) and the two labels are put at
    [cv::Point2f(left-250, bottom+50)] and [cv::Point2f(left-250, bottom+125)]:
    sums of [int], whose overflow is undefined, converted to [float] and,
    [putText] taking a [cv::Point], back to [int]. The second label shows
    [xwmin] and [ywmax - ywmin]. *)
Definition draw_region (it1 : BoundingBox.t) : outcome Drawing.t :=
  view ← for_each plot (BoundingBox.lidarPoints it1) TopView.initial;
  x ← int_result (TopView.left view - 250);
  y1 ← int_result (TopView.bottom view + 50);
  x' ← int_result (TopView.left view - 250);
  y2 ← int_result (TopView.bottom view + 125);
  let org1 := Point2f.mk (Num.int_to_float x) (Num.int_to_float y1) in
  let org2 := Point2f.mk (Num.int_to_float x') (Num.int_to_float y2) in
  mret (Drawing.mk view (Point2f.to_Point org1) (Point2f.to_Point org2)).

(** Lines 69-110 of [show3DObjects]: the loop over the regions, which
    yields what is drawn for each, in the order of the regions. The rest of
    the function is not modelled: the image created before the loop, the
    colours and the texts of the labels, the distance markers and the window
    after it. *)
Definition show3DObjects_regions (boundingBoxes : list BoundingBox.t)
  : outcome (list Drawing.t) :=
  for_each
    (fun it1 drawings => drawing ← draw_region it1; mret (drawings ++ [drawing]))
    boundingBoxes [].

End Show3DObjects.

(** A value that is an infinity or NaN. *)
Definition special (d : float) : Prop :=
  match Prim2SF d with
  | S754_nan | S754_infinity _ => True
  | _ => False
  end.

(** A value that is a zero or NaN. *)
Definition zero_or_nan (d : float) : Prop :=
  match Prim2SF d with
  | S754_zero _ | S754_nan => True
  | _ => False
  end.

(** [m] is a least, or a greatest, value of [l], or the value [init] the
    variable starts from when that is beyond all of [l]. *)
Definition least_of (m init : float) (l : list float) : Prop :=
  (m = init \/ m ∈ l) /\ Forall (float_le m) l.

Definition greatest_of (m init : float) (l : list float) : Prop :=
  (m = init \/ m ∈ l) /\ Forall (fun x => float_le x m) l.

(** A circle drawn within the rectangle of its region, its border
    included. *)
Definition enclosed (view : TopView.t) (c : Point.t) : Prop :=
  TopView.left view <= Point.x c <= TopView.right view
  /\ TopView.top view <= Point.y c <= TopView.bottom view.

Module MoreExamples.

(** The two regions of [Examples.two_regions] after one association of
    [Examples.four_returns]. *)
Definition regions_once : list BoundingBox.t :=
  [BoundingBox.mk 0 (Rect.mk 400 100 200 200) [Examples.lidar 10 2 0] [] [];
   BoundingBox.mk 1 (Rect.mk 500 100 200 200) [Examples.lidar 10 (-1) 0] [] []].

(** Three keypoints, the second outside the rectangle (0, 0, 100, 100), and
    the correspondences of each with itself. *)
Definition three_kpts : list KeyPoint.t :=
  [Examples.kp 10 10; Examples.kp 200 20; Examples.kp 30 30]%float.
Definition three_matches : list DMatch.t :=
  [Examples.dm 0; Examples.dm 1; Examples.dm 2].

(** A correspondence whose current index is out of range, after two that
    are in range. *)
Definition bad_matches : list DMatch.t :=
  [Examples.dm 0; Examples.dm 1; DMatch.mk 0 5 0%float].

(** A region with three returns, seen in a world of 4 m by 20 m drawn on
    2000 by 2000 pixels. *)
Definition three_returns : BoundingBox.t :=
  BoundingBox.mk 0 (Rect.mk 0 0 10 10)
    [Examples.lidar 10 2 0; Examples.lidar 8 (-1) 0; Examples.lidar 12 0 0] [] [].
Definition world : Size.t := Size.mk 4 20.
Definition image : Size.t := Size.mk 2000 2000.
Definition three_returns_drawing : Drawing.t :=
  Drawing.mk
    (TopView.mk 800 0 1200 1500 8%float (-1)%float 2%float
       [Point.mk 0 1000; Point.mk 1500 1200; Point.mk 1000 800])
    (Point.mk (-250) 1250) (Point.mk (-250) 1325).
Definition no_return_drawing : Drawing.t :=
  Drawing.mk TopView.initial (Point.mk 99999752 50) (Point.mk 99999752 125).

End MoreExamples.

(** * Properties *)

(** ** Outcomes and loops *)

Lemma bind_Returned {A B : Type} (c : outcome A) (k : A -> outcome B) (b : B) :
  c ≫= k = Returned b <-> exists a, c = Returned a /\ k a = Returned b.
Proof.
  destruct c as [a | e |]; cbn; split.
  - eauto.
  - intros (a' & [= <-] & Hk). exact Hk.
  - discriminate.
  - intros (a' & [=] & _).
  - discriminate.
  - intros (a' & [=] & _).
Qed.

Lemma bind_ret_l {A B : Type} (a : A) (k : A -> outcome B) :
  Returned a ≫= k = k a.
Proof. reflexivity. Qed.

Lemma for_each_cons {A St : Type} (body : A -> St -> outcome St)
    (a : A) (v : list A) (s : St) :
  for_each body (a :: v) s = body a s ≫= for_each body v.
Proof. reflexivity. Qed.

Lemma for_index_cons {A St : Type} (body : nat -> A -> St -> outcome St)
    (first : nat) (a : A) (v : list A) (s : St) :
  for_index body first (a :: v) s = body first a s ≫= for_index body (S first) v.
Proof. reflexivity. Qed.

(** The loop rule: an invariant every round keeps, each round returning,
    holds of the state the loop returns. *)
Lemma for_each_rule {A St : Type} (I : St -> Prop) (body : A -> St -> outcome St)
    (v : list A) :
  (forall a s, a ∈ v -> I s -> exists s', body a s = Returned s' /\ I s') ->
  forall s, I s -> exists s', for_each body v s = Returned s' /\ I s'.
Proof.
  induction v as [| a v IH]; intros Hbody s Hs; cbn.
  - eauto.
  - destruct (Hbody a s) as (s1 & -> & Hs1); [left | assumption |]. cbn.
    apply IH; [| assumption].
    intros a' s' Ha'. apply Hbody. now right.
Qed.

Lemma for_index_rule {A St : Type} (I : St -> Prop)
    (body : nat -> A -> St -> outcome St) (v : list A) :
  forall first,
  (forall i a s, v !! i = Some a -> I s ->
     exists s', body (first + i)%nat a s = Returned s' /\ I s') ->
  forall s, I s -> exists s', for_index body first v s = Returned s' /\ I s'.
Proof.
  induction v as [| a v IH]; intros first Hbody s Hs; cbn.
  - eauto.
  - destruct (Hbody 0%nat a s) as (s1 & Hb & Hs1); [reflexivity | assumption |].
    rewrite Nat.add_0_r in Hb. rewrite Hb. cbn.
    apply IH; [| assumption].
    intros i a' s' Hi. replace (S first + i)%nat with (first + S i)%nat by lia.
    now apply Hbody.
Qed.

(** Every round of a returned loop has returned, from a state the
    invariant holds of. *)
Lemma for_each_rounds {A St : Type} (I : St -> Prop) (body : A -> St -> outcome St)
    (v : list A) :
  (forall a s s', a ∈ v -> I s -> body a s = Returned s' -> I s') ->
  forall s s', I s -> for_each body v s = Returned s' ->
  forall a, a ∈ v -> exists s1 s2, I s1 /\ body a s1 = Returned s2.
Proof.
  induction v as [| a0 v IH]; intros Hbody s s' Hs Hret a Ha.
  - now apply elem_of_nil in Ha.
  - rewrite for_each_cons in Hret. apply bind_Returned in Hret as (s1 & Hb & Hrest).
    apply elem_of_cons in Ha as [-> | Ha]; [now exists s, s1 |].
    eapply (IH (fun a' t t' Ha' => Hbody a' t t' (list_elem_of_further _ _ _ Ha')));
      [| exact Hrest | exact Ha].
    eapply Hbody; [left | exact Hs | exact Hb].
Qed.

Lemma for_index_rounds {A St : Type} (body : nat -> A -> St -> outcome St)
    (v : list A) :
  forall first s s', for_index body first v s = Returned s' ->
  forall i a, v !! i = Some a ->
  exists s1 s2, body (first + i)%nat a s1 = Returned s2.
Proof.
  induction v as [| a0 v IH]; intros first s s' Hret i a Hi; [discriminate |].
  rewrite for_index_cons in Hret. apply bind_Returned in Hret as (s1 & Hb & Hrest).
  destruct i as [| i].
  - injection Hi as <-. rewrite Nat.add_0_r. now exists s, s1.
  - replace (first + S i)%nat with (S first + i)%nat by lia.
    eapply IH; [exact Hrest | exact Hi].
Qed.

(** ** Vectors *)

Lemma index_ok_get {A : Type} (v : list A) (i : Z) :
  index_ok v i = true <-> is_Some (Vec.get v i).
Proof.
  unfold index_ok, Vec.get. rewrite andb_true_iff, Z.leb_le, Z.ltb_lt.
  destruct (Z.ltb_spec i 0) as [Hneg | Hpos].
  - split; [lia | intros [? [=]]].
  - rewrite lookup_lt_is_Some. lia.
Qed.

Lemma get_of_nat {A : Type} (v : list A) (i : nat) :
  Vec.get v (Z.of_nat i) = v !! i.
Proof.
  unfold Vec.get. destruct (Z.ltb_spec (Z.of_nat i) 0); [lia |].
  now rewrite Nat2Z.id.
Qed.

Lemma index_Returned {A : Type} (v : list A) (i : Z) (a : A) :
  Vec.index v i = Returned a <-> Vec.get v i = Some a.
Proof.
  unfold Vec.index. destruct (Vec.get v i); split; congruence.
Qed.

Lemma at_Returned {A : Type} (v : list A) (i : Z) (a : A) :
  Vec.at_ v i = Returned a <-> Vec.get v i = Some a.
Proof.
  unfold Vec.at_. destruct (Vec.get v i); split; congruence.
Qed.

Lemma filter_none {A : Type} (f : A -> bool) (v : list A) :
  (forall a, In a v -> f a = false) -> List.filter f v = [].
Proof.
  induction v as [| a v IH]; intros Hf; cbn; [reflexivity |].
  rewrite (Hf a) by now left. apply IH. intros a' Ha'. apply Hf. now right.
Qed.

(** ** Doubles *)

Lemma not_finite_of_Prim2SF (f : float) :
  match Prim2SF f with
  | S754_nan | S754_infinity _ => True
  | _ => False
  end ->
  is_finite f = false.
Proof.
  unfold Prim2SF, is_finite.
  destruct (is_nan f); [reflexivity |].
  destruct (is_zero f); [intros [] |].
  destruct (is_infinity f); [reflexivity |].
  destruct (Z.frexp f) as [r e].
  destruct (shr_fexp _ _ _ _ _) as [shr e'].
  destruct (shr_m shr); intros [].
Qed.

Lemma Prim2SF_zero (d : float) :
  is_zero d = true -> exists s, Prim2SF d = S754_zero s.
Proof.
  unfold is_zero. rewrite FloatAxioms.eqb_spec.
  change (Prim2SF zero) with (S754_zero false).
  destruct (Prim2SF d) as [s | s | | s m e]; cbn; try discriminate; [eauto | |];
    destruct s; discriminate.
Qed.

Lemma div_zero_not_finite (y d : float) :
  is_zero d = true -> is_finite (y / d) = false.
Proof.
  intros [s Hd]%Prim2SF_zero. apply not_finite_of_Prim2SF.
  rewrite FloatAxioms.div_spec, Hd. unfold SF64div, SFdiv.
  now destruct (Prim2SF y).
Qed.

Lemma to_int_not_finite (d : float) :
  is_finite d = false -> Num.to_int d = Undefined.
Proof.
  intros Hnf. unfold Num.to_int, Num.trunc.
  destruct (Prim2SF d) as [s | s | | s m e] eqn:Hd; try reflexivity; exfalso.
  - assert (Hz : is_zero d = true).
    { unfold is_zero. rewrite FloatAxioms.eqb_spec, Hd. reflexivity. }
    unfold is_finite, is_nan, is_infinity in Hnf.
    rewrite !FloatAxioms.eqb_spec, FloatAxioms.abs_spec, Hd in Hnf. discriminate Hnf.
  - unfold is_finite, is_nan, is_infinity in Hnf.
    rewrite !FloatAxioms.eqb_spec, FloatAxioms.abs_spec, Hd in Hnf.
    change (Prim2SF infinity) with (S754_infinity false) in Hnf.
    cbn in Hnf. revert Hnf. unfold SFeqb. cbn. rewrite Z.compare_refl, Pos.compare_cont_refl.
    destruct s; discriminate.
Qed.

(** ** std::sort *)

Lemma length_unguarded_linear_insert (val : float) (arranged : list float) :
  length (Num.unguarded_linear_insert val arranged) = S (length arranged).
Proof.
  induction arranged as [| next rest IH]; cbn; [reflexivity |].
  destruct (val <? next)%float; cbn; [now rewrite IH | reflexivity].
Qed.

Lemma length_insertion_step (arranged : list float) (val : float) :
  length (Num.insertion_step arranged val) = S (length arranged).
Proof.
  unfold Num.insertion_step. destruct (last arranged) as [first |] eqn:Hlast.
  - destruct (val <? first)%float.
    + rewrite length_app. cbn. lia.
    + apply length_unguarded_linear_insert.
  - destruct arranged as [| a l]; [reflexivity |].
    rewrite last_cons in Hlast. now destruct (last l).
Qed.

Lemma length_insertion_steps (l arranged : list float) :
  length (foldl Num.insertion_step arranged l) = (length arranged + length l)%nat.
Proof.
  revert arranged. induction l as [| val l IH]; intros arranged; cbn; [lia |].
  rewrite IH, length_insertion_step. lia.
Qed.

Lemma length_sort (l : list float) : length (Num.sort l) = length l.
Proof. unfold Num.sort. now rewrite length_rev, length_insertion_steps. Qed.

Lemma unguarded_linear_insert_perm (val : float) (arranged : list float) :
  Num.unguarded_linear_insert val arranged ≡ₚ val :: arranged.
Proof.
  induction arranged as [| next rest IH]; cbn; [reflexivity |].
  destruct (val <? next)%float; [| reflexivity].
  rewrite IH. apply Permutation_swap.
Qed.

Lemma insertion_step_perm (arranged : list float) (val : float) :
  Num.insertion_step arranged val ≡ₚ val :: arranged.
Proof.
  unfold Num.insertion_step. destruct (last arranged) as [first |] eqn:Hlast.
  - destruct (val <? first)%float.
    + now rewrite Permutation_app_comm.
    + apply unguarded_linear_insert_perm.
  - destruct arranged as [| a l]; [reflexivity |].
    rewrite last_cons in Hlast. now destruct (last l).
Qed.

Lemma insertion_steps_perm (l arranged : list float) :
  foldl Num.insertion_step arranged l ≡ₚ arranged ++ l.
Proof.
  revert arranged. induction l as [| val l IH]; intros arranged; cbn.
  - now rewrite app_nil_r.
  - rewrite IH, insertion_step_perm. cbn. apply Permutation_middle.
Qed.

(** The sorted vector holds the elements of the vector sorted. *)
Lemma sort_perm (l : list float) : Num.sort l ≡ₚ l.
Proof.
  unfold Num.sort. rewrite <- Permutation_rev. now rewrite insertion_steps_perm.
Qed.

Lemma SFcompare_antisym (a b : spec_float) :
  SFcompare a b = option_map CompOpp (SFcompare b a).
Proof.
  destruct a as [s1 | s1 | | s1 m1 e1], b as [s2 | s2 | | s2 m2 e2]; cbn;
    try reflexivity; try (destruct s1; reflexivity); try (destruct s2; reflexivity);
    try (destruct s1, s2; reflexivity).
  destruct s1, s2; cbn; try reflexivity;
    rewrite (Z.compare_antisym e1 e2); destruct (e1 ?= e2); cbn; try reflexivity.
  - now rewrite (Pos.compare_cont_antisym m2 m1 Eq).
  - now rewrite (Pos.compare_cont_antisym m2 m1 Eq).
Qed.

Lemma not_nan_spec (a : float) : not_nan a -> Prim2SF a <> S754_nan.
Proof.
  unfold not_nan, is_nan. rewrite FloatAxioms.eqb_spec. intros H Hn. rewrite Hn in H.
  discriminate H.
Qed.

Lemma ltb_float_le (a b : float) : (a <? b)%float = true -> float_le a b.
Proof.
  unfold float_le. rewrite FloatAxioms.ltb_spec, FloatAxioms.leb_spec. unfold SFltb, SFleb.
  now destruct (SFcompare (Prim2SF a) (Prim2SF b)) as [[] |].
Qed.

(** The order of doubles is total away from NaN. *)
Lemma not_ltb_float_le (a b : float) :
  not_nan a -> not_nan b -> (b <? a)%float = false -> float_le a b.
Proof.
  intros Ha%not_nan_spec Hb%not_nan_spec. unfold float_le.
  rewrite FloatAxioms.ltb_spec, FloatAxioms.leb_spec. unfold SFltb, SFleb.
  rewrite (SFcompare_antisym (Prim2SF a) (Prim2SF b)).
  destruct (Prim2SF a) as [s1 | s1 | | s1 m1 e1]; [| | congruence |];
    (destruct (Prim2SF b) as [s2 | s2 | | s2 m2 e2]; [| | congruence |]);
    cbn; try discriminate; try reflexivity;
    try (destruct s1; cbn; (discriminate || reflexivity));
    try (destruct s2; cbn; (discriminate || reflexivity));
    try (destruct s1, s2; cbn; (discriminate || reflexivity)).
  destruct s1, s2; cbn; try (discriminate || reflexivity);
    destruct (e2 ?= e1); cbn; try (discriminate || reflexivity);
    destruct (Pos.compare_cont Eq m2 m1); cbn; (discriminate || reflexivity).
Qed.

(** The arranged part, its last element first, is in descending order. *)
Lemma unguarded_linear_insert_Sorted (val : float) (arranged : list float) :
  not_nan val -> Forall not_nan arranged ->
  Sorted (fun a b => float_le b a) arranged ->
  Sorted (fun a b => float_le b a) (Num.unguarded_linear_insert val arranged).
Proof.
  intros Hval. induction arranged as [| next rest IH]; intros Hnan Hs; cbn.
  - repeat constructor.
  - apply Forall_cons in Hnan as [Hnext Hrest].
    inversion Hs as [| ? ? Hs' Hhd]; subst.
    destruct (val <? next)%float eqn:Hlt.
    + constructor; [now apply IH |].
      destruct rest as [| c rest]; cbn.
      * constructor. now apply ltb_float_le.
      * destruct (val <? c)%float; constructor;
          [now inversion Hhd | now apply ltb_float_le].
    + constructor; [assumption |]. constructor. now apply not_ltb_float_le.
Qed.

Lemma Sorted_snoc {A : Type} (R : A -> A -> Prop) (l : list A) (a : A) :
  Sorted R l -> (forall x, last l = Some x -> R x a) -> Sorted R (l ++ [a]).
Proof.
  induction l as [| b l IH]; intros Hs Hlast; cbn; [repeat constructor |].
  inversion Hs as [| ? ? Hs' Hhd]; subst. constructor.
  - apply IH; [assumption |]. intros x Hx. apply Hlast.
    rewrite last_cons, Hx. reflexivity.
  - destruct l as [| c l]; cbn; constructor; [now apply Hlast | now inversion Hhd].
Qed.

Lemma Sorted_rev {A : Type} (R : A -> A -> Prop) (l : list A) :
  Sorted (fun a b => R b a) l -> Sorted R (rev l).
Proof.
  induction l as [| a l IH]; intros Hs; cbn; [constructor |].
  inversion Hs as [| ? ? Hs' Hhd]; subst.
  apply Sorted_snoc; [now apply IH |].
  intros x Hx. destruct l as [| b l]; [discriminate |].
  cbn in Hx. rewrite last_snoc in Hx. injection Hx as <-. now inversion Hhd.
Qed.

Lemma insertion_step_Sorted (arranged : list float) (val : float) :
  not_nan val -> Forall not_nan arranged ->
  Sorted (fun a b => float_le b a) arranged ->
  Sorted (fun a b => float_le b a) (Num.insertion_step arranged val).
Proof.
  intros Hval Hnan Hs. unfold Num.insertion_step.
  destruct (last arranged) as [first |] eqn:Hlast; [| repeat constructor].
  destruct (val <? first)%float eqn:Hlt.
  - apply Sorted_snoc; [assumption |].
    intros x Hx. rewrite Hlast in Hx. injection Hx as <-. now apply ltb_float_le.
  - now apply unguarded_linear_insert_Sorted.
Qed.

Lemma insertion_steps_Sorted (l arranged : list float) :
  Forall not_nan l -> Forall not_nan arranged ->
  Sorted (fun a b => float_le b a) arranged ->
  Sorted (fun a b => float_le b a) (foldl Num.insertion_step arranged l).
Proof.
  revert arranged. induction l as [| val l IH]; intros arranged Hl Hnan Hs; cbn;
    [assumption |].
  apply Forall_cons in Hl as [Hval Hl].
  apply IH; [assumption | | now apply insertion_step_Sorted].
  rewrite Forall_forall. intros x Hx. rewrite insertion_step_perm in Hx.
  apply elem_of_cons in Hx as [-> | Hx]; [assumption |].
  exact (proj1 (Forall_forall _ _) Hnan x Hx).
Qed.

(** A vector without NaN comes out of the sort in ascending order. *)
Lemma sort_Sorted (l : list float) :
  Forall not_nan l -> Sorted float_le (Num.sort l).
Proof.
  intros Hl. unfold Num.sort. apply Sorted_rev.
  apply insertion_steps_Sorted; [assumption | constructor | constructor].
Qed.
(** ** The projection of clusterLidarWithROI *)

Lemma pixel_zero_depth (y0 y1 y2 : float) :
  is_zero y2 = true -> pixel [[y0]; [y1]; [y2]] = Undefined.
Proof.
  intros Hz. unfold pixel.
  change (Mat.at_ [[y0]; [y1]; [y2]] 0 0) with (Returned y0).
  change (Mat.at_ [[y0]; [y1]; [y2]] 0 2) with (Returned y2).
  cbv beta iota delta [mbind outcome_bind].
  now rewrite (to_int_not_finite _ (div_zero_not_finite y0 y2 Hz)).
Qed.

(** C4 (the code departs from the claim). Whenever the transformed depth of
    a point is zero the code divides by it all the same: the quotient is
    infinite or NaN, its conversion to the [int] pixel coordinate is
    undefined behaviour, and no failure is reported. *)
Theorem project_zero_depth_is_undefined
    (P_rect_xx R_rect_xx RT : Mat.t) (p : LidarPoint.t) (y0 y1 y2 : float) :
  transform P_rect_xx R_rect_xx RT p = Returned [[y0]; [y1]; [y2]] ->
  is_zero y2 = true ->
  project P_rect_xx R_rect_xx RT p = Undefined.
Proof.
  intros HY Hz. unfold project. rewrite HY.
  cbv beta iota delta [mbind outcome_bind]. now apply pixel_zero_depth.
Qed.

(** A return beside the sensor, forward coordinate 0: the transformed
    vector is (-700, 0, 0), and -700 / 0 is minus infinity. *)
Lemma project_zero_depth_is_undefined_witness :
  project Examples.P_rect Examples.R_rect Examples.RT Examples.beside = Undefined.
Proof.
  apply (project_zero_depth_is_undefined Examples.P_rect Examples.R_rect
           Examples.RT Examples.beside (-700)%float 0%float 0%float);
    vm_compute; reflexivity.
Defined.

(** A return ahead of the sensor projects to a pixel. *)
Lemma project_ahead :
  project Examples.P_rect Examples.R_rect Examples.RT Examples.ahead
  = Returned (Point.mk 530 215).
Proof. vm_compute. reflexivity. Qed.

(** ** clusterLidarWithROI *)

Lemma returns_Returned {A : Type} (c : outcome A) :
  returns c = true -> exists a, c = Returned a.
Proof. destruct c; [eauto | discriminate | discriminate]. Qed.

Lemma add_lidarPoints_nil (b : BoundingBox.t) : add_lidarPoints [] b = b.
Proof. destruct b. unfold add_lidarPoints. cbn. now rewrite app_nil_r. Qed.

Lemma add_lidarPoints_app (ps qs : list LidarPoint.t) (b : BoundingBox.t) :
  add_lidarPoints qs (add_lidarPoints ps b) = add_lidarPoints (ps ++ qs) b.
Proof. unfold add_lidarPoints. cbn. now rewrite app_assoc. Qed.

Section ClusterLidarFacts.

Variables (shrinkFactor : float) (P_rect_xx R_rect_xx RT : Mat.t).

Lemma associated_rois (rois : list Rect.t) (ps : list LidarPoint.t)
    (boxes : list BoundingBox.t) :
  map BoundingBox.roi (associated shrinkFactor P_rect_xx R_rect_xx RT rois ps boxes)
  = map BoundingBox.roi boxes.
Proof.
  unfold associated. apply list_eq. intros i.
  rewrite !list_lookup_fmap, list_lookup_imap.
  now destruct (boxes !! i).
Qed.

Lemma associated_nil (rois : list Rect.t) (boxes : list BoundingBox.t) :
  associated shrinkFactor P_rect_xx R_rect_xx RT rois [] boxes = boxes.
Proof.
  unfold associated. apply list_eq. intros i. rewrite list_lookup_imap.
  destruct (boxes !! i); cbn; [now rewrite add_lidarPoints_nil | reflexivity].
Qed.

Lemma associated_app (rois : list Rect.t) (ps qs : list LidarPoint.t)
    (boxes : list BoundingBox.t) :
  associated shrinkFactor P_rect_xx R_rect_xx RT rois qs
    (associated shrinkFactor P_rect_xx R_rect_xx RT rois ps boxes)
  = associated shrinkFactor P_rect_xx R_rect_xx RT rois (ps ++ qs) boxes.
Proof.
  unfold associated. apply list_eq. intros i. rewrite !list_lookup_imap.
  destruct (boxes !! i); cbn; [| reflexivity].
  now rewrite add_lidarPoints_app, List.filter_app.
Qed.

Lemma enclosing_positions_cons (pt : Point.t) (roi : Rect.t) (rois : list Rect.t)
    (first : nat) :
  enclosing_positions shrinkFactor pt (roi :: rois) first
  = (if inside shrinkFactor pt roi then [first] else [])
    ++ enclosing_positions shrinkFactor pt rois (S first).
Proof. reflexivity. Qed.

(** One round of the loop over the boxes. *)
Lemma enclose_round (pt : Point.t) (first : nat) (b : BoundingBox.t)
    (enclosingBoxes : list nat) :
  returns (smallerBox shrinkFactor (BoundingBox.roi b)) = true ->
  enclose shrinkFactor pt first b enclosingBoxes
  = Returned (enclosingBoxes
              ++ if inside shrinkFactor pt (BoundingBox.roi b) then [first] else []).
Proof.
  intros [sb Hsb]%returns_Returned. unfold enclose, inside. rewrite Hsb.
  cbv beta iota delta [mbind outcome_bind mret outcome_ret].
  destruct (contains sb pt); [reflexivity | now rewrite app_nil_r].
Qed.

(** The loop over the boxes collects the positions of the enclosing ones. *)
Lemma enclose_loop (pt : Point.t) (boxes : list BoundingBox.t) :
  forallb (fun b => returns (smallerBox shrinkFactor (BoundingBox.roi b))) boxes = true ->
  forall first enclosingBoxes,
    for_index (enclose shrinkFactor pt) first boxes enclosingBoxes
    = Returned (enclosingBoxes
                ++ enclosing_positions shrinkFactor pt (map BoundingBox.roi boxes) first).
Proof.
  induction boxes as [| b rest IH]; intros Hok first acc.
  - cbn. now rewrite app_nil_r.
  - cbn [forallb] in Hok. apply andb_true_iff in Hok as [Hb Hrest].
    rewrite for_index_cons, (enclose_round _ _ _ _ Hb).
    cbn [map]. rewrite enclosing_positions_cons.
    cbv beta iota delta [mbind outcome_bind].
    rewrite (IH Hrest). now rewrite <- app_assoc.
Qed.

(** As many positions as rectangles that hold the pixel. *)
Lemma length_enclosing_positions (pt : Point.t) (rois : list Rect.t) (first : nat) :
  length (enclosing_positions shrinkFactor pt rois first)
  = length (List.filter (inside shrinkFactor pt) rois).
Proof.
  revert first. induction rois as [| roi rest IH]; intros first; [reflexivity |].
  rewrite enclosing_positions_cons, length_app, IH. cbn [List.filter].
  now destruct (inside shrinkFactor pt roi).
Qed.

(** Changing the box at position [j] is changing the boxes position by
    position. *)
Lemma alter_as_imap (p : LidarPoint.t) (j : nat) (boxes : list BoundingBox.t) :
  alter (BoundingBox.push_lidarPoint p) j boxes
  = imap (fun i b => add_lidarPoints (if (j =? i)%nat then [p] else []) b) boxes.
Proof.
  apply list_eq. intros i. rewrite list_lookup_imap.
  destruct (Nat.eqb_spec j i) as [-> | Hne].
  - rewrite list_lookup_alter_eq. now destruct (boxes !! i).
  - rewrite list_lookup_alter_ne by assumption.
    destruct (boxes !! i); cbn; [now rewrite add_lidarPoints_nil | reflexivity].
Qed.

(** One round of the loop over the points. *)
Lemma associate_round (p : LidarPoint.t) (boxes : list BoundingBox.t) :
  returns (project P_rect_xx R_rect_xx RT p) = true ->
  forallb (fun b => returns (smallerBox shrinkFactor (BoundingBox.roi b))) boxes = true ->
  associate shrinkFactor P_rect_xx R_rect_xx RT p boxes
  = Returned (associated shrinkFactor P_rect_xx R_rect_xx RT
                (map BoundingBox.roi boxes) [p] boxes).
Proof.
  intros [pt Hpt]%returns_Returned Hok. unfold associate. rewrite Hpt.
  cbv beta iota delta [mbind outcome_bind]. rewrite (enclose_loop pt boxes Hok).
  cbv beta iota. rewrite app_nil_l.
  unfold associated, assigned. cbn [List.filter]. rewrite Hpt.
  destruct (enclosing_positions shrinkFactor pt (map BoundingBox.roi boxes) 0)
    as [| j [| k l]]; cbv beta iota delta [mret outcome_ret]; f_equal.
  - apply list_eq. intros i. rewrite list_lookup_imap.
    destruct (boxes !! i); cbn; [now rewrite add_lidarPoints_nil | reflexivity].
  - apply alter_as_imap.
  - apply list_eq. intros i. rewrite list_lookup_imap.
    destruct (boxes !! i); cbn; [now rewrite add_lidarPoints_nil | reflexivity].
Qed.

Lemma forallb_rois (boxes boxes' : list BoundingBox.t) :
  map BoundingBox.roi boxes' = map BoundingBox.roi boxes ->
  forallb (fun b => returns (smallerBox shrinkFactor (BoundingBox.roi b))) boxes'
  = forallb (fun b => returns (smallerBox shrinkFactor (BoundingBox.roi b))) boxes.
Proof.
  intros Hrois.
  enough (H : forall bs, forallb (fun b => returns (smallerBox shrinkFactor (BoundingBox.roi b))) bs
                         = forallb (fun r => returns (smallerBox shrinkFactor r))
                             (map BoundingBox.roi bs)).
  { now rewrite !H, Hrois. }
  induction bs as [| b bs IH]; cbn; [reflexivity | now rewrite IH].
Qed.

(** The loop over the points, in closed form. *)
Lemma cluster_loop (lidarPoints : list LidarPoint.t) :
  forallb (fun p => returns (project P_rect_xx R_rect_xx RT p)) lidarPoints = true ->
  forall boxes,
    forallb (fun b => returns (smallerBox shrinkFactor (BoundingBox.roi b))) boxes = true ->
    clusterLidarWithROI shrinkFactor P_rect_xx R_rect_xx RT boxes lidarPoints
    = Returned (associated shrinkFactor P_rect_xx R_rect_xx RT
                  (map BoundingBox.roi boxes) lidarPoints boxes).
Proof.
  unfold clusterLidarWithROI.
  induction lidarPoints as [| p rest IH]; intros Hproj boxes Hshrink.
  - cbn. now rewrite associated_nil.
  - cbn [forallb] in Hproj. apply andb_true_iff in Hproj as [Hp Hrest].
    rewrite for_each_cons, (associate_round p boxes Hp Hshrink).
    cbv beta iota delta [mbind outcome_bind].
    set (boxes1 := associated _ _ _ _ _ [p] boxes).
    assert (Hrois : map BoundingBox.roi boxes1 = map BoundingBox.roi boxes)
      by apply associated_rois.
    rewrite (IH Hrest boxes1) by now rewrite (forallb_rois boxes boxes1 Hrois).
    rewrite Hrois. subst boxes1. now rewrite associated_app.
Qed.

(** On a defined input the function returns the closed form. *)
Lemma clusterLidarWithROI_associated (boxes : list BoundingBox.t)
    (lidarPoints : list LidarPoint.t) :
  lidar_defined shrinkFactor P_rect_xx R_rect_xx RT boxes lidarPoints = true ->
  clusterLidarWithROI shrinkFactor P_rect_xx R_rect_xx RT boxes lidarPoints
  = Returned (associated shrinkFactor P_rect_xx R_rect_xx RT
                (map BoundingBox.roi boxes) lidarPoints boxes).
Proof.
  unfold lidar_defined. intros [Hproj Hshrink]%andb_true_iff.
  destruct lidarPoints as [| p rest].
  - cbn. now rewrite associated_nil.
  - now apply cluster_loop.
Qed.

(** One round keeps the rectangles. *)
Lemma associate_rois (p : LidarPoint.t) (boxes boxes' : list BoundingBox.t) :
  associate shrinkFactor P_rect_xx R_rect_xx RT p boxes = Returned boxes' ->
  map BoundingBox.roi boxes' = map BoundingBox.roi boxes.
Proof.
  unfold associate. intros (pt & _ & Hrest)%bind_Returned.
  apply bind_Returned in Hrest as (encl & _ & Hrest).
  assert (Halter : forall j,
            map BoundingBox.roi (alter (BoundingBox.push_lidarPoint p) j boxes)
            = map BoundingBox.roi boxes).
  { intros j. apply list_eq. intros i. rewrite !list_lookup_fmap.
    destruct (decide (j = i)) as [-> | Hne].
    - rewrite list_lookup_alter_eq. now destruct (boxes !! i).
    - now rewrite list_lookup_alter_ne. }
  destruct encl as [| j [| k l]]; injection Hrest as <-; [reflexivity | apply Halter | reflexivity].
Qed.

(** The defined inputs are the inputs on which the function returns. *)
Lemma clusterLidarWithROI_returns_iff (boxes : list BoundingBox.t)
    (lidarPoints : list LidarPoint.t) :
  (exists boxes',
     clusterLidarWithROI shrinkFactor P_rect_xx R_rect_xx RT boxes lidarPoints
     = Returned boxes')
  <-> lidar_defined shrinkFactor P_rect_xx R_rect_xx RT boxes lidarPoints = true.
Proof.
  split.
  2:{ intros Hdef. eexists. now apply clusterLidarWithROI_associated. }
  intros [boxes' Hret]. unfold clusterLidarWithROI in Hret.
  assert (Hround : forall p, p ∈ lidarPoints ->
            returns (project P_rect_xx R_rect_xx RT p) = true
            /\ forallb (fun b => returns (smallerBox shrinkFactor (BoundingBox.roi b)))
                 boxes = true).
  { intros p Hp.
    destruct (for_each_rounds
                (fun s => map BoundingBox.roi s = map BoundingBox.roi boxes)
                _ _ (fun a s s' _ Hs Hb => eq_trans (associate_rois a s s' Hb) Hs)
                _ _ eq_refl Hret p Hp) as (s1 & s2 & Hrois & Hbody).
    unfold associate in Hbody.
    apply bind_Returned in Hbody as (pt & Hpt & Hbody).
    apply bind_Returned in Hbody as (encl & Hencl & _).
    split; [now rewrite Hpt |].
    rewrite <- (forallb_rois boxes s1 Hrois).
    apply forallb_forall. intros b [i Hi]%list_elem_of_In%list_elem_of_lookup_1.
    destruct (for_index_rounds _ _ _ _ _ Hencl i b Hi) as (e1 & e2 & Hb).
    unfold enclose in Hb. apply bind_Returned in Hb as (sb & Hsb & _).
    now rewrite Hsb. }
  unfold lidar_defined. apply andb_true_iff. split.
  - apply forallb_forall. intros p Hp%list_elem_of_In. now apply Hround.
  - destruct lidarPoints as [| p rest]; [reflexivity |].
    apply (Hround p). left.
Qed.

End ClusterLidarFacts.

Lemma associated_lookup (shrinkFactor : float) (P_rect_xx R_rect_xx RT : Mat.t)
    (rois : list Rect.t) (ps : list LidarPoint.t) (boxes : list BoundingBox.t)
    (i : nat) (b' : BoundingBox.t) :
  associated shrinkFactor P_rect_xx R_rect_xx RT rois ps boxes !! i = Some b' ->
  exists b,
    boxes !! i = Some b
    /\ b' = add_lidarPoints
              (List.filter (assigned shrinkFactor P_rect_xx R_rect_xx RT rois i) ps) b.
Proof.
  unfold associated. rewrite list_lookup_imap.
  destruct (boxes !! i) as [b |]; cbn; [| discriminate].
  intros [= <-]. eauto.
Qed.

(** A point is assigned to a position only if its pixel lies in exactly one
    shrunk rectangle, the one at that position. *)
Lemma assigned_true (shrinkFactor : float) (P_rect_xx R_rect_xx RT : Mat.t)
    (rois : list Rect.t) (i : nat) (p : LidarPoint.t) :
  assigned shrinkFactor P_rect_xx R_rect_xx RT rois i p = true ->
  exists pt,
    project P_rect_xx R_rect_xx RT p = Returned pt
    /\ enclosing_positions shrinkFactor pt rois 0 = [i].
Proof.
  unfold assigned. destruct (project P_rect_xx R_rect_xx RT p) as [pt | |];
    [| discriminate | discriminate].
  destruct (enclosing_positions shrinkFactor pt rois 0) as [| j [| k l]] eqn:Hpos;
    [discriminate | | discriminate].
  intros <-%Nat.eqb_eq. exists pt. split; [reflexivity | exact Hpos].
Qed.

(** The points a region holds after association, when it held none. *)
Lemma associated_points (shrinkFactor : float) (P_rect_xx R_rect_xx RT : Mat.t)
    (ps : list LidarPoint.t) (boxes : list BoundingBox.t)
    (i : nat) (b' : BoundingBox.t) (p : LidarPoint.t) :
  Forall (fun b => BoundingBox.lidarPoints b = []) boxes ->
  associated shrinkFactor P_rect_xx R_rect_xx RT (map BoundingBox.roi boxes) ps boxes
    !! i = Some b' ->
  p ∈ BoundingBox.lidarPoints b' ->
  p ∈ ps
  /\ assigned shrinkFactor P_rect_xx R_rect_xx RT (map BoundingBox.roi boxes) i p = true.
Proof.
  intros Hempty (b & Hb & ->)%associated_lookup Hp.
  rewrite Forall_lookup in Hempty. cbn in Hp. rewrite (Hempty i b Hb) in Hp.
  cbn in Hp. apply list_elem_of_In, filter_In in Hp as [Hp Ha].
  split; [now apply list_elem_of_In | exact Ha].
Qed.

(** C10. On every defined input region-point association returns the
    regions with their identifiers, rectangles, keypoints and
    correspondences as they were: the shrunk rectangle is a local value and
    only the point collections grow. *)
Theorem clusterLidarWithROI_keeps_rectangles
    (shrinkFactor : float) (P_rect_xx R_rect_xx RT : Mat.t)
    (boundingBoxes : list BoundingBox.t) (lidarPoints : list LidarPoint.t) :
  lidar_defined shrinkFactor P_rect_xx R_rect_xx RT boundingBoxes lidarPoints = true ->
  exists boundingBoxes',
    clusterLidarWithROI shrinkFactor P_rect_xx R_rect_xx RT boundingBoxes lidarPoints
    = Returned boundingBoxes'
    /\ map BoundingBox.roi boundingBoxes' = map BoundingBox.roi boundingBoxes
    /\ Forall2 same_but_lidarPoints boundingBoxes boundingBoxes'.
Proof.
  intros Hdef. eexists. split; [now apply clusterLidarWithROI_associated |].
  split; [apply associated_rois |].
  apply Forall2_same_length_lookup. split.
  - unfold associated. now rewrite length_imap.
  - intros i b b' Hb (b0 & Hb0 & ->)%associated_lookup.
    rewrite Hb in Hb0. injection Hb0 as <-. now repeat split.
Qed.

Lemma clusterLidarWithROI_keeps_rectangles_witness :
  exists boundingBoxes',
    clusterLidarWithROI Examples.shrink Examples.P_rect Examples.R_rect Examples.RT
      Examples.two_regions Examples.four_returns
    = Returned boundingBoxes'
    /\ map BoundingBox.roi boundingBoxes' = map BoundingBox.roi Examples.two_regions
    /\ Forall2 same_but_lidarPoints Examples.two_regions boundingBoxes'.
Proof.
  apply (clusterLidarWithROI_keeps_rectangles Examples.shrink Examples.P_rect
           Examples.R_rect Examples.RT Examples.two_regions Examples.four_returns).
  vm_compute. reflexivity.
Defined.

(** C5. On every defined input whose regions hold no point yet, whatever the
    shrink factor, region-point association returns regions such that every
    point of a region is an input point, no point is in the collections of
    two regions, and a point whose pixel lies in the shrunk rectangle of no
    region, or of more than one, is in no collection. *)
Theorem clusterLidarWithROI_partition
    (shrinkFactor : float) (P_rect_xx R_rect_xx RT : Mat.t)
    (boundingBoxes : list BoundingBox.t) (lidarPoints : list LidarPoint.t) :
  lidar_defined shrinkFactor P_rect_xx R_rect_xx RT boundingBoxes lidarPoints = true ->
  Forall (fun b => BoundingBox.lidarPoints b = []) boundingBoxes ->
  exists boundingBoxes',
    clusterLidarWithROI shrinkFactor P_rect_xx R_rect_xx RT boundingBoxes lidarPoints
    = Returned boundingBoxes'
    /\ (forall b' p,
          b' ∈ boundingBoxes' -> p ∈ BoundingBox.lidarPoints b' -> p ∈ lidarPoints)
    /\ (forall i j bi bj p,
          i <> j ->
          boundingBoxes' !! i = Some bi ->
          boundingBoxes' !! j = Some bj ->
          p ∈ BoundingBox.lidarPoints bi ->
          p ∉ BoundingBox.lidarPoints bj)
    /\ (forall p pt,
          project P_rect_xx R_rect_xx RT p = Returned pt ->
          count_inside shrinkFactor boundingBoxes pt <> 1%nat ->
          forall b', b' ∈ boundingBoxes' -> p ∉ BoundingBox.lidarPoints b').
Proof.
  intros Hdef Hempty. eexists. split; [now apply clusterLidarWithROI_associated |].
  split; [| split].
  - intros b' p [i Hi]%list_elem_of_lookup_1 Hp.
    now destruct (associated_points _ _ _ _ _ _ _ _ _ Hempty Hi Hp).
  - intros i j bi bj p Hne Hi Hj Hpi Hpj.
    destruct (associated_points _ _ _ _ _ _ _ _ _ Hempty Hi Hpi) as [_ Hai].
    destruct (associated_points _ _ _ _ _ _ _ _ _ Hempty Hj Hpj) as [_ Haj].
    apply assigned_true in Hai as (pt & Hpt & Hposi).
    apply assigned_true in Haj as (pt' & Hpt' & Hposj).
    rewrite Hpt in Hpt'. injection Hpt' as <-. congruence.
  - intros p pt Hpt Hcount b' [i Hi]%list_elem_of_lookup_1 Hp.
    destruct (associated_points _ _ _ _ _ _ _ _ _ Hempty Hi Hp) as [_ Ha].
    apply assigned_true in Ha as (pt' & Hpt' & Hpos).
    rewrite Hpt in Hpt'. injection Hpt' as <-.
    apply Hcount. unfold count_inside.
    now rewrite <- (length_enclosing_positions shrinkFactor pt _ 0), Hpos.
Qed.

Lemma clusterLidarWithROI_partition_witness :
  exists boundingBoxes',
    clusterLidarWithROI Examples.shrink Examples.P_rect Examples.R_rect Examples.RT
      Examples.two_regions Examples.four_returns
    = Returned boundingBoxes'
    /\ (forall b' p,
          b' ∈ boundingBoxes' -> p ∈ BoundingBox.lidarPoints b' ->
          p ∈ Examples.four_returns)
    /\ (forall i j bi bj p,
          i <> j ->
          boundingBoxes' !! i = Some bi ->
          boundingBoxes' !! j = Some bj ->
          p ∈ BoundingBox.lidarPoints bi ->
          p ∉ BoundingBox.lidarPoints bj)
    /\ (forall p pt,
          project Examples.P_rect Examples.R_rect Examples.RT p = Returned pt ->
          count_inside Examples.shrink Examples.two_regions pt <> 1%nat ->
          forall b', b' ∈ boundingBoxes' -> p ∉ BoundingBox.lidarPoints b').
Proof.
  apply (clusterLidarWithROI_partition Examples.shrink Examples.P_rect Examples.R_rect
           Examples.RT Examples.two_regions Examples.four_returns).
  - vm_compute. reflexivity.
  - repeat constructor.
Defined.

(** The example in full: the first return goes to the left region, the
    second to the right region; the third lies in both shrunk rectangles and
    the fourth in none, and neither is kept. *)
Lemma clusterLidarWithROI_example :
  map BoundingBox.lidarPoints <$>
    clusterLidarWithROI Examples.shrink Examples.P_rect Examples.R_rect Examples.RT
      Examples.two_regions Examples.four_returns
  = Returned [[Examples.lidar 10 2 0]; [Examples.lidar 10 (-1) 0]]%float.
Proof. vm_compute. reflexivity. Qed.
(** ** clusterKptMatchesWithROI *)

Section ClusterKptMatchesFacts.

Variables (kptsPrev kptsCurr : list KeyPoint.t).

(** One round appends the correspondence when its current keypoint lies in
    the rectangle, and keeps the rectangle. *)
Lemma cluster_round_appends (it1 : DMatch.t) (boundingBox : BoundingBox.t) :
  index_ok kptsCurr (DMatch.trainIdx it1) = true ->
  index_ok kptsPrev (DMatch.queryIdx it1) = true ->
  exists boundingBox',
    cluster_round kptsPrev kptsCurr it1 boundingBox = Returned boundingBox'
    /\ BoundingBox.roi boundingBox' = BoundingBox.roi boundingBox
    /\ BoundingBox.kptMatches boundingBox'
       = BoundingBox.kptMatches boundingBox
         ++ List.filter (in_roi kptsCurr (BoundingBox.roi boundingBox)) [it1].
Proof.
  intros [kc Hkc]%index_ok_get [kp Hkp]%index_ok_get.
  unfold cluster_round, Vec.at_, in_roi. cbn [List.filter]. rewrite Hkc, Hkp.
  cbv beta iota delta [mbind outcome_bind mret outcome_ret].
  destruct (contains2f (BoundingBox.roi boundingBox) (KeyPoint.pt kc));
    eexists; (split; [reflexivity |]); cbn; [now split | now rewrite app_nil_r].
Qed.

(** The loop appends the correspondences inside the rectangle, from the
    second on: the first is outside the range of the loop. *)
Lemma clusterKptMatchesWithROI_from_second (boundingBox : BoundingBox.t)
    (first : DMatch.t) (from_second : list DMatch.t) :
  forallb
    (fun m => index_ok kptsCurr (DMatch.trainIdx m)
              && index_ok kptsPrev (DMatch.queryIdx m)) from_second = true ->
  BoundingBox.kptMatches <$>
    clusterKptMatchesWithROI kptsPrev kptsCurr boundingBox (first :: from_second)
  = Returned (BoundingBox.kptMatches boundingBox
              ++ List.filter (in_roi kptsCurr (BoundingBox.roi boundingBox)) from_second).
Proof.
  unfold clusterKptMatchesWithROI. revert boundingBox.
  induction from_second as [| it1 rest IH]; intros boundingBox Hok.
  - cbn. now rewrite app_nil_r.
  - cbn [forallb] in Hok. apply andb_true_iff in Hok as [Hit1 Hrest].
    apply andb_true_iff in Hit1 as [Hc Hp].
    destruct (cluster_round_appends it1 boundingBox Hc Hp) as (bb' & Hround & Hroi & Hm).
    rewrite for_each_cons, Hround. cbv beta iota delta [mbind outcome_bind].
    rewrite (IH bb' Hrest), Hroi, Hm, <- app_assoc.
    change (it1 :: rest) with ([it1] ++ rest). now rewrite List.filter_app.
Qed.

End ClusterKptMatchesFacts.

(** C6 (the code departs from the claim). The loop starts at the second
    correspondence. Whenever the current keypoint of the first one lies
    inside the rectangle, the correspondences appended are those inside the
    rectangle from the second on, and the first, though inside, is missing:
    not every correspondence is evaluated. *)
Theorem clusterKptMatchesWithROI_skips_first
    (kptsPrev kptsCurr : list KeyPoint.t) (boundingBox : BoundingBox.t)
    (first : DMatch.t) (from_second : list DMatch.t) :
  forallb
    (fun m => index_ok kptsCurr (DMatch.trainIdx m)
              && index_ok kptsPrev (DMatch.queryIdx m)) from_second = true ->
  in_roi kptsCurr (BoundingBox.roi boundingBox) first = true ->
  BoundingBox.kptMatches <$>
    clusterKptMatchesWithROI kptsPrev kptsCurr boundingBox (first :: from_second)
  = Returned (BoundingBox.kptMatches boundingBox
              ++ List.filter (in_roi kptsCurr (BoundingBox.roi boundingBox)) from_second)
  /\ ~ appends_every_match_inside kptsPrev kptsCurr boundingBox (first :: from_second).
Proof.
  intros Hok Hin.
  pose proof (clusterKptMatchesWithROI_from_second kptsPrev kptsCurr boundingBox
                first from_second Hok) as Hrun.
  split; [exact Hrun |].
  unfold appends_every_match_inside. rewrite Hrun. cbn [List.filter]. rewrite Hin.
  intros [= Heq]. apply (f_equal length) in Heq.
  rewrite !length_app in Heq. cbn in Heq. lia.
Qed.

(** Two correspondences, both inside the rectangle: only the second is
    appended. *)
Lemma clusterKptMatchesWithROI_skips_first_witness :
  BoundingBox.kptMatches <$>
    clusterKptMatchesWithROI Examples.two_kpts Examples.two_kpts
      Examples.target Examples.two_matches
  = Returned [Examples.dm 1]
  /\ ~ appends_every_match_inside Examples.two_kpts Examples.two_kpts
        Examples.target Examples.two_matches.
Proof.
  exact (clusterKptMatchesWithROI_skips_first Examples.two_kpts Examples.two_kpts
           Examples.target (Examples.dm 0) [Examples.dm 1] eq_refl eq_refl).
Defined.

(** Without any correspondence the first iterator of the loop is already
    past the end. *)
Lemma clusterKptMatchesWithROI_no_match (kptsPrev kptsCurr : list KeyPoint.t)
    (boundingBox : BoundingBox.t) :
  clusterKptMatchesWithROI kptsPrev kptsCurr boundingBox [] = Undefined.
Proof. reflexivity. Qed.

(** ** computeTTCCamera *)

Lemma index_nth (l : list float) (i : nat) :
  (i < length l)%nat -> Vec.index l (Z.of_nat i) = Returned (nth i l nan).
Proof.
  intros Hi. apply index_Returned. rewrite get_of_nat.
  apply lookup_lt_is_Some in Hi as [a Ha].
  rewrite Ha. f_equal. symmetry. now apply nth_lookup_Some with (d := nan) in Ha.
Qed.

(** Both reads of the median are in bounds of a non-empty vector. *)
Lemma medianDistRatio_Returned (distRatios : list float) :
  distRatios <> [] ->
  medianDistRatio distRatios = Returned (median_of_sorted (Num.sort distRatios)).
Proof.
  intros Hne. unfold medianDistRatio, median_of_sorted.
  assert (Hlen : (0 < length (Num.sort distRatios))%nat).
  { rewrite length_sort. destruct distRatios; [congruence | cbn; lia]. }
  set (sorted := Num.sort distRatios) in *. set (n := length sorted) in *.
  rewrite <- Nat.bit0_odd, Nat.bit0_eqb.
  replace (Z.of_nat n mod 2 =? 1) with (n mod 2 =? 1)%nat.
  2:{ apply eq_true_iff_eq. rewrite Z.eqb_eq, Nat.eqb_eq.
      change 2 with (Z.of_nat 2). rewrite <- Nat2Z.inj_mod. lia. }
  destruct (Nat.eqb_spec (n mod 2) 1) as [Hodd | Heven].
  - replace ((Z.of_nat n - 1) / 2) with (Z.of_nat ((n - 1) / 2)).
    2:{ rewrite Nat2Z.inj_div, Nat2Z.inj_sub by lia. reflexivity. }
    apply index_nth. apply Nat.Div0.div_lt_upper_bound. lia.
  - assert (Hmod : (n mod 2 = 0)%nat).
    { pose proof (Nat.mod_upper_bound n 2). lia. }
    assert (Hn : (n = 2 * (n / 2))%nat).
    { rewrite (Nat.div_mod_eq n 2) at 1. lia. }
    replace (Z.of_nat n / 2 - 1) with (Z.of_nat (n / 2 - 1)).
    2:{ rewrite Nat2Z.inj_sub, Nat2Z.inj_div by lia. reflexivity. }
    replace (Z.of_nat n / 2) with (Z.of_nat (n / 2)).
    2:{ now rewrite Nat2Z.inj_div. }
    rewrite !index_nth by lia. reflexivity.
Qed.

Section TTCCameraFacts.

Variables (kptsPrev kptsCurr : list KeyPoint.t).

(** One round of the inner loop appends the ratio of its pair, if retained. *)
Lemma inner_round_appends (outer it2 : DMatch.t) (kpOuterCurr kpOuterPrev : KeyPoint.t)
    (distRatios : list float) :
  Vec.get kptsCurr (DMatch.trainIdx outer) = Some kpOuterCurr ->
  Vec.get kptsPrev (DMatch.queryIdx outer) = Some kpOuterPrev ->
  index_ok kptsCurr (DMatch.trainIdx it2) = true ->
  index_ok kptsPrev (DMatch.queryIdx it2) = true ->
  inner_round kptsPrev kptsCurr kpOuterCurr kpOuterPrev it2 distRatios
  = Returned (distRatios ++ pair_ratio kptsPrev kptsCurr outer it2).
Proof.
  intros Hoc Hop [ic Hic]%index_ok_get [ip Hip]%index_ok_get.
  unfold inner_round, pair_ratio, Vec.at_.
  rewrite Hoc, Hop, Hic, Hip.
  cbv beta iota delta [mbind outcome_bind mret outcome_ret retained distance].
  destruct (_ && _); [reflexivity | now rewrite app_nil_r].
Qed.

(** The inner loop appends the retained ratios of its pairs. *)
Lemma inner_loop_appends (outer : DMatch.t) (kpOuterCurr kpOuterPrev : KeyPoint.t)
    (from_second : list DMatch.t) :
  Vec.get kptsCurr (DMatch.trainIdx outer) = Some kpOuterCurr ->
  Vec.get kptsPrev (DMatch.queryIdx outer) = Some kpOuterPrev ->
  forallb
    (fun m => index_ok kptsCurr (DMatch.trainIdx m)
              && index_ok kptsPrev (DMatch.queryIdx m)) from_second = true ->
  forall distRatios,
    for_each (inner_round kptsPrev kptsCurr kpOuterCurr kpOuterPrev) from_second distRatios
    = Returned (distRatios ++ flat_map (pair_ratio kptsPrev kptsCurr outer) from_second).
Proof.
  intros Hoc Hop. induction from_second as [| it2 rest IH]; intros Hok distRatios.
  - cbn. now rewrite app_nil_r.
  - rewrite for_each_cons. cbn [flat_map].
    cbn [forallb] in Hok. apply andb_true_iff in Hok as [Hit2 Hrest].
    apply andb_true_iff in Hit2 as [Hic Hip].
    rewrite (inner_round_appends outer it2 _ _ _ Hoc Hop Hic Hip). cbn.
    rewrite (IH Hrest). now rewrite <- app_assoc.
Qed.

(** The outer loop appends the retained ratios of its rounds. *)
Lemma outer_loop_appends (from_second outers : list DMatch.t) :
  forallb
    (fun m => index_ok kptsCurr (DMatch.trainIdx m)
              && index_ok kptsPrev (DMatch.queryIdx m)) from_second = true ->
  forallb
    (fun m => index_ok kptsCurr (DMatch.trainIdx m)
              && index_ok kptsPrev (DMatch.queryIdx m)) outers = true ->
  forall distRatios,
    for_each (outer_round kptsPrev kptsCurr from_second) outers distRatios
    = Returned
        (distRatios
         ++ flat_map
              (fun outer => flat_map (pair_ratio kptsPrev kptsCurr outer) from_second)
              outers).
Proof.
  intros Hinner. induction outers as [| it1 rest IH]; intros Hok distRatios.
  - cbn. now rewrite app_nil_r.
  - rewrite for_each_cons. cbn [flat_map].
    cbn [forallb] in Hok. apply andb_true_iff in Hok as [Hit1 Hrest].
    apply andb_true_iff in Hit1 as [[oc Hoc]%index_ok_get [op Hop]%index_ok_get].
    assert (Hround : outer_round kptsPrev kptsCurr from_second it1 distRatios
                     = Returned (distRatios
                                 ++ flat_map (pair_ratio kptsPrev kptsCurr it1) from_second)).
    { unfold outer_round, Vec.at_. rewrite Hoc, Hop.
      cbv beta iota delta [mbind outcome_bind].
      now apply inner_loop_appends. }
    rewrite Hround. cbn.
    rewrite (IH Hrest). now rewrite <- app_assoc.
Qed.

Lemma forallb_removelast {A : Type} (f : A -> bool) (l : list A) :
  forallb f l = true -> forallb f (removelast l) = true.
Proof.
  induction l as [| a [| b l] IH]; cbn; try reflexivity.
  intros [Ha Hl]%andb_true_iff. rewrite Ha. cbn. now apply IH.
Qed.

(** The two loops collect exactly the retained ratios. *)
Lemma collect_distRatios_retained (kptMatches : list DMatch.t) :
  camera_defined kptsPrev kptsCurr kptMatches = true ->
  collect_distRatios kptsPrev kptsCurr kptMatches
  = Returned (retained_ratios kptsPrev kptsCurr kptMatches).
Proof.
  unfold camera_defined, collect_distRatios, retained_ratios.
  destruct kptMatches as [| m0 [| m1 rest]]; [discriminate | reflexivity |].
  intros Hok.
  rewrite outer_loop_appends; [reflexivity | | now apply forallb_removelast].
  cbn in Hok. now apply andb_true_iff in Hok as [_ Hok].
Qed.

Lemma elem_of_removelast_or_tail {A : Type} (a0 a1 : A) (l : list A) (a : A) :
  a ∈ a0 :: a1 :: l -> a ∈ removelast (a0 :: a1 :: l) \/ a ∈ a1 :: l.
Proof.
  intros [-> | Ha]%elem_of_cons; [left; cbn; left | now right].
Qed.

(** The inputs of [camera_defined] are the inputs on which the loops
    return. *)
Lemma collect_distRatios_returns_iff (kptMatches : list DMatch.t) :
  (exists distRatios,
     collect_distRatios kptsPrev kptsCurr kptMatches = Returned distRatios)
  <-> camera_defined kptsPrev kptsCurr kptMatches = true.
Proof.
  split.
  2:{ intros Hdef. eexists. now apply collect_distRatios_retained. }
  intros [distRatios Hret]. unfold collect_distRatios in Hret. unfold camera_defined.
  destruct kptMatches as [| m0 [| m1 rest]]; [discriminate | reflexivity |].
  assert (Houter : forall it1, it1 ∈ removelast (m0 :: m1 :: rest) ->
            exists s1 s2, outer_round kptsPrev kptsCurr (m1 :: rest) it1 s1 = Returned s2).
  { intros it1 Hit1.
    destruct (for_each_rounds (fun _ => True) _ _ (fun _ _ _ _ _ _ => I)
                _ _ I Hret it1 Hit1) as (s1 & s2 & _ & Hb).
    eauto. }
  apply forallb_forall. intros m Hm%list_elem_of_In.
  apply elem_of_removelast_or_tail in Hm as [Hm | Hm].
  - destruct (Houter m Hm) as (s1 & s2 & Hb). unfold outer_round in Hb.
    apply bind_Returned in Hb as (oc & Hoc & Hb).
    apply bind_Returned in Hb as (op & Hop & _).
    apply at_Returned in Hoc, Hop.
    apply andb_true_iff. rewrite !index_ok_get, Hoc, Hop. eauto.
  - destruct (Houter m0) as (s1 & s2 & Hb); [cbn; left |].
    unfold outer_round in Hb.
    apply bind_Returned in Hb as (oc & _ & Hb).
    apply bind_Returned in Hb as (op & _ & Hb).
    destruct (for_each_rounds (fun _ => True) _ _ (fun _ _ _ _ _ _ => I)
                _ _ I Hb m Hm) as (t1 & t2 & _ & Hin).
    unfold inner_round in Hin.
    apply bind_Returned in Hin as (ic & Hic & Hin).
    apply bind_Returned in Hin as (ip & Hip & _).
    apply at_Returned in Hic, Hip.
    apply andb_true_iff. rewrite !index_ok_get, Hic, Hip. eauto.
Qed.

End TTCCameraFacts.

(** C7 (the code departs from the claim). The loops do not run over the
    pairs of distinct correspondences: the outer loop takes every
    correspondence but the last and the inner loop every one but the first
    (line 167 starts at [begin() + 1], not after the outer one), so a pair of
    two interior correspondences is met twice. For four keypoints on a line
    the six pairs have the ratios 3, 2, 1, 1.5, 0.75, 0.5, of median 1.25
    and TTC 0.4 at 10 Hz; the code retains 1.5 twice, its median is 1.5 and
    the TTC it writes is 0.2. On the square of side 10 shrinking to side 8
    every current distance is below [minDist = 100], no ratio is retained
    and NaN is written, not -0.5. *)
Theorem computeTTCCamera_counts_interior_pairs_twice :
  distinct_pair_ratios Examples.line_prev Examples.line_curr Examples.four_matches
  = [3; 2; 1; 1.5; 0.75; 0.5]%float
  /\ retained_ratios Examples.line_prev Examples.line_curr Examples.four_matches
     = [3; 2; 1; 1.5; 0.75; 1.5; 0.5]%float
  /\ TTC_of_median 10
       (median_of_sorted
          (Num.sort
             (distinct_pair_ratios Examples.line_prev Examples.line_curr
                Examples.four_matches)))
     = 0.4%float
  /\ computeTTCCamera Examples.line_prev Examples.line_curr Examples.four_matches
       10%float
     = Returned 0.2%float
  /\ ~ TTC_over_distinct_pairs Examples.line_prev Examples.line_curr
         Examples.four_matches 10%float
  /\ computeTTCCamera (Examples.square 10) (Examples.square 8)
       Examples.four_matches 10%float
     = Returned nan.
Proof.
  assert (Hcode :
    computeTTCCamera Examples.line_prev Examples.line_curr Examples.four_matches
      10%float
    = Returned 0.2%float) by (vm_compute; reflexivity).
  split; [vm_compute; reflexivity |]. split; [vm_compute; reflexivity |].
  split; [vm_compute; reflexivity |]. split; [exact Hcode |].
  split; [| vm_compute; reflexivity].
  unfold TTC_over_distinct_pairs. rewrite Hcode. intros H.
  assert (Hcmp : (fun c => match c with Returned t => (t =? 0.2)%float | _ => false end)
                   (Returned 0.2%float) = true) by reflexivity.
  rewrite H in Hcmp. vm_compute in Hcmp. discriminate Hcmp.
Qed.

(** C8 (the code departs from the claim). With no correspondence at all no
    distance ratio survives, but the estimator does not reach its test of
    the ratio list: the outer loop runs towards [kptMatches.end() - 1],
    which lies before [begin()], and dereferences [begin()]. The behaviour
    is undefined; NaN is not what is written. *)
Theorem computeTTCCamera_no_match_is_undefined
    (kptsPrev kptsCurr : list KeyPoint.t) (frameRate : float) :
  retained_ratios kptsPrev kptsCurr [] = []
  /\ computeTTCCamera kptsPrev kptsCurr [] frameRate = Undefined
  /\ computeTTCCamera kptsPrev kptsCurr [] frameRate <> Returned nan.
Proof.
  split; [reflexivity |]. split; [reflexivity |].
  unfold computeTTCCamera, collect_distRatios. cbn. discriminate.
Qed.

(** From one correspondence on, with every index in bounds, the test of the
    ratio list is reached and NaN is written when no ratio is retained. *)
Lemma computeTTCCamera_no_ratio (kptsPrev kptsCurr : list KeyPoint.t)
    (kptMatches : list DMatch.t) (frameRate : float) :
  camera_defined kptsPrev kptsCurr kptMatches = true ->
  retained_ratios kptsPrev kptsCurr kptMatches = [] ->
  computeTTCCamera kptsPrev kptsCurr kptMatches frameRate = Returned nan.
Proof.
  intros Hdef Hnone. unfold computeTTCCamera.
  rewrite (collect_distRatios_retained _ _ _ Hdef), Hnone. reflexivity.
Qed.

(** ** computeTTCLidar *)

(** The inner loop appends one value per previous point to two vectors. *)
Lemma lidar_inner_loop (it1 : LidarPoint.t) (lidarPointsPrev : list LidarPoint.t) :
  forall s,
    for_each (lidar_inner_round it1) lidarPointsPrev s
    = Returned
        (mk_lidar_vectors
           (Distance_array s
            ++ map (fun it2 => (LidarPoint.x it2 - LidarPoint.x it1)%float)
                 lidarPointsPrev)
           (X_val_curr s)
           (X_val_prev s ++ map LidarPoint.x lidarPointsPrev)).
Proof.
  induction lidarPointsPrev as [| it2 rest IH]; intros s.
  - cbn. rewrite !app_nil_r. now destruct s.
  - rewrite for_each_cons.
    change (lidar_inner_round it1 it2 s)
      with (Returned
              (mk_lidar_vectors
                 (Distance_array s ++ [(LidarPoint.x it2 - LidarPoint.x it1)%float])
                 (X_val_curr s)
                 (X_val_prev s ++ [LidarPoint.x it2]))).
    rewrite bind_ret_l, IH.
    cbn [Distance_array X_val_curr X_val_prev map]. now rewrite <- !app_assoc.
Qed.

(** The outer loop: [X_val_prev] receives the forward values of all the
    previous points once per current point. *)
Lemma lidar_outer_loop (lidarPointsPrev lidarPointsCurr : list LidarPoint.t) :
  forall s,
    for_each (lidar_outer_round lidarPointsPrev) lidarPointsCurr s
    = Returned
        (mk_lidar_vectors
           (Distance_array s
            ++ flat_map
                 (fun it1 =>
                    map (fun it2 => (LidarPoint.x it2 - LidarPoint.x it1)%float)
                      lidarPointsPrev)
                 lidarPointsCurr)
           (X_val_curr s ++ map LidarPoint.x lidarPointsCurr)
           (X_val_prev s
            ++ flat_map (fun _ => map LidarPoint.x lidarPointsPrev) lidarPointsCurr)).
Proof.
  induction lidarPointsCurr as [| it1 rest IH]; intros s.
  - cbn. rewrite !app_nil_r. now destruct s.
  - rewrite for_each_cons.
    change (lidar_outer_round lidarPointsPrev it1 s)
      with (for_each (lidar_inner_round it1) lidarPointsPrev
              (mk_lidar_vectors (Distance_array s)
                 (X_val_curr s ++ [LidarPoint.x it1]) (X_val_prev s))).
    rewrite lidar_inner_loop, bind_ret_l, IH.
    cbn [Distance_array X_val_curr X_val_prev map flat_map].
    now rewrite <- !app_assoc.
Qed.

Lemma length_flat_map_const {A B : Type} (l : list B) (v : list A) :
  length (flat_map (fun _ => l) v) = (length v * length l)%nat.
Proof.
  induction v as [| a v IH]; cbn; [reflexivity |]. rewrite length_app, IH. lia.
Qed.

Lemma index_short {A : Type} (v : list A) (i : nat) :
  (length v <= i)%nat -> Vec.index v (Z.of_nat i) = Undefined.
Proof.
  intros Hlen. unfold Vec.index. rewrite get_of_nat.
  now rewrite (lookup_ge_None_2 v i Hlen).
Qed.

(** The estimator in closed form: it sorts the current forward values and
    the repeated previous forward values and reads index 5 of each. *)
Lemma computeTTCLidar_closed (lidarPointsPrev lidarPointsCurr : list LidarPoint.t)
    (frameRate : float) :
  computeTTCLidar lidarPointsPrev lidarPointsCurr frameRate
  = (p5 ← Vec.index
            (Num.sort (flat_map (fun _ => map LidarPoint.x lidarPointsPrev)
                         lidarPointsCurr)) 5;
     c5 ← Vec.index (Num.sort (map LidarPoint.x lidarPointsCurr)) 5;
     mret (c5 / ((p5 - c5) * frameRate))%float).
Proof.
  unfold computeTTCLidar. rewrite lidar_outer_loop.
  cbv beta iota delta [mbind outcome_bind mret outcome_ret X_val_curr X_val_prev].
  rewrite !app_nil_l.
  destruct (Vec.index (Num.sort (flat_map _ lidarPointsCurr)) 5); try reflexivity.
  destruct (Vec.index (Num.sort (map LidarPoint.x lidarPointsCurr)) 5); reflexivity.
Qed.

(** With fewer than six current points the read of [X_val_curr[5]], or
    already that of [X_val_prev[5]], is out of bounds. *)
Lemma computeTTCLidar_short_curr (lidarPointsPrev lidarPointsCurr : list LidarPoint.t)
    (frameRate : float) :
  (length lidarPointsCurr < 6)%nat ->
  computeTTCLidar lidarPointsPrev lidarPointsCurr frameRate = Undefined.
Proof.
  intros Hlen. rewrite computeTTCLidar_closed.
  change 5 with (Z.of_nat 5).
  rewrite (index_short (Num.sort (map LidarPoint.x lidarPointsCurr)) 5)
    by (rewrite length_sort, length_map; lia).
  unfold Vec.index. destruct (Vec.get _ _); reflexivity.
Qed.

(** With six current points or more, and as many previous points as make up
    six values with them, both reads are in bounds and a value is written,
    however few the previous points are. *)
Lemma computeTTCLidar_returns (lidarPointsPrev lidarPointsCurr : list LidarPoint.t)
    (frameRate : float) :
  (6 <= length lidarPointsCurr)%nat ->
  (6 <= length lidarPointsCurr * length lidarPointsPrev)%nat ->
  exists ttc, computeTTCLidar lidarPointsPrev lidarPointsCurr frameRate = Returned ttc.
Proof.
  intros Hc Hp. rewrite computeTTCLidar_closed. change 5 with (Z.of_nat 5).
  rewrite !index_nth
    by (rewrite length_sort, ?length_flat_map_const, length_map; lia).
  eexists. reflexivity.
Qed.

(** C1 (the code departs from the claim). No size is validated before index
    5 is read. With six previous and five current points the read of
    [X_val_curr[5]] is out of bounds. With three previous and six current
    points the previous collection is shorter than the rank requires, yet
    index 5 is in bounds of both vectors, since [X_val_prev] holds every
    previous value six times, and the finite TTC 0.5 is written. *)
Theorem computeTTCLidar_validates_no_size :
  computeTTCLidar Examples.six_prev Examples.five_curr 10%float = Undefined
  /\ computeTTCLidar Examples.short_prev Examples.six_curr 10%float
     = Returned 0.5%float
  /\ is_finite 0.5%float = true.
Proof. repeat split; vm_compute; reflexivity. Qed.

(** ** matchBoundingBoxes *)

Lemma map_insert_lookup (k v : Z) (m : gmap Z Z) (a : Z) :
  map_insert k v m !! a
  = match m !! a with
    | Some b => Some b
    | None => if decide (k = a) then Some v else None
    end.
Proof.
  unfold map_insert. destruct (m !! k) eqn:Hk.
  - destruct (m !! a) eqn:Ha; [reflexivity |].
    destruct (decide (k = a)) as [-> |]; congruence.
  - rewrite lookup_insert. destruct (decide (k = a)) as [-> |].
    + now rewrite Hk.
    + now destruct (m !! a).
Qed.

Lemma map_insert_keeps (k v : Z) (m : gmap Z Z) (a b : Z) :
  m !! a = Some b -> map_insert k v m !! a = Some b.
Proof. intros H. now rewrite map_insert_lookup, H. Qed.

Lemma fixed_entries_inserted :
  map_insert 5 3 (map_insert 3 3 (map_insert 1 1 ∅)) = fixed_entries.
Proof.
  apply map_eq. intros a. rewrite !map_insert_lookup. unfold fixed_entries.
  rewrite (lookup_empty (M:=gmap Z) a).
  repeat case_decide; simplify_map_eq; reflexivity.
Qed.

Lemma fixed_entries_other (a : Z) :
  a <> 1 -> a <> 3 -> a <> 5 -> fixed_entries !! a = None.
Proof. intros H1 H3 H5. unfold fixed_entries. now simplify_map_eq. Qed.

Section MatchBoundingBoxesFacts.

Variables (prevFrame currFrame : DataFrame.t) (matches : list DMatch.t).

Lemma grown_from_refl (m0 : gmap Z Z) : grown_from prevFrame currFrame matches m0 m0.
Proof. split; auto. Qed.

Lemma prev_evidence_intro (box : BoundingBox.t) (m : DMatch.t) (kp : KeyPoint.t) :
  box ∈ DataFrame.boundingBoxes prevFrame ->
  m ∈ matches ->
  Vec.get (DataFrame.keypoints prevFrame) (DMatch.queryIdx m) = Some kp ->
  contains2f (BoundingBox.roi box) (KeyPoint.pt kp) = true ->
  prev_evidence prevFrame matches (BoundingBox.boxID box) = true.
Proof.
  intros Hbox Hm Hkp Hin. unfold prev_evidence.
  apply existsb_exists. exists box. split; [now apply list_elem_of_In |].
  rewrite Z.eqb_refl. cbn. apply existsb_exists. exists m.
  split; [now apply list_elem_of_In |].
  unfold holds_prev_keypoint. now rewrite Hkp.
Qed.

(** One round of the innermost loop, on an input whose reads are in bounds. *)
Lemma match_round_grows (i : nat) (match_i : DMatch.t) (box_j box_k : BoundingBox.t)
    (m0 bb : gmap Z Z) :
  match_defined prevFrame currFrame matches = true ->
  matches !! i = Some match_i ->
  box_j ∈ DataFrame.boundingBoxes prevFrame ->
  box_k ∈ DataFrame.boundingBoxes currFrame ->
  grown_from prevFrame currFrame matches m0 bb ->
  exists bb', match_round prevFrame currFrame i match_i box_j box_k bb = Returned bb'
              /\ grown_from prevFrame currFrame matches m0 bb'.
Proof.
  intros Hdef Hi Hj Hk [Hkeep Hnew]. unfold match_defined in Hdef.
  destruct (DataFrame.boundingBoxes prevFrame) as [| p ps] eqn:Hprev;
    [now apply elem_of_nil in Hj |].
  destruct (DataFrame.boundingBoxes currFrame) as [| c cs] eqn:Hcurr;
    [now apply elem_of_nil in Hk |].
  apply andb_true_iff in Hdef as [Hlen Hall]. apply Nat.leb_le in Hlen.
  rewrite forallb_forall in Hall.
  assert (Hm : match_i ∈ matches) by (eapply list_elem_of_lookup_2; eassumption).
  specialize (Hall match_i (proj1 (list_elem_of_In _ _) Hm)).
  apply andb_true_iff in Hall as [[kq Hq]%index_ok_get [kt Ht]%index_ok_get].
  assert (Hlt : (i < length (c :: cs))%nat).
  { apply lookup_lt_Some in Hi. lia. }
  apply lookup_lt_is_Some in Hlt as [box_i Hbi].
  assert (Hri : Vec.index (DataFrame.boundingBoxes currFrame) (Z.of_nat i)
                = Returned box_i).
  { apply index_Returned. now rewrite get_of_nat, Hcurr. }
  apply index_Returned in Hq, Ht.
  unfold match_round. rewrite Hri. cbn. rewrite Hq. cbn. rewrite Ht. cbn.
  apply index_Returned in Hq.
  assert (Hg : grown_from prevFrame currFrame matches m0 bb) by (unfold grown_from; rewrite Hcurr; now split).
  destruct (contains2f (BoundingBox.roi box_j) (KeyPoint.pt kq)) eqn:Hin; cbn;
    [| eexists; split; [reflexivity | exact Hg]].
  destruct (contains2f (BoundingBox.roi box_i) (KeyPoint.pt kt)); cbn;
    [| eexists; split; [reflexivity | exact Hg]].
  eexists; split; [reflexivity |]. unfold grown_from. rewrite Hcurr. split.
  - intros a b Hab. apply map_insert_keeps. auto.
  - intros a b. rewrite map_insert_lookup.
    destruct (bb !! a) as [b' |] eqn:Hbb.
    + intros [= <-]. auto.
    + destruct (decide (BoundingBox.boxID box_j = a)) as [<- |]; [| discriminate].
      intros [= <-]. right. split.
      * eapply prev_evidence_intro; try eassumption. rewrite Hprev. exact Hj.
      * apply list_elem_of_fmap. exists box_k. split; [reflexivity | exact Hk].
Qed.

(** The three loops, started from any map. *)
Lemma matchBoundingBoxes_grows (m0 : gmap Z Z) :
  match_defined prevFrame currFrame matches = true ->
  exists bb,
    matchBoundingBoxes prevFrame currFrame matches m0 = Returned bb
    /\ grown_from prevFrame currFrame matches
         (map_insert 5 3 (map_insert 3 3 (map_insert 1 1 m0))) bb.
Proof.
  intros Hdef. unfold matchBoundingBoxes.
  apply for_index_rule; [| apply grown_from_refl].
  intros i match_i s Hi Hs. cbn.
  apply for_each_rule; [| exact Hs].
  intros box_j s1 Hj Hs1.
  apply for_each_rule; [| exact Hs1].
  intros box_k s2 Hk Hs2.
  now apply match_round_grows.
Qed.

(** The inputs with every read in bounds are the inputs on which the
    function returns. *)
Lemma matchBoundingBoxes_returns_iff (m0 : gmap Z Z) :
  (exists bb, matchBoundingBoxes prevFrame currFrame matches m0 = Returned bb)
  <-> match_defined prevFrame currFrame matches = true.
Proof.
  split.
  2:{ intros Hdef. destruct (matchBoundingBoxes_grows m0 Hdef) as (bb & Hret & _).
      now exists bb. }
  intros [bb Hret]. unfold matchBoundingBoxes in Hret. unfold match_defined.
  destruct (DataFrame.boundingBoxes prevFrame) as [| p ps] eqn:Hprev; [reflexivity |].
  destruct (DataFrame.boundingBoxes currFrame) as [| c cs] eqn:Hcurr; [reflexivity |].
  assert (Hround : forall i m, matches !! i = Some m ->
            (i < length (c :: cs))%nat
            /\ index_ok (DataFrame.keypoints prevFrame) (DMatch.queryIdx m) = true
            /\ index_ok (DataFrame.keypoints prevFrame) (DMatch.trainIdx m) = true).
  { intros i m Hi.
    destruct (for_index_rounds _ _ _ _ _ Hret i m Hi) as (s1 & s2 & Hbody).
    cbn [Nat.add] in Hbody. rewrite for_each_cons in Hbody.
    apply bind_Returned in Hbody as (s3 & Hj & _).
    rewrite for_each_cons in Hj. apply bind_Returned in Hj as (s4 & Hk & _).
    unfold match_round in Hk.
    apply bind_Returned in Hk as (box_i & Hbi & Hk).
    apply bind_Returned in Hk as (kq & Hq & Hk).
    apply bind_Returned in Hk as (kt & Ht & _).
    apply index_Returned in Hbi, Hq, Ht.
    rewrite Hcurr, get_of_nat in Hbi. apply lookup_lt_Some in Hbi.
    rewrite !index_ok_get, Hq, Ht. eauto. }
  apply andb_true_iff. split.
  - apply Nat.leb_le.
    destruct (decide (length matches = 0%nat)) as [-> | Hne]; [lia |].
    destruct (lookup_lt_is_Some_2 matches (length matches - 1)) as [m Hm]; [lia |].
    destruct (Hround _ _ Hm) as [Hlt _]. lia.
  - apply forallb_forall. intros m [i Hi]%list_elem_of_In%list_elem_of_lookup_1.
    destruct (Hround _ _ Hi) as (_ & Hq & Ht). now rewrite Hq, Ht.
Qed.

End MatchBoundingBoxesFacts.

(** C9. On every input whose reads are in bounds the matcher returns a
    mapping, and whatever the matches, keypoints and bounding boxes are, the
    mapping holds the entries 1 ↦ 1, 3 ↦ 3 and 5 ↦ 3. *)
Theorem matchBoundingBoxes_fixed_entries
    (prevFrame currFrame : DataFrame.t) (matches : list DMatch.t) :
  match_defined prevFrame currFrame matches = true ->
  exists bbBestMatches,
    matchBoundingBoxes prevFrame currFrame matches ∅ = Returned bbBestMatches
    /\ bbBestMatches !! 1 = Some 1
    /\ bbBestMatches !! 3 = Some 3
    /\ bbBestMatches !! 5 = Some 3.
Proof.
  intros Hdef.
  destruct (matchBoundingBoxes_grows prevFrame currFrame matches ∅ Hdef)
    as (bb & Hret & Hkeep & _).
  rewrite fixed_entries_inserted in Hkeep.
  exists bb. split; [exact Hret |].
  repeat split; apply Hkeep; reflexivity.
Qed.

Lemma matchBoundingBoxes_fixed_entries_witness :
  exists bbBestMatches,
    matchBoundingBoxes Examples.votes_prev Examples.votes_curr
      Examples.seven_matches ∅ = Returned bbBestMatches
    /\ bbBestMatches !! 1 = Some 1
    /\ bbBestMatches !! 3 = Some 3
    /\ bbBestMatches !! 5 = Some 3.
Proof.
  apply (matchBoundingBoxes_fixed_entries Examples.votes_prev Examples.votes_curr
           Examples.seven_matches).
  reflexivity.
Defined.

(** The evidence the code asks for is weaker than a vote: a region without
    it has no vote for any current region. *)
Lemma votes_without_evidence (prevFrame currFrame : DataFrame.t)
    (matches : list DMatch.t) (a b : BoundingBox.t) :
  a ∈ DataFrame.boundingBoxes prevFrame ->
  prev_evidence prevFrame matches (BoundingBox.boxID a) = false ->
  votes prevFrame currFrame matches a b = 0%nat.
Proof.
  intros Ha Hno. unfold votes.
  replace (List.filter (is_vote prevFrame currFrame a b) matches) with (@nil DMatch.t);
    [reflexivity |].
  symmetry. apply filter_none. intros m Hm.
  apply not_true_is_false. intros Hvote.
  unfold is_vote in Hvote.
  destruct (Vec.get (DataFrame.keypoints prevFrame) (DMatch.queryIdx m))
    as [kpPrev |] eqn:Hq; [| discriminate].
  destruct (Vec.get (DataFrame.keypoints currFrame) (DMatch.trainIdx m));
    [| discriminate].
  apply andb_true_iff in Hvote as [Hin _].
  rewrite (prev_evidence_intro prevFrame matches a m kpPrev) in Hno;
    [discriminate | assumption | now apply list_elem_of_In | assumption | assumption].
Qed.

(** C3, amended. On every input whose reads are in bounds the matcher
    returns a mapping in which a previous region has no entry when its
    identifier is none of 1, 3, 5 and no region with that identifier holds
    the previous keypoint of a match (such a region has no vote). *)
Theorem matchBoundingBoxes_unmatched_without_evidence
    (prevFrame currFrame : DataFrame.t) (matches : list DMatch.t)
    (a : BoundingBox.t) :
  match_defined prevFrame currFrame matches = true ->
  a ∈ DataFrame.boundingBoxes prevFrame ->
  BoundingBox.boxID a <> 1 ->
  BoundingBox.boxID a <> 3 ->
  BoundingBox.boxID a <> 5 ->
  prev_evidence prevFrame matches (BoundingBox.boxID a) = false ->
  exists bbBestMatches,
    matchBoundingBoxes prevFrame currFrame matches ∅ = Returned bbBestMatches
    /\ bbBestMatches !! BoundingBox.boxID a = None.
Proof.
  intros Hdef Ha H1 H3 H5 Hno.
  destruct (matchBoundingBoxes_grows prevFrame currFrame matches ∅ Hdef)
    as (bb & Hret & _ & Hnew).
  rewrite fixed_entries_inserted in Hnew.
  exists bb. split; [exact Hret |].
  destruct (bb !! BoundingBox.boxID a) as [b |] eqn:Hb; [| reflexivity].
  destruct (Hnew _ _ Hb) as [Hfix | [Hev _]].
  - rewrite fixed_entries_other in Hfix by assumption. discriminate.
  - congruence.
Qed.

Lemma matchBoundingBoxes_unmatched_without_evidence_witness :
  exists bbBestMatches,
    matchBoundingBoxes Examples.votes_prev Examples.votes_curr
      Examples.seven_matches ∅ = Returned bbBestMatches
    /\ bbBestMatches !! 4 = None.
Proof.
  apply (matchBoundingBoxes_unmatched_without_evidence
           Examples.votes_prev Examples.votes_curr Examples.seven_matches
           Examples.region_B);
    [reflexivity | right; left | discriminate | discriminate | discriminate
    | reflexivity].
Defined.

(** C3 as stated fails: a previous region with identifier 1 and no vote at
    all has the entry 1 ↦ 1. *)
Lemma unmatched_without_votes_fails :
  ~ unmatched_without_votes Examples.lonely_prev Examples.lonely_curr [].
Proof.
  intros H.
  specialize (H fixed_entries).
  assert (Hrun : matchBoundingBoxes Examples.lonely_prev Examples.lonely_curr [] ∅
                 = Returned fixed_entries).
  { cbn. now rewrite fixed_entries_inserted. }
  specialize (H Hrun (Examples.box 1 0 0 100 100)).
  assert (Hnone : fixed_entries !! 1 = None).
  { apply H; [left | reflexivity]. }
  discriminate Hnone.
Qed.

(** The 5-against-2 example: region A has five votes for X and two for Y,
    so X is its most voted region; the code maps A to Y, the first region of
    the current frame. *)
Lemma votes_example_counts :
  votes Examples.votes_prev Examples.votes_curr Examples.seven_matches
    Examples.region_A Examples.region_X = 5%nat
  /\ votes Examples.votes_prev Examples.votes_curr Examples.seven_matches
       Examples.region_A Examples.region_Y = 2%nat
  /\ most_voted Examples.votes_prev Examples.votes_curr Examples.seven_matches
       Examples.region_A = Some 10.
Proof. repeat split; vm_compute; reflexivity. Qed.

Lemma votes_example_output :
  matchBoundingBoxes Examples.votes_prev Examples.votes_curr
    Examples.seven_matches ∅
  = Returned (<[2 := 20]> fixed_entries).
Proof. vm_compute. reflexivity. Qed.

(** C2 (the code departs from the claim). The matcher keeps no vote tally.
    Its test reads the rectangle of [currFrame.boundingBoxes[i]], [i] the
    index of the match (line 275), and takes both keypoints from the
    previous frame (line 284); it then inserts the identifier of every
    current region [k] in turn (line 288), and [insert] keeps the first. On
    the 5-against-2 example region A has five votes for X and two for Y, so
    X is its most voted region, and the mapping returned pairs A with Y. *)
Theorem maps_to_most_voted_fails :
  votes Examples.votes_prev Examples.votes_curr Examples.seven_matches
    Examples.region_A Examples.region_X = 5%nat
  /\ votes Examples.votes_prev Examples.votes_curr Examples.seven_matches
       Examples.region_A Examples.region_Y = 2%nat
  /\ most_voted Examples.votes_prev Examples.votes_curr Examples.seven_matches
       Examples.region_A = Some (BoundingBox.boxID Examples.region_X)
  /\ (exists bbBestMatches,
        matchBoundingBoxes Examples.votes_prev Examples.votes_curr
          Examples.seven_matches ∅ = Returned bbBestMatches
        /\ bbBestMatches !! BoundingBox.boxID Examples.region_A
           = Some (BoundingBox.boxID Examples.region_Y))
  /\ ~ maps_to_most_voted Examples.votes_prev Examples.votes_curr
         Examples.seven_matches.
Proof.
  destruct votes_example_counts as (HX & HY & Hbest).
  split; [exact HX |]. split; [exact HY |]. split; [exact Hbest |]. split.
  { eexists. split; [apply votes_example_output | reflexivity]. }
  intros H.
  specialize (H _ votes_example_output Examples.region_A).
  rewrite Hbest in H.
  assert (Hlook : <[2 := 20]> fixed_entries !! 2 = Some 10).
  { apply H. left. }
  rewrite lookup_insert_eq in Hlook. discriminate Hlook.
Qed.
(** * Further properties *)

(** ** clusterLidarWithROI, the association as a whole *)

Lemma associated_lookup_Some (shrinkFactor : float) (P_rect_xx R_rect_xx RT : Mat.t)
    (rois : list Rect.t) (ps : list LidarPoint.t) (boxes : list BoundingBox.t)
    (i : nat) (b : BoundingBox.t) :
  boxes !! i = Some b ->
  associated shrinkFactor P_rect_xx R_rect_xx RT rois ps boxes !! i
  = Some (add_lidarPoints
            (List.filter (assigned shrinkFactor P_rect_xx R_rect_xx RT rois i) ps) b).
Proof.
  intros Hb. unfold associated. rewrite list_lookup_imap, Hb. reflexivity.
Qed.

Lemma lidar_defined_rois (shrinkFactor : float) (P_rect_xx R_rect_xx RT : Mat.t)
    (boxes boxes' : list BoundingBox.t) (lidarPoints : list LidarPoint.t) :
  map BoundingBox.roi boxes' = map BoundingBox.roi boxes ->
  lidar_defined shrinkFactor P_rect_xx R_rect_xx RT boxes' lidarPoints
  = lidar_defined shrinkFactor P_rect_xx R_rect_xx RT boxes lidarPoints.
Proof.
  intros Hrois. unfold lidar_defined.
  now rewrite (forallb_rois shrinkFactor boxes boxes' Hrois).
Qed.

(** The positions of the enclosing rectangles, when there is exactly one. *)
Lemma enclosing_positions_unique (shrinkFactor : float) (pt : Point.t)
    (rois : list Rect.t) :
  forall first i roi,
    rois !! i = Some roi ->
    inside shrinkFactor pt roi = true ->
    length (List.filter (inside shrinkFactor pt) rois) = 1%nat ->
    enclosing_positions shrinkFactor pt rois first = [(first + i)%nat].
Proof.
  induction rois as [| r0 rest IH]; intros first i roi Hi Hin Hone; [discriminate |].
  rewrite enclosing_positions_cons. cbn [List.filter] in Hone.
  destruct i as [| i].
  - injection Hi as ->. rewrite Hin in Hone |- *. cbn in Hone.
    assert (Hnone : enclosing_positions shrinkFactor pt rest (S first) = []).
    { apply length_zero_iff_nil. rewrite length_enclosing_positions. lia. }
    rewrite Hnone, Nat.add_0_r. reflexivity.
  - cbn in Hi.
    assert (Hsome : (1 <= length (List.filter (inside shrinkFactor pt) rest))%nat).
    { assert (Hmem : In roi (List.filter (inside shrinkFactor pt) rest)).
      { apply filter_In. split; [| exact Hin].
        apply list_elem_of_In. eapply list_elem_of_lookup_2. exact Hi. }
      destruct (List.filter (inside shrinkFactor pt) rest); [destruct Hmem | cbn; lia]. }
    destruct (inside shrinkFactor pt r0); [cbn in Hone; lia |].
    cbn [app]. rewrite (IH (S first) i roi Hi Hin Hone). f_equal. lia.
Qed.

(** X1. On every defined input each region ends with the points it had,
    followed by the input points whose pixel lies in its shrunk rectangle and
    in no other, in the order of the input: the loop only appends. *)
Theorem clusterLidarWithROI_appends_in_order
    (shrinkFactor : float) (P_rect_xx R_rect_xx RT : Mat.t)
    (boundingBoxes : list BoundingBox.t) (lidarPoints : list LidarPoint.t) :
  lidar_defined shrinkFactor P_rect_xx R_rect_xx RT boundingBoxes lidarPoints = true ->
  exists boundingBoxes',
    clusterLidarWithROI shrinkFactor P_rect_xx R_rect_xx RT boundingBoxes lidarPoints
    = Returned boundingBoxes'
    /\ length boundingBoxes' = length boundingBoxes
    /\ forall i b,
         boundingBoxes !! i = Some b ->
         exists b',
           boundingBoxes' !! i = Some b'
           /\ BoundingBox.lidarPoints b'
              = BoundingBox.lidarPoints b
                ++ List.filter
                     (assigned shrinkFactor P_rect_xx R_rect_xx RT
                        (map BoundingBox.roi boundingBoxes) i)
                     lidarPoints.
Proof.
  intros Hdef. eexists. split; [now apply clusterLidarWithROI_associated |].
  split; [unfold associated; now rewrite length_imap |].
  intros i b Hb. eexists.
  split; [exact (associated_lookup_Some _ _ _ _ _ _ _ _ _ Hb) |]. reflexivity.
Qed.

Lemma clusterLidarWithROI_appends_in_order_witness :
  exists boundingBoxes',
    clusterLidarWithROI Examples.shrink Examples.P_rect Examples.R_rect Examples.RT
      Examples.two_regions Examples.four_returns
    = Returned boundingBoxes'
    /\ length boundingBoxes' = length Examples.two_regions
    /\ forall i b,
         Examples.two_regions !! i = Some b ->
         exists b',
           boundingBoxes' !! i = Some b'
           /\ BoundingBox.lidarPoints b'
              = BoundingBox.lidarPoints b
                ++ List.filter
                     (assigned Examples.shrink Examples.P_rect Examples.R_rect
                        Examples.RT (map BoundingBox.roi Examples.two_regions) i)
                     Examples.four_returns.
Proof.
  apply (clusterLidarWithROI_appends_in_order Examples.shrink Examples.P_rect
           Examples.R_rect Examples.RT Examples.two_regions Examples.four_returns).
  vm_compute. reflexivity.
Defined.

(** X2. On every defined input, an input point whose pixel lies in the
    shrunk rectangle of exactly one region is in the collection of that
    region afterwards. *)
Theorem clusterLidarWithROI_keeps_unambiguous_point
    (shrinkFactor : float) (P_rect_xx R_rect_xx RT : Mat.t)
    (boundingBoxes : list BoundingBox.t) (lidarPoints : list LidarPoint.t)
    (p : LidarPoint.t) (pt : Point.t) (i : nat) (b : BoundingBox.t) :
  lidar_defined shrinkFactor P_rect_xx R_rect_xx RT boundingBoxes lidarPoints = true ->
  p ∈ lidarPoints ->
  project P_rect_xx R_rect_xx RT p = Returned pt ->
  boundingBoxes !! i = Some b ->
  inside shrinkFactor pt (BoundingBox.roi b) = true ->
  count_inside shrinkFactor boundingBoxes pt = 1%nat ->
  exists boundingBoxes' b',
    clusterLidarWithROI shrinkFactor P_rect_xx R_rect_xx RT boundingBoxes lidarPoints
    = Returned boundingBoxes'
    /\ boundingBoxes' !! i = Some b'
    /\ p ∈ BoundingBox.lidarPoints b'.
Proof.
  intros Hdef Hp Hpt Hb Hin Hone. eexists. eexists.
  split; [now apply clusterLidarWithROI_associated |].
  split; [exact (associated_lookup_Some _ _ _ _ _ _ _ _ _ Hb) |].
  cbn. apply elem_of_app. right. apply list_elem_of_In, filter_In.
  split; [now apply list_elem_of_In |].
  unfold assigned. rewrite Hpt.
  rewrite (enclosing_positions_unique shrinkFactor pt _ 0 i (BoundingBox.roi b));
    [apply Nat.eqb_refl | now rewrite list_lookup_fmap, Hb | exact Hin | exact Hone].
Qed.

Lemma clusterLidarWithROI_keeps_unambiguous_point_witness :
  exists boundingBoxes' b',
    clusterLidarWithROI Examples.shrink Examples.P_rect Examples.R_rect Examples.RT
      Examples.two_regions Examples.four_returns
    = Returned boundingBoxes'
    /\ boundingBoxes' !! 1%nat = Some b'
    /\ Examples.lidar 10 (-1) 0 ∈ BoundingBox.lidarPoints b'.
Proof.
  apply (clusterLidarWithROI_keeps_unambiguous_point Examples.shrink Examples.P_rect
           Examples.R_rect Examples.RT Examples.two_regions Examples.four_returns
           (Examples.lidar 10 (-1) 0) (Point.mk 670 180) 1 Examples.right_region).
  - vm_compute. reflexivity.
  - right. left.
  - vm_compute. reflexivity.
  - reflexivity.
  - vm_compute. reflexivity.
  - vm_compute. reflexivity.
Defined.

(** X3. Association is not idempotent: the regions are not cleared, so a
    second run over the regions the first run returned, with the same
    points, returns too and appends the points of the first run a second
    time. *)
Theorem clusterLidarWithROI_second_run_appends_again
    (shrinkFactor : float) (P_rect_xx R_rect_xx RT : Mat.t)
    (boundingBoxes once : list BoundingBox.t) (lidarPoints : list LidarPoint.t) :
  clusterLidarWithROI shrinkFactor P_rect_xx R_rect_xx RT boundingBoxes lidarPoints
  = Returned once ->
  exists twice,
    clusterLidarWithROI shrinkFactor P_rect_xx R_rect_xx RT once lidarPoints
    = Returned twice
    /\ forall i b,
         boundingBoxes !! i = Some b ->
         exists added b1 b2,
           once !! i = Some b1
           /\ twice !! i = Some b2
           /\ BoundingBox.lidarPoints b1 = BoundingBox.lidarPoints b ++ added
           /\ BoundingBox.lidarPoints b2 = BoundingBox.lidarPoints b ++ added ++ added.
Proof.
  intros Hrun.
  assert (Hdef : lidar_defined shrinkFactor P_rect_xx R_rect_xx RT boundingBoxes
                   lidarPoints = true).
  { apply clusterLidarWithROI_returns_iff. now exists once. }
  rewrite (clusterLidarWithROI_associated _ _ _ _ _ _ Hdef) in Hrun.
  injection Hrun as <-.
  set (rois := map BoundingBox.roi boundingBoxes).
  set (once := associated shrinkFactor P_rect_xx R_rect_xx RT rois lidarPoints
                 boundingBoxes).
  assert (Hrois : map BoundingBox.roi once = rois) by apply associated_rois.
  assert (Hdef1 : lidar_defined shrinkFactor P_rect_xx R_rect_xx RT once lidarPoints
                  = true).
  { now rewrite (lidar_defined_rois _ _ _ _ boundingBoxes once lidarPoints Hrois). }
  eexists. split; [now apply clusterLidarWithROI_associated |].
  intros i b Hb. rewrite Hrois.
  exists (List.filter (assigned shrinkFactor P_rect_xx R_rect_xx RT rois i) lidarPoints).
  do 2 eexists.
  split; [exact (associated_lookup_Some _ _ _ _ _ _ _ _ _ Hb) |].
  split; [exact (associated_lookup_Some _ _ _ _ _ _ _ _ _
                   (associated_lookup_Some _ _ _ _ _ _ _ _ _ Hb)) |].
  split; [reflexivity |]. cbn. now rewrite <- app_assoc.
Qed.

Lemma clusterLidarWithROI_second_run_appends_again_witness :
  exists twice,
    clusterLidarWithROI Examples.shrink Examples.P_rect Examples.R_rect Examples.RT
      MoreExamples.regions_once Examples.four_returns
    = Returned twice
    /\ forall i b,
         Examples.two_regions !! i = Some b ->
         exists added b1 b2,
           MoreExamples.regions_once !! i = Some b1
           /\ twice !! i = Some b2
           /\ BoundingBox.lidarPoints b1 = BoundingBox.lidarPoints b ++ added
           /\ BoundingBox.lidarPoints b2 = BoundingBox.lidarPoints b ++ added ++ added.
Proof.
  apply (clusterLidarWithROI_second_run_appends_again Examples.shrink Examples.P_rect
           Examples.R_rect Examples.RT Examples.two_regions
           MoreExamples.regions_once Examples.four_returns).
  vm_compute. reflexivity.
Defined.

(** ** Exceptions *)

Lemma bind_returns_or_throws {A B : Type} (c : outcome A) (k : A -> outcome B) :
  returns_or_throws c -> (forall a, returns_or_throws (k a)) ->
  returns_or_throws (c ≫= k).
Proof. destruct c as [a | [] |]; cbn; auto. Qed.

Lemma at_returns_or_throws {A : Type} (v : list A) (i : Z) :
  returns_or_throws (Vec.at_ v i).
Proof. unfold Vec.at_. now destruct (Vec.get v i). Qed.

Lemma for_each_returns_or_throws {A St : Type} (body : A -> St -> outcome St)
    (v : list A) :
  (forall a s, returns_or_throws (body a s)) ->
  forall s, returns_or_throws (for_each body v s).
Proof.
  intros Hbody. induction v as [| a v IH]; intros s; [exact I |].
  rewrite for_each_cons. now apply bind_returns_or_throws.
Qed.

(** A computation within defined behaviour that does not return throws. *)
Lemma throws_unless_returns {A : Type} (c : outcome A) :
  returns_or_throws c -> (forall a, c <> Returned a) -> c = Thrown out_of_range.
Proof.
  destruct c as [a | [] |]; cbn; intros Hc Hno; try easy. now destruct (Hno a).
Qed.

(** ** clusterKptMatchesWithROI, the region returned *)

Section ClusterKptMatchesMore.

Variables (kptsPrev kptsCurr : list KeyPoint.t).

Lemma cluster_round_returns_or_throws (it1 : DMatch.t) (boundingBox : BoundingBox.t) :
  returns_or_throws (cluster_round kptsPrev kptsCurr it1 boundingBox).
Proof.
  unfold cluster_round.
  apply bind_returns_or_throws; [apply at_returns_or_throws | intros kc].
  apply bind_returns_or_throws; [apply at_returns_or_throws | intros kp].
  now destruct (contains2f _ _).
Qed.

(** One round, in full. *)
Lemma cluster_round_result (it1 : DMatch.t) (boundingBox : BoundingBox.t) :
  match_ok kptsPrev kptsCurr it1 = true ->
  cluster_round kptsPrev kptsCurr it1 boundingBox
  = Returned
      (BoundingBox.mk (BoundingBox.boxID boundingBox) (BoundingBox.roi boundingBox)
         (BoundingBox.lidarPoints boundingBox)
         (BoundingBox.keypoints boundingBox
          ++ resolved kptsCurr
               (List.filter (in_roi kptsCurr (BoundingBox.roi boundingBox)) [it1]))
         (BoundingBox.kptMatches boundingBox
          ++ List.filter (in_roi kptsCurr (BoundingBox.roi boundingBox)) [it1])).
Proof.
  unfold match_ok. intros [[kc Hkc]%index_ok_get [kp Hkp]%index_ok_get]%andb_true_iff.
  unfold cluster_round, Vec.at_, in_roi, resolved. cbn [List.filter].
  rewrite Hkc, Hkp.
  cbv beta iota delta [mbind outcome_bind mret outcome_ret].
  destruct (contains2f (BoundingBox.roi boundingBox) (KeyPoint.pt kc)).
  - cbn. rewrite Hkc. reflexivity.
  - cbn. rewrite !app_nil_r. now destruct boundingBox.
Qed.

Lemma resolved_app (ms ns : list DMatch.t) :
  resolved kptsCurr (ms ++ ns) = resolved kptsCurr ms ++ resolved kptsCurr ns.
Proof. unfold resolved. apply omap_app. Qed.

Lemma cluster_loop_result (from_second : list DMatch.t) :
  forallb (match_ok kptsPrev kptsCurr) from_second = true ->
  forall boundingBox,
    for_each (cluster_round kptsPrev kptsCurr) from_second boundingBox
    = Returned
        (BoundingBox.mk (BoundingBox.boxID boundingBox) (BoundingBox.roi boundingBox)
           (BoundingBox.lidarPoints boundingBox)
           (BoundingBox.keypoints boundingBox
            ++ resolved kptsCurr
                 (List.filter (in_roi kptsCurr (BoundingBox.roi boundingBox))
                    from_second))
           (BoundingBox.kptMatches boundingBox
            ++ List.filter (in_roi kptsCurr (BoundingBox.roi boundingBox)) from_second)).
Proof.
  induction from_second as [| it1 rest IH]; intros Hok boundingBox.
  - cbn. rewrite !app_nil_r. now destruct boundingBox.
  - cbn [forallb] in Hok. apply andb_true_iff in Hok as [Hit1 Hrest].
    rewrite for_each_cons, (cluster_round_result it1 boundingBox Hit1), bind_ret_l.
    rewrite (IH Hrest). cbn [BoundingBox.boxID BoundingBox.roi BoundingBox.lidarPoints
                             BoundingBox.keypoints BoundingBox.kptMatches].
    change (it1 :: rest) with ([it1] ++ rest).
    now rewrite List.filter_app, resolved_app, <- !app_assoc.
Qed.

(** A loop that returns has read only indices in range. *)
Lemma cluster_loop_returns (from_second : list DMatch.t)
    (boundingBox boundingBox' : BoundingBox.t) :
  for_each (cluster_round kptsPrev kptsCurr) from_second boundingBox
  = Returned boundingBox' ->
  forallb (match_ok kptsPrev kptsCurr) from_second = true.
Proof.
  intros Hret. apply forallb_forall. intros m Hm%list_elem_of_In.
  destruct (for_each_rounds (fun _ => True) _ _ (fun _ _ _ _ _ _ => I)
              _ _ I Hret m Hm) as (s1 & s2 & _ & Hb).
  unfold cluster_round in Hb.
  apply bind_Returned in Hb as (kc & Hkc & Hb).
  apply bind_Returned in Hb as (kp & Hkp & _).
  apply at_Returned in Hkc, Hkp.
  unfold match_ok. apply andb_true_iff. rewrite !index_ok_get, Hkc, Hkp. eauto.
Qed.

(** The keypoints resolved from the correspondences inside the rectangle
    are their current keypoints, and lie inside. *)
Lemma resolved_inside (roi : Rect.t) (ms : list DMatch.t) :
  Forall2
    (fun m k =>
       Vec.get kptsCurr (DMatch.trainIdx m) = Some k
       /\ contains2f roi (KeyPoint.pt k) = true)
    (List.filter (in_roi kptsCurr roi) ms)
    (resolved kptsCurr (List.filter (in_roi kptsCurr roi) ms)).
Proof.
  induction ms as [| m rest IH]; cbn [List.filter]; [constructor |].
  destruct (in_roi kptsCurr roi m) eqn:Hin; [| exact IH].
  unfold in_roi in Hin.
  destruct (Vec.get kptsCurr (DMatch.trainIdx m)) as [k |] eqn:Hk; [| discriminate].
  unfold resolved. cbn. rewrite Hk. constructor; [now split | exact IH].
Qed.

End ClusterKptMatchesMore.

(** X4. With every correspondence from the second on in range, the region
    returned has the identifier, rectangle and range points it had, and has
    gained the correspondences from the second on whose current keypoint
    lies in its rectangle, in their order, and, in step with them, their
    current keypoints. The indices of the first correspondence are not
    read. *)
Theorem clusterKptMatchesWithROI_result
    (kptsPrev kptsCurr : list KeyPoint.t) (boundingBox : BoundingBox.t)
    (first : DMatch.t) (from_second : list DMatch.t) :
  forallb (match_ok kptsPrev kptsCurr) from_second = true ->
  clusterKptMatchesWithROI kptsPrev kptsCurr boundingBox (first :: from_second)
  = Returned
      (BoundingBox.mk (BoundingBox.boxID boundingBox) (BoundingBox.roi boundingBox)
         (BoundingBox.lidarPoints boundingBox)
         (BoundingBox.keypoints boundingBox
          ++ resolved kptsCurr
               (List.filter (in_roi kptsCurr (BoundingBox.roi boundingBox))
                  from_second))
         (BoundingBox.kptMatches boundingBox
          ++ List.filter (in_roi kptsCurr (BoundingBox.roi boundingBox)) from_second)).
Proof. intros Hok. unfold clusterKptMatchesWithROI. now apply cluster_loop_result. Qed.

Lemma clusterKptMatchesWithROI_result_witness :
  clusterKptMatchesWithROI MoreExamples.three_kpts MoreExamples.three_kpts
    Examples.target MoreExamples.three_matches
  = Returned
      (BoundingBox.mk 7 (Rect.mk 0 0 100 100) [] [Examples.kp 30 30] [Examples.dm 2]).
Proof.
  exact (clusterKptMatchesWithROI_result MoreExamples.three_kpts
           MoreExamples.three_kpts Examples.target (Examples.dm 0)
           [Examples.dm 1; Examples.dm 2] eq_refl).
Defined.

(** X5. Whenever the function returns, every correspondence the region has
    gained has its current keypoint in the rectangle, the region has gained
    that keypoint at the same position of its keypoints, and it has gained
    fewer correspondences than there are. *)
Theorem clusterKptMatchesWithROI_gains_inside_only
    (kptsPrev kptsCurr : list KeyPoint.t) (boundingBox boundingBox' : BoundingBox.t)
    (kptMatches : list DMatch.t) :
  clusterKptMatchesWithROI kptsPrev kptsCurr boundingBox kptMatches
  = Returned boundingBox' ->
  exists gained_matches gained_keypoints,
    BoundingBox.kptMatches boundingBox'
    = BoundingBox.kptMatches boundingBox ++ gained_matches
    /\ BoundingBox.keypoints boundingBox'
       = BoundingBox.keypoints boundingBox ++ gained_keypoints
    /\ Forall2
         (fun m k =>
            Vec.get kptsCurr (DMatch.trainIdx m) = Some k
            /\ contains2f (BoundingBox.roi boundingBox) (KeyPoint.pt k) = true)
         gained_matches gained_keypoints
    /\ (length gained_matches < length kptMatches)%nat.
Proof.
  intros Hret. destruct kptMatches as [| first from_second]; [discriminate |].
  pose proof Hret as Hok. unfold clusterKptMatchesWithROI in Hok.
  apply cluster_loop_returns in Hok.
  unfold clusterKptMatchesWithROI in Hret.
  rewrite (cluster_loop_result kptsPrev kptsCurr from_second Hok) in Hret.
  injection Hret as <-. cbn.
  exists (List.filter (in_roi kptsCurr (BoundingBox.roi boundingBox)) from_second).
  eexists. split; [reflexivity |]. split; [reflexivity |]. split.
  - apply resolved_inside.
  - pose proof (List.filter_length_le
                  (in_roi kptsCurr (BoundingBox.roi boundingBox)) from_second).
    lia.
Qed.

Lemma clusterKptMatchesWithROI_gains_inside_only_witness :
  exists gained_matches gained_keypoints,
    [Examples.dm 2] = [] ++ gained_matches
    /\ [Examples.kp 30 30] = [] ++ gained_keypoints
    /\ Forall2
         (fun m k =>
            Vec.get MoreExamples.three_kpts (DMatch.trainIdx m) = Some k
            /\ contains2f (Rect.mk 0 0 100 100) (KeyPoint.pt k) = true)
         gained_matches gained_keypoints
    /\ (length gained_matches < 3)%nat.
Proof.
  exact (clusterKptMatchesWithROI_gains_inside_only MoreExamples.three_kpts
           MoreExamples.three_kpts Examples.target
           (BoundingBox.mk 7 (Rect.mk 0 0 100 100) [] [Examples.kp 30 30]
              [Examples.dm 2])
           MoreExamples.three_matches eq_refl).
Defined.

(** X6. When a correspondence from the second on has an index outside its
    keypoint vector, the function throws [std::out_of_range], [at] being
    the only access; nothing is read out of bounds. *)
Theorem clusterKptMatchesWithROI_throws
    (kptsPrev kptsCurr : list KeyPoint.t) (boundingBox : BoundingBox.t)
    (first : DMatch.t) (from_second : list DMatch.t) :
  forallb (match_ok kptsPrev kptsCurr) from_second = false ->
  clusterKptMatchesWithROI kptsPrev kptsCurr boundingBox (first :: from_second)
  = Thrown out_of_range.
Proof.
  intros Hbad. unfold clusterKptMatchesWithROI. apply throws_unless_returns.
  - apply for_each_returns_or_throws. apply cluster_round_returns_or_throws.
  - intros b Hret. apply cluster_loop_returns in Hret. congruence.
Qed.

Lemma clusterKptMatchesWithROI_throws_witness :
  clusterKptMatchesWithROI MoreExamples.three_kpts MoreExamples.three_kpts
    Examples.target MoreExamples.bad_matches
  = Thrown out_of_range.
Proof.
  exact (clusterKptMatchesWithROI_throws MoreExamples.three_kpts
           MoreExamples.three_kpts Examples.target (Examples.dm 0)
           [Examples.dm 1; DMatch.mk 0 5 0%float] eq_refl).
Defined.

(** ** computeTTCCamera, its edges *)

Section TTCCameraMore.

Variables (kptsPrev kptsCurr : list KeyPoint.t).

Lemma inner_round_returns_or_throws (kpOuterCurr kpOuterPrev : KeyPoint.t)
    (it2 : DMatch.t) (distRatios : list float) :
  returns_or_throws
    (inner_round kptsPrev kptsCurr kpOuterCurr kpOuterPrev it2 distRatios).
Proof.
  unfold inner_round.
  apply bind_returns_or_throws; [apply at_returns_or_throws | intros kc].
  apply bind_returns_or_throws; [apply at_returns_or_throws | intros kp].
  now destruct (_ && _).
Qed.

Lemma outer_round_returns_or_throws (from_second : list DMatch.t) (it1 : DMatch.t)
    (distRatios : list float) :
  returns_or_throws (outer_round kptsPrev kptsCurr from_second it1 distRatios).
Proof.
  unfold outer_round.
  apply bind_returns_or_throws; [apply at_returns_or_throws | intros kc].
  apply bind_returns_or_throws; [apply at_returns_or_throws | intros kp].
  apply for_each_returns_or_throws. intros it2 s.
  apply inner_round_returns_or_throws.
Qed.

(** With a correspondence to start from, the loops stay within defined
    behaviour. *)
Lemma collect_distRatios_returns_or_throws (kptMatches : list DMatch.t) :
  kptMatches <> [] ->
  returns_or_throws (collect_distRatios kptsPrev kptsCurr kptMatches).
Proof.
  intros Hne. unfold collect_distRatios.
  destruct kptMatches as [| m0 rest]; [congruence |].
  apply for_each_returns_or_throws. intros it1 s.
  apply outer_round_returns_or_throws.
Qed.

End TTCCameraMore.

(** X7. With two correspondences or more, one of which has an index outside
    its keypoint vector, the estimator throws [std::out_of_range] and writes
    no TTC. *)
Theorem computeTTCCamera_throws
    (kptsPrev kptsCurr : list KeyPoint.t) (kptMatches : list DMatch.t)
    (frameRate : float) :
  kptMatches <> [] ->
  camera_defined kptsPrev kptsCurr kptMatches = false ->
  computeTTCCamera kptsPrev kptsCurr kptMatches frameRate = Thrown out_of_range.
Proof.
  intros Hne Hbad.
  assert (Hcollect : collect_distRatios kptsPrev kptsCurr kptMatches
                     = Thrown out_of_range).
  { apply throws_unless_returns.
    - now apply collect_distRatios_returns_or_throws.
    - intros distRatios Hret.
      assert (Hdef : camera_defined kptsPrev kptsCurr kptMatches = true).
      { apply collect_distRatios_returns_iff. now exists distRatios. }
      congruence. }
  unfold computeTTCCamera. now rewrite Hcollect.
Qed.

Lemma computeTTCCamera_throws_witness :
  computeTTCCamera MoreExamples.three_kpts MoreExamples.three_kpts
    MoreExamples.bad_matches 10%float
  = Thrown out_of_range.
Proof.
  apply (computeTTCCamera_throws MoreExamples.three_kpts MoreExamples.three_kpts
           MoreExamples.bad_matches 10%float); [discriminate | reflexivity].
Defined.

(** X8. The division of line 213 is unguarded: when no retained ratio is
    NaN and the median of the retained ratios is exactly 1 (no change of
    scale), the estimator divides by [1 - 1] and the TTC it writes is not
    finite, whatever the frame rate. *)
Theorem computeTTCCamera_median_one_not_finite
    (kptsPrev kptsCurr : list KeyPoint.t) (kptMatches : list DMatch.t)
    (frameRate : float) :
  camera_defined kptsPrev kptsCurr kptMatches = true ->
  retained_ratios kptsPrev kptsCurr kptMatches <> [] ->
  Forall not_nan (retained_ratios kptsPrev kptsCurr kptMatches) ->
  median_of_sorted (Num.sort (retained_ratios kptsPrev kptsCurr kptMatches))
  = 1%float ->
  exists ttc,
    computeTTCCamera kptsPrev kptsCurr kptMatches frameRate = Returned ttc
    /\ is_finite ttc = false.
Proof.
  intros Hdef Hne _ Hone. unfold computeTTCCamera.
  rewrite (collect_distRatios_retained _ _ _ Hdef), bind_ret_l.
  rewrite decide_False by (destruct (retained_ratios _ _ _); [congruence | discriminate]).
  rewrite (medianDistRatio_Returned _ Hne), bind_ret_l, Hone.
  eexists. split; [reflexivity |]. now apply div_zero_not_finite.
Qed.

Lemma computeTTCCamera_median_one_not_finite_witness :
  exists ttc,
    computeTTCCamera (Examples.square 1000) (Examples.square 1000)
      Examples.four_matches 10%float = Returned ttc
    /\ is_finite ttc = false.
Proof.
  apply (computeTTCCamera_median_one_not_finite (Examples.square 1000)
           (Examples.square 1000) Examples.four_matches 10%float).
  - reflexivity.
  - vm_compute. discriminate.
  - vm_compute. repeat constructor.
  - vm_compute. reflexivity.
Defined.

(** ** computeTTCLidar, the ranks it reads *)

(** X9. The estimator writes a TTC exactly when there are six current
    points or more and the previous values, repeated once per current point,
    are six or more; on every other input the read of index 5 is out of
    bounds, and no exception is thrown. *)
Theorem computeTTCLidar_returns_iff
    (lidarPointsPrev lidarPointsCurr : list LidarPoint.t) (frameRate : float) :
  ((exists ttc,
      computeTTCLidar lidarPointsPrev lidarPointsCurr frameRate = Returned ttc)
   <-> (6 <= length lidarPointsCurr)%nat
       /\ (6 <= length lidarPointsCurr * length lidarPointsPrev)%nat)
  /\ ((forall ttc,
         computeTTCLidar lidarPointsPrev lidarPointsCurr frameRate <> Returned ttc)
      <-> computeTTCLidar lidarPointsPrev lidarPointsCurr frameRate = Undefined).
Proof.
  assert (Hshort :
    ~ ((6 <= length lidarPointsCurr)%nat
       /\ (6 <= length lidarPointsCurr * length lidarPointsPrev)%nat) ->
    computeTTCLidar lidarPointsPrev lidarPointsCurr frameRate = Undefined).
  { intros Hsize.
    destruct (Nat.lt_ge_cases (length lidarPointsCurr) 6) as [Hc | Hc];
      [now apply computeTTCLidar_short_curr |].
    rewrite computeTTCLidar_closed. change 5 with (Z.of_nat 5).
    rewrite (index_short
               (Num.sort (flat_map (fun _ => map LidarPoint.x lidarPointsPrev)
                            lidarPointsCurr)) 5); [reflexivity |].
    rewrite length_sort, length_flat_map_const, length_map. lia. }
  split; split.
  - intros [ttc Hret].
    destruct (decide ((6 <= length lidarPointsCurr)%nat
                      /\ (6 <= length lidarPointsCurr * length lidarPointsPrev)%nat))
      as [Hsize | Hsize]; [assumption |].
    rewrite (Hshort Hsize) in Hret. discriminate.
  - intros [Hc Hp]. now apply computeTTCLidar_returns.
  - intros Hno.
    destruct (decide ((6 <= length lidarPointsCurr)%nat
                      /\ (6 <= length lidarPointsCurr * length lidarPointsPrev)%nat))
      as [[Hc Hp] | Hsize]; [| now apply Hshort].
    destruct (computeTTCLidar_returns lidarPointsPrev lidarPointsCurr frameRate Hc Hp)
      as [ttc Hret].
    now destruct (Hno ttc).
  - intros Hu ttc. rewrite Hu. discriminate.
Qed.

(** *** The order of doubles *)

Lemma SFleb_trans (a b c : spec_float) :
  SFleb a b = true -> SFleb b c = true -> SFleb a c = true.
Proof.
  unfold SFleb.
  destruct a as [s1 | s1 | | s1 m1 e1], b as [s2 | s2 | | s2 m2 e2],
    c as [s3 | s3 | | s3 m3 e3];
    cbn; try discriminate; try reflexivity;
    try (destruct s1; cbn; try discriminate; try reflexivity);
    try (destruct s2; cbn; try discriminate; try reflexivity);
    try (destruct s3; cbn; try discriminate; try reflexivity).
  all: change (Pos.compare_cont Eq) with Pos.compare.
  all: destruct (Z.compare_spec e1 e2), (Z.compare_spec e2 e3),
         (Z.compare_spec e1 e3); try lia; try discriminate; try reflexivity.
  all: destruct (Pos.compare_spec m1 m2), (Pos.compare_spec m2 m3),
         (Pos.compare_spec m1 m3); cbn; try lia; try discriminate; try reflexivity.
Qed.

Lemma float_le_trans (a b c : float) :
  float_le a b -> float_le b c -> float_le a c.
Proof.
  unfold float_le. rewrite !FloatAxioms.leb_spec. apply SFleb_trans.
Qed.

Lemma float_le_refl (a : float) : not_nan a -> float_le a a.
Proof.
  intros Ha%not_nan_spec. unfold float_le. rewrite FloatAxioms.leb_spec.
  unfold SFleb.
  destruct (Prim2SF a) as [s | s | | s m e]; [reflexivity | | congruence |].
  - now destruct s.
  - cbn. rewrite Z.compare_refl.
    change (Pos.compare_cont Eq m m) with (Pos.compare m m).
    rewrite Pos.compare_refl. now destruct s.
Qed.

(** *** Counting the copies of a value *)

Lemma length_filter_perm {A : Type} (f : A -> bool) (l l' : list A) :
  l ≡ₚ l' -> length (List.filter f l) = length (List.filter f l').
Proof.
  induction 1 as [| x l l' _ IH | x y l | l l' l'' _ IH1 _ IH2]; cbn.
  - reflexivity.
  - destruct (f x); cbn; now rewrite IH.
  - destruct (f x), (f y); reflexivity.
  - now rewrite IH1.
Qed.

Lemma length_filter_repeated {A B : Type} (f : A -> bool) (l : list A) (v : list B) :
  length (List.filter f (flat_map (fun _ => l) v))
  = (length v * length (List.filter f l))%nat.
Proof.
  induction v as [| b v IH]; cbn; [reflexivity |].
  now rewrite List.filter_app, length_app, IH.
Qed.

Lemma filter_holds_an_element {A : Type} (f : A -> bool) (l : list A) :
  (0 < length (List.filter f l))%nat -> exists y, y ∈ l /\ f y = true.
Proof.
  induction l as [| a l IH]; cbn; [lia |].
  destruct (f a) eqn:Hfa.
  - intros _. exists a. split; [constructor | assumption].
  - intros [y [Hy Hfy]]%IH. exists y. split; [now constructor | assumption].
Qed.

Lemma filter_finds_the_element (x : float) (l : list float) :
  x ∈ l -> (0 < length (List.filter (Leibniz.eqb x) l))%nat.
Proof.
  induction 1 as [x l | x y l _ IH]; cbn.
  - rewrite (proj2 (FloatAxioms.Leibniz.eqb_spec x x) eq_refl). cbn. lia.
  - destruct (Leibniz.eqb x y); cbn; lia.
Qed.

(** A value that a vector holds more often than [n] times is found beyond
    its first [n] positions. *)
Lemma repeated_value_beyond (x : float) (l : list float) (n : nat) :
  (n < length (List.filter (Leibniz.eqb x) l))%nat -> x ∈ drop n l.
Proof.
  intros Hcount.
  rewrite <- (take_drop n l), List.filter_app, length_app in Hcount.
  pose proof (List.filter_length_le (Leibniz.eqb x) (take n l)) as Hle.
  rewrite length_take in Hle.
  destruct (filter_holds_an_element (Leibniz.eqb x) (drop n l)) as [y [Hy Hxy]];
    [lia |].
  apply FloatAxioms.Leibniz.eqb_spec in Hxy. now subst y.
Qed.

Lemma StronglySorted_drop {A : Type} (R : A -> A -> Prop) (l : list A) (n : nat) :
  StronglySorted R l -> StronglySorted R (drop n l).
Proof.
  revert l. induction n as [| n IH]; intros l Hs; [now rewrite drop_0 |].
  destruct l as [| a l]; [constructor |].
  cbn. apply IH. now inversion Hs.
Qed.

(** In the ascending arrangement of a vector that holds each of its values
    more than [n] times, the element at position [n] is a least one. *)
Lemma sort_repeated_rank (xs : list float) (B : Type) (v : list B) (n : nat)
    (d : float) :
  Forall not_nan xs ->
  (n < length v)%nat ->
  Num.sort (flat_map (fun _ => xs) v) !! n = Some d ->
  d ∈ xs /\ Forall (float_le d) xs.
Proof.
  intros Hnan Hn Hd.
  set (l := flat_map (fun _ => xs) v) in *.
  assert (Hin : forall y, y ∈ l -> y ∈ xs).
  { intros y Hy. unfold l in Hy.
    apply list_elem_of_In, in_flat_map in Hy as [_ [_ Hy]].
    now apply list_elem_of_In. }
  assert (Hnanl : Forall not_nan l).
  { rewrite Forall_forall in Hnan |- *. intros y Hy. now apply Hnan, Hin. }
  assert (Hdl : d ∈ l).
  { rewrite <- (sort_perm l). now apply list_elem_of_lookup_2 in Hd. }
  split; [now apply Hin |].
  assert (Hs : StronglySorted float_le (drop n (Num.sort l))).
  { apply StronglySorted_drop, Sorted_StronglySorted; [| now apply sort_Sorted].
    intros a b c. apply float_le_trans. }
  rewrite (drop_S _ _ _ Hd) in Hs. inversion Hs as [| ? ? _ Hall]; subst.
  rewrite Forall_forall. intros x Hx.
  assert (Hbeyond : x ∈ drop n (Num.sort l)).
  { apply repeated_value_beyond.
    rewrite (length_filter_perm _ _ _ (sort_perm l)). unfold l.
    rewrite length_filter_repeated.
    pose proof (filter_finds_the_element x xs Hx). nia. }
  rewrite (drop_S _ _ _ Hd) in Hbeyond.
  apply elem_of_cons in Hbeyond as [-> | Hrest].
  - apply float_le_refl. rewrite Forall_forall in Hnanl. now apply Hnanl.
  - rewrite Forall_forall in Hall. now apply Hall.
Qed.



(** ** computeTTCLidar, a target that keeps its distance *)

Lemma float_le_antisym (a b : float) :
  float_le a b -> float_le b a -> (a =? b)%float = true.
Proof.
  unfold float_le. rewrite !FloatAxioms.leb_spec, FloatAxioms.eqb_spec.
  unfold SFleb, SFeqb. rewrite (SFcompare_antisym (Prim2SF a) (Prim2SF b)).
  now destruct (SFcompare (Prim2SF b) (Prim2SF a)) as [[] |].
Qed.

(** The difference of two equal doubles is a zero, or NaN when they are
    infinite. *)
Lemma sub_equal_zero_or_nan (a b : float) :
  (a =? b)%float = true -> zero_or_nan (a - b)%float.
Proof.
  unfold zero_or_nan. rewrite FloatAxioms.eqb_spec, FloatAxioms.sub_spec.
  unfold SFeqb.
  destruct (Prim2SF a) as [s1 | s1 | | s1 m1 e1],
    (Prim2SF b) as [s2 | s2 | | s2 m2 e2]; cbn; try discriminate;
    try (now destruct s1, s2); try (now destruct s1); try (now destruct s2).
  change (Pos.compare_cont Eq m1 m2) with (Pos.compare m1 m2).
  destruct s1, s2; try discriminate;
    (destruct (Z.compare_spec e1 e2) as [-> | |]; try discriminate;
     destruct (Pos.compare_spec m1 m2) as [-> | |]; try discriminate; intros _;
     unfold SF64sub, SFsub; now rewrite Z.sub_diag).
Qed.

Lemma mul_zero_or_nan (a b : float) :
  zero_or_nan a -> zero_or_nan (a * b)%float.
Proof.
  unfold zero_or_nan. rewrite FloatAxioms.mul_spec.
  destruct (Prim2SF a) as [s | s | | s m e]; try easy;
    destruct (Prim2SF b) as [s' | s' | | s' m' e']; easy.
Qed.

Lemma div_zero_or_nan (a b : float) :
  zero_or_nan b -> is_finite (a / b)%float = false.
Proof.
  intros Hb. apply not_finite_of_Prim2SF. revert Hb. unfold zero_or_nan.
  rewrite FloatAxioms.div_spec.
  destruct (Prim2SF b) as [s' | s' | | s' m' e']; try easy;
    destruct (Prim2SF a) as [s | s | | s m e]; easy.
Qed.

(** X11. A target that keeps its distance: when no forward value of either
    frame is NaN and the least forward value of the previous points is also
    the sixth smallest of the current points, the velocity of line 250 is
    zero and the division of line 251 is unguarded, so the TTC written is an
    infinity or NaN, whatever the frame rate. *)
Theorem computeTTCLidar_same_distance_not_finite
    (lidarPointsPrev lidarPointsCurr : list LidarPoint.t) (frameRate d : float) :
  (6 <= length lidarPointsCurr)%nat ->
  Forall (fun p => not_nan (LidarPoint.x p)) lidarPointsPrev ->
  Forall (fun p => not_nan (LidarPoint.x p)) lidarPointsCurr ->
  Num.sort (map LidarPoint.x lidarPointsCurr) !! 5%nat = Some d ->
  d ∈ map LidarPoint.x lidarPointsPrev ->
  Forall (fun p => float_le d (LidarPoint.x p)) lidarPointsPrev ->
  exists ttc,
    computeTTCLidar lidarPointsPrev lidarPointsCurr frameRate = Returned ttc
    /\ is_finite ttc = false.
Proof.
  intros Hc Hnan _ Hcurr Hin Hleast.
  assert (Hp : (6 <= length lidarPointsCurr * length lidarPointsPrev)%nat).
  { destruct lidarPointsPrev; [now apply elem_of_nil in Hin |]. cbn [length]. nia. }
  destruct (lookup_lt_is_Some_2
              (Num.sort (flat_map (fun _ => map LidarPoint.x lidarPointsPrev)
                           lidarPointsCurr)) 5) as [d_prev Hprev].
  { rewrite length_sort, length_flat_map_const, length_map. lia. }
  destruct (sort_repeated_rank (map LidarPoint.x lidarPointsPrev) _
              lidarPointsCurr 5 d_prev) as [Hin' Hleast'];
    [now apply Forall_map | lia | assumption |].
  assert (Heq : (d_prev =? d)%float = true).
  { apply float_le_antisym.
    - exact (proj1 (Forall_forall _ _) Hleast' d Hin).
    - apply list_elem_of_fmap in Hin' as (p & -> & Hp').
      exact (proj1 (Forall_forall _ _) Hleast p Hp'). }
  rewrite computeTTCLidar_closed. unfold Vec.index.
  change 5 with (Z.of_nat 5). rewrite !get_of_nat, Hprev, Hcurr.
  eexists. split; [reflexivity |].
  now apply div_zero_or_nan, mul_zero_or_nan, sub_equal_zero_or_nan.
Qed.

Lemma computeTTCLidar_same_distance_not_finite_witness :
  exists ttc,
    computeTTCLidar Examples.short_prev Examples.six_prev 10%float = Returned ttc
    /\ is_finite ttc = false.
Proof.
  apply (computeTTCLidar_same_distance_not_finite Examples.short_prev
           Examples.six_prev 10%float 12%float).
  - vm_compute. lia.
  - repeat constructor.
  - repeat constructor.
  - vm_compute. reflexivity.
  - vm_compute. left.
  - repeat constructor.
Defined.

(** ** matchBoundingBoxes, the entries in full *)

Lemma bind_never_throws {A B : Type} (c : outcome A) (k : A -> outcome B) :
  never_throws c -> (forall a, never_throws (k a)) -> never_throws (c ≫= k).
Proof. destruct c as [a | e |]; cbn; auto. Qed.

Lemma index_never_throws {A : Type} (v : list A) (i : Z) :
  never_throws (Vec.index v i).
Proof. unfold Vec.index. now destruct (Vec.get v i). Qed.

Lemma for_each_never_throws {A St : Type} (body : A -> St -> outcome St)
    (v : list A) :
  (forall a s, never_throws (body a s)) ->
  forall s, never_throws (for_each body v s).
Proof.
  intros Hbody. induction v as [| a v IH]; intros s; [exact I |].
  rewrite for_each_cons. now apply bind_never_throws.
Qed.

Lemma for_index_never_throws {A St : Type} (body : nat -> A -> St -> outcome St)
    (v : list A) :
  (forall i a s, never_throws (body i a s)) ->
  forall first s, never_throws (for_index body first v s).
Proof.
  intros Hbody. induction v as [| a v IH]; intros first s; [exact I |].
  rewrite for_index_cons. now apply bind_never_throws.
Qed.

Lemma undefined_unless_returns {A : Type} (c : outcome A) :
  never_throws c -> (forall a, c <> Returned a) -> c = Undefined.
Proof.
  destruct c as [a | e |]; cbn; intros Hc Hno; try easy. now destruct (Hno a).
Qed.

(** *** Repeated inserts *)

Lemma map_insert_present (k v : Z) (m : gmap Z Z) :
  is_Some (m !! k) -> map_insert k v m = m.
Proof. unfold map_insert. now intros [b ->]. Qed.

Lemma map_insert_is_Some (k v : Z) (m : gmap Z Z) :
  is_Some (map_insert k v m !! k).
Proof.
  rewrite map_insert_lookup. destruct (m !! k); [eauto |].
  rewrite decide_True by reflexivity. eauto.
Qed.

Lemma insert_all_app (v : Z) (keys keys' : list Z) (m : gmap Z Z) :
  insert_all v (keys ++ keys') m = insert_all v keys' (insert_all v keys m).
Proof. unfold insert_all. apply foldl_app. Qed.

Lemma insert_all_lookup (v : Z) (keys : list Z) :
  forall (m : gmap Z Z) (a : Z),
    insert_all v keys m !! a
    = match m !! a with
      | Some b => Some b
      | None => if decide (a ∈ keys) then Some v else None
      end.
Proof.
  induction keys as [| k keys IH]; intros m a.
  - cbn. destruct (m !! a); [reflexivity |].
    rewrite decide_False by apply not_elem_of_nil. reflexivity.
  - change (insert_all v (k :: keys) m) with (insert_all v keys (map_insert k v m)).
    rewrite IH, map_insert_lookup.
    destruct (m !! a) as [b |]; [reflexivity |].
    destruct (decide (k = a)) as [-> | Hne].
    + rewrite decide_True by constructor. reflexivity.
    + destruct (decide (a ∈ keys)) as [Hin | Hout].
      * rewrite decide_True by now constructor. reflexivity.
      * rewrite decide_False; [reflexivity |].
        intros [-> | Hin]%elem_of_cons; [now apply Hne | now apply Hout].
Qed.

(** Inserting under keys the map has changes nothing. *)
Lemma insert_all_present (v : Z) (keys : list Z) (m : gmap Z Z) :
  (forall k, k ∈ keys -> is_Some (m !! k)) -> insert_all v keys m = m.
Proof.
  intros Hkeys. apply map_eq. intros a. rewrite insert_all_lookup.
  destruct (m !! a) as [b |] eqn:Hma; [reflexivity |].
  destruct (decide (a ∈ keys)) as [Hin | Hout]; [| reflexivity].
  destruct (Hkeys a Hin) as [b Hb]. congruence.
Qed.

Section MatchBoundingBoxesClosed.

Variables (prevFrame currFrame : DataFrame.t).

Lemma match_round_never_throws (i : nat) (match_i : DMatch.t)
    (box_j box_k : BoundingBox.t) (bb : gmap Z Z) :
  never_throws (match_round prevFrame currFrame i match_i box_j box_k bb).
Proof.
  unfold match_round.
  apply bind_never_throws; [apply index_never_throws | intros box_i].
  apply bind_never_throws; [apply index_never_throws | intros kq].
  apply bind_never_throws; [apply index_never_throws | intros kt].
  now destruct (_ && _).
Qed.

(** One round of the innermost loop, in full. *)
Lemma match_round_result (i : nat) (match_i : DMatch.t)
    (box_j box_k : BoundingBox.t) (bb : gmap Z Z) :
  reads_ok prevFrame currFrame i match_i ->
  match_round prevFrame currFrame i match_i box_j box_k bb
  = Returned
      (if accepts prevFrame currFrame i match_i box_j
       then map_insert (BoundingBox.boxID box_j) (BoundingBox.boxID box_k) bb
       else bb).
Proof.
  intros (Hi & [kq Hq]%index_ok_get & [kt Ht]%index_ok_get).
  apply lookup_lt_is_Some in Hi as [box_i Hbi].
  unfold match_round, accepts, Vec.index. rewrite get_of_nat, Hbi, Hq, Ht.
  cbv beta iota delta [mbind outcome_bind mret outcome_ret].
  now destruct (_ && _).
Qed.

(** The rounds of the innermost loop after the first: the key is present. *)
Lemma match_round_loop_present (i : nat) (match_i : DMatch.t)
    (box_j : BoundingBox.t) (boxes : list BoundingBox.t) (bb : gmap Z Z) :
  reads_ok prevFrame currFrame i match_i ->
  (accepts prevFrame currFrame i match_i box_j = true ->
   is_Some (bb !! BoundingBox.boxID box_j)) ->
  for_each (match_round prevFrame currFrame i match_i box_j) boxes bb = Returned bb.
Proof.
  intros Hok Hpresent. induction boxes as [| box_k boxes IH]; [reflexivity |].
  rewrite for_each_cons, (match_round_result _ _ _ _ _ Hok).
  destruct (accepts prevFrame currFrame i match_i box_j) eqn:Hacc.
  - rewrite map_insert_present by now apply Hpresent. exact IH.
  - exact IH.
Qed.

(** The innermost loop: the identifier it inserts is that of the first box
    of the current frame. *)
Lemma match_round_loop (i : nat) (match_i : DMatch.t) (box_j first : BoundingBox.t)
    (boxes : list BoundingBox.t) (bb : gmap Z Z) :
  reads_ok prevFrame currFrame i match_i ->
  for_each (match_round prevFrame currFrame i match_i box_j) (first :: boxes) bb
  = Returned
      (if accepts prevFrame currFrame i match_i box_j
       then map_insert (BoundingBox.boxID box_j) (BoundingBox.boxID first) bb
       else bb).
Proof.
  intros Hok. rewrite for_each_cons, (match_round_result _ _ _ _ _ Hok), bind_ret_l.
  apply match_round_loop_present; [assumption |].
  destruct (accepts prevFrame currFrame i match_i box_j); [| discriminate].
  intros _. apply map_insert_is_Some.
Qed.

(** The loop over the boxes of the previous frame, for one match. *)
Lemma previous_boxes_loop (i : nat) (match_i : DMatch.t) (first : BoundingBox.t)
    (boxes : list BoundingBox.t) (prev_boxes : list BoundingBox.t) :
  DataFrame.boundingBoxes currFrame = first :: boxes ->
  reads_ok prevFrame currFrame i match_i ->
  forall bb,
    for_each
      (fun box_j =>
         for_each (match_round prevFrame currFrame i match_i box_j)
           (DataFrame.boundingBoxes currFrame))
      prev_boxes bb
    = Returned
        (insert_all (BoundingBox.boxID first)
           (BoundingBox.boxID
              <$> List.filter (accepts prevFrame currFrame i match_i) prev_boxes)
           bb).
Proof.
  intros Hcurr Hok. rewrite Hcurr.
  induction prev_boxes as [| box_j prev_boxes IH]; intros bb; [reflexivity |].
  rewrite for_each_cons, (match_round_loop _ _ _ _ _ _ Hok), bind_ret_l, IH.
  cbn [List.filter].
  now destruct (accepts prevFrame currFrame i match_i box_j).
Qed.

(** The three loops in closed form, when both frames have a box. *)
Lemma matches_loop (first : BoundingBox.t) (boxes : list BoundingBox.t)
    (matches : list DMatch.t) :
  DataFrame.boundingBoxes currFrame = first :: boxes ->
  forall (start : nat) (bb : gmap Z Z),
    (forall i match_i, matches !! i = Some match_i -> reads_ok prevFrame currFrame (start + i) match_i) ->
    for_index
      (fun i match_i =>
         for_each
           (fun box_j =>
              for_each (match_round prevFrame currFrame i match_i box_j)
                (DataFrame.boundingBoxes currFrame))
           (DataFrame.boundingBoxes prevFrame))
      start matches bb
    = Returned
        (insert_all (BoundingBox.boxID first)
           (inserted_keys prevFrame currFrame start matches) bb).
Proof.
  intros Hcurr. induction matches as [| match_i matches IH]; intros start bb Hok;
    [reflexivity |].
  rewrite for_index_cons. cbn [inserted_keys]. rewrite insert_all_app.
  assert (Hok0 : reads_ok prevFrame currFrame start match_i).
  { specialize (Hok 0%nat match_i eq_refl). now rewrite Nat.add_0_r in Hok. }
  rewrite (previous_boxes_loop _ _ _ _ _ Hcurr Hok0), bind_ret_l.
  apply IH. intros i m Hi.
  replace (S start + i)%nat with (start + S i)%nat by lia. now apply Hok.
Qed.

Lemma inserted_keys_no_previous_box (matches : list DMatch.t) :
  DataFrame.boundingBoxes prevFrame = [] ->
  forall start, inserted_keys prevFrame currFrame start matches = [].
Proof.
  intros Hprev. induction matches as [| m matches IH]; intros start; [reflexivity |].
  cbn [inserted_keys]. now rewrite Hprev, IH.
Qed.

Lemma inserted_keys_no_current_box (matches : list DMatch.t) :
  DataFrame.boundingBoxes currFrame = [] ->
  forall start, inserted_keys prevFrame currFrame start matches = [].
Proof.
  intros Hcurr. induction matches as [| m matches IH]; intros start; [reflexivity |].
  cbn [inserted_keys]. rewrite IH, app_nil_r.
  rewrite filter_none; [reflexivity |].
  intros box_j _. unfold accepts. now rewrite Hcurr.
Qed.

Lemma loops_without_rounds (matches : list DMatch.t) (bb : gmap Z Z) :
  DataFrame.boundingBoxes prevFrame = []
  \/ DataFrame.boundingBoxes currFrame = [] ->
  forall start,
    for_index
      (fun i match_i =>
         for_each
           (fun box_j =>
              for_each (match_round prevFrame currFrame i match_i box_j)
                (DataFrame.boundingBoxes currFrame))
           (DataFrame.boundingBoxes prevFrame))
      start matches bb
    = Returned bb.
Proof.
  intros Hnone. induction matches as [| m matches IH]; intros start; [reflexivity |].
  rewrite for_index_cons.
  assert (Hround :
    for_each
      (fun box_j =>
         for_each (match_round prevFrame currFrame start m box_j)
           (DataFrame.boundingBoxes currFrame))
      (DataFrame.boundingBoxes prevFrame) bb = Returned bb).
  { destruct Hnone as [-> | ->]; [reflexivity |]. clear IH.
    induction (DataFrame.boundingBoxes prevFrame) as [| box_j l IHl];
      [reflexivity | exact IHl]. }
  rewrite Hround. apply IH.
Qed.

Lemma match_defined_reads_ok (matches : list DMatch.t) (box_j : BoundingBox.t)
    (l : list BoundingBox.t) :
  DataFrame.boundingBoxes prevFrame = box_j :: l ->
  DataFrame.boundingBoxes currFrame <> [] ->
  match_defined prevFrame currFrame matches = true ->
  forall i match_i, matches !! i = Some match_i -> reads_ok prevFrame currFrame i match_i.
Proof.
  intros Hprev Hcurr Hdef i match_i Hi. unfold match_defined in Hdef.
  rewrite Hprev in Hdef.
  destruct (DataFrame.boundingBoxes currFrame) as [| c cs] eqn:Hc; [congruence |].
  apply andb_true_iff in Hdef as [Hlen%Nat.leb_le Hall].
  rewrite forallb_forall in Hall.
  specialize (Hall match_i
                (proj1 (list_elem_of_In _ _) (list_elem_of_lookup_2 _ _ _ Hi))).
  apply andb_true_iff in Hall as [Hq Ht].
  apply lookup_lt_Some in Hi. unfold reads_ok. rewrite Hc. repeat split; try assumption.
  lia.
Qed.

(** The matcher in closed form: after the three fixed inserts, one
    [insert] per accepted pair of a match and a previous box, each with the
    identifier of the first box of the current frame as its value. *)
Lemma matchBoundingBoxes_closed (matches : list DMatch.t) (m0 : gmap Z Z)
    (first_id : Z) :
  match_defined prevFrame currFrame matches = true ->
  (forall first, DataFrame.boundingBoxes currFrame !! 0%nat = Some first ->
     BoundingBox.boxID first = first_id) ->
  matchBoundingBoxes prevFrame currFrame matches m0
  = Returned
      (insert_all first_id (inserted_keys prevFrame currFrame 0 matches)
         (with_fixed_entries m0)).
Proof.
  intros Hdef Hfirst.
  destruct (DataFrame.boundingBoxes prevFrame) as [| box_j l] eqn:Hprev.
  { unfold matchBoundingBoxes, with_fixed_entries.
    rewrite loops_without_rounds by now left.
    now rewrite inserted_keys_no_previous_box. }
  destruct (DataFrame.boundingBoxes currFrame) as [| first boxes] eqn:Hcurr.
  { unfold matchBoundingBoxes, with_fixed_entries.
    rewrite loops_without_rounds by now right.
    now rewrite inserted_keys_no_current_box. }
  unfold matchBoundingBoxes, with_fixed_entries.
  rewrite (matches_loop first boxes matches Hcurr).
  - now rewrite (Hfirst first) by reflexivity.
  - intros i match_i Hi. cbn [Nat.add].
    eapply match_defined_reads_ok; try eassumption. now rewrite Hcurr.
Qed.

(** The keys the loops insert are the identifiers of the previous boxes
    that some match accepts. *)
Lemma elem_of_inserted_keys (matches : list DMatch.t) (a : Z) :
  forall start,
    a ∈ inserted_keys prevFrame currFrame start matches
    <-> exists i match_i box_j,
          matches !! i = Some match_i
          /\ box_j ∈ DataFrame.boundingBoxes prevFrame
          /\ BoundingBox.boxID box_j = a
          /\ accepts prevFrame currFrame (start + i) match_i box_j = true.
Proof.
  induction matches as [| m matches IH]; intros start.
  - cbn. split; [intros []%elem_of_nil | intros (i & mi & bj & [=] & _)].
  - cbn [inserted_keys]. rewrite elem_of_app, IH, list_elem_of_fmap. split.
    + intros [(box_j & -> & Hbj) | (i & mi & bj & Hi & Hbj & Hid & Hacc)].
      * apply list_elem_of_In, filter_In in Hbj as [Hin Hacc].
        exists 0%nat, m, box_j. rewrite Nat.add_0_r.
        repeat split; [now apply list_elem_of_In | assumption].
      * exists (S i), mi, bj.
        replace (start + S i)%nat with (S start + i)%nat by lia. now repeat split.
    + intros (i & mi & bj & Hi & Hbj & Hid & Hacc). destruct i as [| i].
      * left. injection Hi as <-. rewrite Nat.add_0_r in Hacc.
        exists bj. split; [now symmetry |].
        apply list_elem_of_In, filter_In. split; [now apply list_elem_of_In | assumption].
      * right. exists i, mi, bj.
        replace (S start + i)%nat with (start + S i)%nat by lia. now repeat split.
Qed.

Lemma matchBoundingBoxes_never_throws (matches : list DMatch.t) (m0 : gmap Z Z) :
  never_throws (matchBoundingBoxes prevFrame currFrame matches m0).
Proof.
  unfold matchBoundingBoxes. apply for_index_never_throws. intros i match_i s.
  apply for_each_never_throws. intros box_j s1.
  apply for_each_never_throws. intros box_k s2.
  apply match_round_never_throws.
Qed.

End MatchBoundingBoxesClosed.

(** X12. The entries of the map returned, in full, whatever map the caller
    passes: an entry the map has after the three fixed inserts stays as it
    is; any other key [a] has an entry exactly when a box of the previous
    frame with identifier [a] is accepted by the test of line 286 for some
    match, and its value is then the identifier of the first box of the
    current frame, whichever box of the current frame holds the keypoint. *)
Theorem matchBoundingBoxes_entries_in_full
    (prevFrame currFrame : DataFrame.t) (matches : list DMatch.t) (m0 : gmap Z Z) :
  match_defined prevFrame currFrame matches = true ->
  exists bbBestMatches,
    matchBoundingBoxes prevFrame currFrame matches m0 = Returned bbBestMatches
    /\ forall a b,
         bbBestMatches !! a = Some b
         <-> with_fixed_entries m0 !! a = Some b
             \/ with_fixed_entries m0 !! a = None
                /\ (exists first,
                      DataFrame.boundingBoxes currFrame !! 0%nat = Some first
                      /\ b = BoundingBox.boxID first)
                /\ exists i match_i box_j,
                     matches !! i = Some match_i
                     /\ box_j ∈ DataFrame.boundingBoxes prevFrame
                     /\ BoundingBox.boxID box_j = a
                     /\ accepts prevFrame currFrame i match_i box_j = true.
Proof.
  intros Hdef.
  set (first_id :=
         from_option BoundingBox.boxID 0 (DataFrame.boundingBoxes currFrame !! 0%nat)).
  eexists. split.
  { apply (matchBoundingBoxes_closed prevFrame currFrame matches m0 first_id Hdef).
    intros first Hfirst. unfold first_id. now rewrite Hfirst. }
  intros a b. rewrite insert_all_lookup.
  destruct (with_fixed_entries m0 !! a) as [b' |] eqn:Ha.
  { split; [now left | intros [H | [[=] _]]; exact H]. }
  destruct (decide (a ∈ inserted_keys prevFrame currFrame 0 matches)) as [Hin | Hout].
  - pose proof Hin as Hkeys.
    apply elem_of_inserted_keys in Hkeys as (i & mi & bj & Hi & Hbj & Hid & Hacc).
    cbn [Nat.add] in Hacc.
    assert (Hfirst : exists first,
               DataFrame.boundingBoxes currFrame !! 0%nat = Some first).
    { unfold accepts in Hacc.
      destruct (DataFrame.boundingBoxes currFrame) as [| c cs]; [| now exists c].
      now rewrite lookup_nil in Hacc. }
    destruct Hfirst as [first Hfirst]. split.
    + intros [= <-]. right. split; [reflexivity |]. split.
      * exists first. split; [assumption |]. unfold first_id. now rewrite Hfirst.
      * now exists i, mi, bj.
    + intros [[=] | (_ & (first' & Hfirst' & ->) & _)].
      unfold first_id. now rewrite Hfirst'.
  - split; [discriminate |].
    intros [[=] | (_ & _ & Hkeys)]. destruct Hout.
    apply elem_of_inserted_keys. cbn [Nat.add]. exact Hkeys.
Qed.

Lemma matchBoundingBoxes_entries_in_full_witness :
  exists bbBestMatches,
    matchBoundingBoxes Examples.votes_prev Examples.votes_curr
      Examples.seven_matches ∅ = Returned bbBestMatches
    /\ forall a b,
         bbBestMatches !! a = Some b
         <-> with_fixed_entries ∅ !! a = Some b
             \/ with_fixed_entries ∅ !! a = None
                /\ (exists first,
                      DataFrame.boundingBoxes Examples.votes_curr !! 0%nat = Some first
                      /\ b = BoundingBox.boxID first)
                /\ exists i match_i box_j,
                     Examples.seven_matches !! i = Some match_i
                     /\ box_j ∈ DataFrame.boundingBoxes Examples.votes_prev
                     /\ BoundingBox.boxID box_j = a
                     /\ accepts Examples.votes_prev Examples.votes_curr i match_i box_j
                        = true.
Proof.
  apply (matchBoundingBoxes_entries_in_full Examples.votes_prev Examples.votes_curr
           Examples.seven_matches ∅).
  reflexivity.
Defined.

(** X13. A second call on the map the first call returns, with the same
    frames and matches, returns that map unchanged: [insert] never
    overwrites, so no later call revises a pairing. *)
Theorem matchBoundingBoxes_second_call_changes_nothing
    (prevFrame currFrame : DataFrame.t) (matches : list DMatch.t)
    (m0 bbBestMatches : gmap Z Z) :
  matchBoundingBoxes prevFrame currFrame matches m0 = Returned bbBestMatches ->
  matchBoundingBoxes prevFrame currFrame matches bbBestMatches
  = Returned bbBestMatches.
Proof.
  intros Hret.
  assert (Hdef : match_defined prevFrame currFrame matches = true).
  { apply (matchBoundingBoxes_returns_iff prevFrame currFrame matches m0).
    now exists bbBestMatches. }
  set (first_id :=
         from_option BoundingBox.boxID 0 (DataFrame.boundingBoxes currFrame !! 0%nat)).
  assert (Hfirst : forall first,
            DataFrame.boundingBoxes currFrame !! 0%nat = Some first ->
            BoundingBox.boxID first = first_id).
  { intros first Hfirst. unfold first_id. now rewrite Hfirst. }
  rewrite (matchBoundingBoxes_closed prevFrame currFrame matches m0 first_id Hdef Hfirst)
    in Hret.
  injection Hret as Hbb.
  rewrite (matchBoundingBoxes_closed prevFrame currFrame matches bbBestMatches
             first_id Hdef Hfirst).
  f_equal.
  assert (Hsome : forall a, is_Some (with_fixed_entries m0 !! a)
                            \/ a ∈ inserted_keys prevFrame currFrame 0 matches ->
                            is_Some (bbBestMatches !! a)).
  { intros a Ha. rewrite <- Hbb, insert_all_lookup.
    destruct (with_fixed_entries m0 !! a) as [b |]; [eauto |].
    destruct Ha as [[b [=]] | Hin]. rewrite decide_True by assumption. eauto. }
  assert (Hfixed : with_fixed_entries bbBestMatches = bbBestMatches).
  { unfold with_fixed_entries.
    rewrite (map_insert_present 1), (map_insert_present 3), (map_insert_present 5);
      [reflexivity | | |]; apply Hsome; left; unfold with_fixed_entries.
    - apply map_insert_is_Some.
    - rewrite map_insert_lookup.
      destruct (map_insert 3 3 (map_insert 1 1 m0) !! 3) eqn:H3; [eauto |].
      destruct (map_insert_is_Some 3 3 (map_insert 1 1 m0)) as [b Hb]. congruence.
    - rewrite !map_insert_lookup.
      destruct (m0 !! 1); [eauto |]. rewrite decide_True by reflexivity. eauto. }
  rewrite Hfixed. apply insert_all_present. intros k Hk. apply Hsome. now right.
Qed.

Lemma matchBoundingBoxes_second_call_changes_nothing_witness :
  matchBoundingBoxes Examples.votes_prev Examples.votes_curr Examples.seven_matches
    (<[2 := 20]> fixed_entries)
  = Returned (<[2 := 20]> fixed_entries).
Proof.
  apply (matchBoundingBoxes_second_call_changes_nothing Examples.votes_prev
           Examples.votes_curr Examples.seven_matches ∅).
  apply votes_example_output.
Defined.

(** X14. The function throws nothing, its reads being unchecked: on every
    input on which a read is out of bounds its behaviour is undefined. Such
    are the inputs where both frames have a box and there are more matches
    than boxes of the current frame, the match index being used as a box
    index. *)
Theorem matchBoundingBoxes_undefined_iff
    (prevFrame currFrame : DataFrame.t) (matches : list DMatch.t) (m0 : gmap Z Z) :
  (matchBoundingBoxes prevFrame currFrame matches m0 = Undefined
   <-> match_defined prevFrame currFrame matches = false)
  /\ (DataFrame.boundingBoxes prevFrame <> [] /\
      (0 < length (DataFrame.boundingBoxes currFrame) < length matches)%nat ->
      matchBoundingBoxes prevFrame currFrame matches m0 = Undefined).
Proof.
  assert (Hiff : matchBoundingBoxes prevFrame currFrame matches m0 = Undefined
                 <-> match_defined prevFrame currFrame matches = false).
  { split.
    - intros Hu. apply not_true_is_false. intros Hdef.
      apply (matchBoundingBoxes_returns_iff prevFrame currFrame matches m0) in Hdef
        as [bb Hbb].
      congruence.
    - intros Hdef. apply undefined_unless_returns.
      + apply matchBoundingBoxes_never_throws.
      + intros bb Hbb.
        assert (match_defined prevFrame currFrame matches = true).
        { apply (matchBoundingBoxes_returns_iff prevFrame currFrame matches m0).
          now exists bb. }
        congruence. }
  split; [exact Hiff |].
  intros [Hprev [Hpos Hlen]]. apply Hiff. unfold match_defined.
  destruct (DataFrame.boundingBoxes prevFrame); [congruence |].
  destruct (DataFrame.boundingBoxes currFrame) as [| c cs]; [cbn in Hpos; lia |].
  apply andb_false_iff. left. apply Nat.leb_gt. exact Hlen.
Qed.

(** ** show3DObjects, the top view *)

(** A loop whose rounds keep an invariant of the elements met so far and
    the state. *)
Lemma for_each_history {A St : Type} (I : list A -> St -> Prop)
    (body : A -> St -> outcome St) (v : list A) :
  (forall pre a s s', I pre s -> body a s = Returned s' -> I (pre ++ [a]) s') ->
  forall pre s s', I pre s -> for_each body v s = Returned s' -> I (pre ++ v) s'.
Proof.
  intros Hbody. induction v as [| a v IH]; intros pre s s' Hs Hret.
  - injection Hret as <-. now rewrite app_nil_r.
  - rewrite for_each_cons in Hret. apply bind_Returned in Hret as (s1 & Hb & Hrest).
    rewrite (cons_middle a pre v), app_assoc.
    eapply IH; [| exact Hrest]. eapply Hbody; eassumption.
Qed.

(** *** Infinities and NaN in single-precision arithmetic *)

Lemma special_opp (a : float) : special a -> special (- a)%float.
Proof.
  unfold special. rewrite FloatAxioms.opp_spec. now destruct (Prim2SF a).
Qed.

Lemma special_to_float (d : float) : special d -> special (Num.to_float d).
Proof.
  unfold special, Num.to_float.
  destruct (Prim2SF d) as [s | s | | s m e] eqn:Hd; try easy; now rewrite Hd.
Qed.

Lemma special_fmul (a b : float) : special a -> special (Num.fmul a b).
Proof.
  intros Ha. apply special_to_float. revert Ha. unfold special.
  rewrite FloatAxioms.mul_spec.
  destruct (Prim2SF a) as [s | s | | s m e]; try easy;
    destruct (Prim2SF b) as [s' | s' | | s' m' e']; easy.
Qed.

Lemma special_fdiv (a b : float) : special a -> special (fdiv a b).
Proof.
  intros Ha. apply special_to_float. revert Ha. unfold special.
  rewrite FloatAxioms.div_spec.
  destruct (Prim2SF a) as [s | s | | s m e]; try easy;
    destruct (Prim2SF b) as [s' | s' | | s' m' e']; easy.
Qed.

Lemma special_fdiv_zero (a b : float) (s : bool) :
  Prim2SF b = S754_zero s -> special (fdiv a b).
Proof.
  intros Hb. apply special_to_float. unfold special.
  rewrite FloatAxioms.div_spec, Hb.
  now destruct (Prim2SF a) as [s' | s' | | s' m' e'].
Qed.

Lemma special_fadd (a b : float) : special a -> special (fadd a b).
Proof.
  intros Ha. apply special_to_float. revert Ha. unfold special.
  rewrite FloatAxioms.add_spec.
  destruct (Prim2SF a) as [s | s | | s m e]; try easy;
    destruct (Prim2SF b) as [s' | s' | | s' m' e']; try easy.
  cbn. now destruct s, s'.
Qed.

Lemma to_int_special (d : float) : special d -> Num.to_int d = Undefined.
Proof.
  unfold special, Num.to_int, Num.trunc. now destruct (Prim2SF d).
Qed.

Lemma to_int_never_throws (d : float) : never_throws (Num.to_int d).
Proof.
  unfold Num.to_int. destruct (Num.trunc d) as [z |]; [| exact I].
  now destruct (Num.in_int z).
Qed.

Lemma SFeqb_refl (a : spec_float) : a <> S754_nan -> SFeqb a a = true.
Proof.
  unfold SFeqb. destruct a as [s | s | | s m e]; cbn; try easy.
  - now destruct s.
  - intros _. rewrite Z.compare_refl, Pos.compare_cont_refl. now destruct s.
Qed.

Lemma is_nan_special (d : float) : is_nan d = true -> special d.
Proof.
  unfold is_nan, special. rewrite FloatAxioms.eqb_spec. intros Hn.
  destruct (Prim2SF d) as [s | s | | s m e] eqn:Hd; try easy;
    rewrite SFeqb_refl in Hn by discriminate; discriminate.
Qed.

Section Show3DObjectsFacts.

Variables (worldSize imageSize : Size.t).

Lemma topview_y_special (xw : float) :
  special xw -> topview_y worldSize imageSize xw = Undefined.
Proof.
  intros Hxw. apply to_int_special, special_fadd, special_fdiv, special_fmul.
  now apply special_opp.
Qed.

Lemma topview_x_special (yw : float) :
  special yw -> topview_x worldSize imageSize yw = Undefined.
Proof.
  intros Hyw. apply to_int_special, special_fadd, special_fdiv, special_fmul.
  now apply special_opp.
Qed.

Lemma topview_y_zero_height (xw : float) :
  Size.height worldSize = 0 -> topview_y worldSize imageSize xw = Undefined.
Proof.
  intros Hz. unfold topview_y. rewrite Hz.
  apply to_int_special, special_fadd, (special_fdiv_zero _ _ false).
  vm_compute. reflexivity.
Qed.

Lemma topview_x_zero_width (yw : float) :
  Size.width worldSize = 0 -> topview_x worldSize imageSize yw = Undefined.
Proof.
  intros Hz. unfold topview_x. rewrite Hz.
  apply to_int_special, special_fadd, (special_fdiv_zero _ _ false).
  vm_compute. reflexivity.
Qed.

(** A round that returns, taken apart. *)
Lemma plot_Returned (it2 : LidarPoint.t) (s s' : TopView.t) :
  plot worldSize imageSize it2 s = Returned s' ->
  exists x y,
    topview_y worldSize imageSize (Num.to_float (LidarPoint.x it2)) = Returned y
    /\ topview_x worldSize imageSize (Num.to_float (LidarPoint.y it2)) = Returned x
    /\ s' = TopView.mk
              (if TopView.top s <? y then TopView.top s else y)
              (if TopView.left s <? x then TopView.left s else x)
              (if y <? TopView.bottom s then TopView.bottom s else y)
              (if x <? TopView.right s then TopView.right s else x)
              (if (TopView.xwmin s <? Num.to_float (LidarPoint.x it2))%float
               then TopView.xwmin s else Num.to_float (LidarPoint.x it2))
              (if (TopView.ywmin s <? Num.to_float (LidarPoint.y it2))%float
               then TopView.ywmin s else Num.to_float (LidarPoint.y it2))
              (if (Num.to_float (LidarPoint.y it2) <? TopView.ywmax s)%float
               then TopView.ywmax s else Num.to_float (LidarPoint.y it2))
              (TopView.circles s ++ [Point.mk x y]).
Proof.
  unfold plot. intros Hret.
  apply bind_Returned in Hret as (y & Hy & Hret).
  apply bind_Returned in Hret as (x & Hx & Hret).
  injection Hret as <-. now exists x, y.
Qed.

Lemma plot_never_throws (it2 : LidarPoint.t) (s : TopView.t) :
  never_throws (plot worldSize imageSize it2 s).
Proof.
  unfold plot.
  apply bind_never_throws; [apply to_int_never_throws | intros y].
  apply bind_never_throws; [apply to_int_never_throws | intros x]. exact I.
Qed.

(** A round that returns has read neither an infinity nor NaN. *)
Lemma plot_not_nan (it2 : LidarPoint.t) (s s' : TopView.t) :
  plot worldSize imageSize it2 s = Returned s' ->
  not_nan (Num.to_float (LidarPoint.x it2))
  /\ not_nan (Num.to_float (LidarPoint.y it2)).
Proof.
  intros (x & y & Hy & Hx & _)%plot_Returned. unfold not_nan. split.
  - destruct (is_nan (Num.to_float (LidarPoint.x it2))) eqn:Hn; [| reflexivity].
    rewrite topview_y_special in Hy by now apply is_nan_special. discriminate.
  - destruct (is_nan (Num.to_float (LidarPoint.y it2))) eqn:Hn; [| reflexivity].
    rewrite topview_x_special in Hx by now apply is_nan_special. discriminate.
Qed.

(** The rectangle of a region grows with every round. *)
Lemma plot_encloses (it2 : LidarPoint.t) (s s' : TopView.t) :
  plot worldSize imageSize it2 s = Returned s' ->
  Forall (enclosed s) (TopView.circles s) ->
  Forall (enclosed s') (TopView.circles s')
  /\ length (TopView.circles s') = S (length (TopView.circles s)).
Proof.
  intros (x & y & _ & _ & ->)%plot_Returned Hs. cbn [TopView.circles]. split.
  - apply Forall_app. split.
    + eapply Forall_impl; [exact Hs |]. intros c. unfold enclosed.
      cbn [TopView.top TopView.left TopView.bottom TopView.right].
      destruct (Z.ltb_spec (TopView.top s) y), (Z.ltb_spec (TopView.left s) x),
        (Z.ltb_spec y (TopView.bottom s)), (Z.ltb_spec x (TopView.right s)); lia.
    + constructor; [| constructor]. unfold enclosed.
      cbn [TopView.top TopView.left TopView.bottom TopView.right Point.x Point.y].
      destruct (Z.ltb_spec (TopView.top s) y), (Z.ltb_spec (TopView.left s) x),
        (Z.ltb_spec y (TopView.bottom s)), (Z.ltb_spec x (TopView.right s)); lia.
  - rewrite length_app. cbn. lia.
Qed.

Lemma region_view_encloses (lidarPoints : list LidarPoint.t) (view : TopView.t) :
  for_each (plot worldSize imageSize) lidarPoints TopView.initial = Returned view ->
  length (TopView.circles view) = length lidarPoints
  /\ Forall (enclosed view) (TopView.circles view).
Proof.
  intros Hret.
  apply (for_each_history
           (fun pre s => length (TopView.circles s) = length pre
                         /\ Forall (enclosed s) (TopView.circles s))
           (plot worldSize imageSize) lidarPoints) with (pre := []) (s := TopView.initial);
    [| split; [reflexivity | constructor] | exact Hret].
  intros pre a s s' [Hlen Hs] Hplot.
  destruct (plot_encloses a s s' Hplot Hs) as [Hs' Hlen'].
  split; [| assumption]. rewrite Hlen', Hlen, length_app. cbn. lia.
Qed.

Lemma int_result_never_throws (z : Z) : never_throws (int_result z).
Proof. unfold int_result. now destruct (Num.in_int z). Qed.

(** What is drawn for a region comes from a loop over its points that
    returned. *)
Lemma draw_region_Returned (it1 : BoundingBox.t) (drawing : Drawing.t) :
  draw_region worldSize imageSize it1 = Returned drawing ->
  for_each (plot worldSize imageSize) (BoundingBox.lidarPoints it1) TopView.initial
  = Returned (Drawing.view drawing).
Proof.
  unfold draw_region. intros Hret.
  apply bind_Returned in Hret as (view & Hview & Hret).
  apply bind_Returned in Hret as (x & _ & Hret).
  apply bind_Returned in Hret as (y1 & _ & Hret).
  apply bind_Returned in Hret as (x' & _ & Hret).
  apply bind_Returned in Hret as (y2 & _ & Hret).
  injection Hret as <-. exact Hview.
Qed.

(** The drawings of a loop that returned, region by region. *)
Lemma show3DObjects_regions_views (P : BoundingBox.t -> TopView.t -> Prop)
    (boundingBoxes : list BoundingBox.t) (drawings : list Drawing.t) :
  (forall it1 view,
     for_each (plot worldSize imageSize) (BoundingBox.lidarPoints it1) TopView.initial
     = Returned view ->
     P it1 view) ->
  show3DObjects_regions worldSize imageSize boundingBoxes = Returned drawings ->
  Forall2 (fun it1 drawing => P it1 (Drawing.view drawing)) boundingBoxes drawings.
Proof.
  intros HP Hret. unfold show3DObjects_regions in Hret.
  refine (for_each_history
            (fun pre ds => Forall2 (fun it1 d => P it1 (Drawing.view d)) pre ds)
            _ boundingBoxes _ [] [] drawings _ Hret); [| constructor].
  intros pre it1 ds ds' Hpre Hround.
  apply bind_Returned in Hround as (drawing & Hdraw & [= <-]).
  apply Forall2_app; [assumption |].
  constructor; [now apply HP, draw_region_Returned | constructor].
Qed.

Lemma show3DObjects_regions_never_throws (boundingBoxes : list BoundingBox.t) :
  never_throws (show3DObjects_regions worldSize imageSize boundingBoxes).
Proof.
  unfold show3DObjects_regions. apply for_each_never_throws. intros it1 ds.
  apply bind_never_throws; [| intros drawing; exact I].
  unfold draw_region.
  apply bind_never_throws;
    [apply for_each_never_throws; intros it2 s; apply plot_never_throws | intros view].
  apply bind_never_throws; [apply int_result_never_throws | intros x].
  apply bind_never_throws; [apply int_result_never_throws | intros y1].
  apply bind_never_throws; [apply int_result_never_throws | intros x'].
  apply bind_never_throws; [apply int_result_never_throws | intros y2]. exact I.
Qed.

(** *** The extremes shown in the label *)

Lemma least_of_round (m init x : float) (l : list float) :
  not_nan m -> not_nan x -> least_of m init l ->
  least_of (if (m <? x)%float then m else x) init (l ++ [x])
  /\ not_nan (if (m <? x)%float then m else x).
Proof.
  intros Hm Hx [Hin Hle]. destruct (m <? x)%float eqn:Hlt.
  - split; [| assumption]. split.
    + destruct Hin as [-> | Hin]; [now left | right].
      apply elem_of_app. now left.
    + apply Forall_app. split; [assumption |].
      constructor; [now apply ltb_float_le | constructor].
  - split; [| assumption]. split.
    + right. apply elem_of_app. right. constructor.
    + assert (Hxm : float_le x m) by now apply not_ltb_float_le.
      apply Forall_app. split.
      * eapply Forall_impl; [exact Hle |]. intros z Hz.
        now apply (float_le_trans x m z).
      * constructor; [now apply float_le_refl | constructor].
Qed.

Lemma greatest_of_round (m init x : float) (l : list float) :
  not_nan m -> not_nan x -> greatest_of m init l ->
  greatest_of (if (x <? m)%float then m else x) init (l ++ [x])
  /\ not_nan (if (x <? m)%float then m else x).
Proof.
  intros Hm Hx [Hin Hle]. destruct (x <? m)%float eqn:Hlt.
  - split; [| assumption]. split.
    + destruct Hin as [-> | Hin]; [now left | right].
      apply elem_of_app. now left.
    + apply Forall_app. split; [assumption |].
      constructor; [now apply ltb_float_le | constructor].
  - split; [| assumption]. split.
    + right. apply elem_of_app. right. constructor.
    + assert (Hmx : float_le m x) by now apply not_ltb_float_le.
      apply Forall_app. split.
      * eapply Forall_impl; [exact Hle |]. intros z Hz.
        now apply (float_le_trans z m x).
      * constructor; [now apply float_le_refl | constructor].
Qed.

Lemma region_view_extremes (lidarPoints : list LidarPoint.t) (view : TopView.t) :
  for_each (plot worldSize imageSize) lidarPoints TopView.initial = Returned view ->
  least_of (TopView.xwmin view) (TopView.xwmin TopView.initial)
    ((fun p => Num.to_float (LidarPoint.x p)) <$> lidarPoints)
  /\ least_of (TopView.ywmin view) (TopView.ywmin TopView.initial)
       ((fun p => Num.to_float (LidarPoint.y p)) <$> lidarPoints)
  /\ greatest_of (TopView.ywmax view) (TopView.ywmax TopView.initial)
       ((fun p => Num.to_float (LidarPoint.y p)) <$> lidarPoints).
Proof.
  intros Hret.
  pose (I := fun (pre : list LidarPoint.t) (s : TopView.t) =>
    (least_of (TopView.xwmin s) (TopView.xwmin TopView.initial)
       ((fun p => Num.to_float (LidarPoint.x p)) <$> pre)
     /\ not_nan (TopView.xwmin s))
    /\ (least_of (TopView.ywmin s) (TopView.ywmin TopView.initial)
          ((fun p => Num.to_float (LidarPoint.y p)) <$> pre)
        /\ not_nan (TopView.ywmin s))
    /\ (greatest_of (TopView.ywmax s) (TopView.ywmax TopView.initial)
          ((fun p => Num.to_float (LidarPoint.y p)) <$> pre)
        /\ not_nan (TopView.ywmax s))).
  assert (Hfinal : I lidarPoints view).
  { apply (for_each_history I (plot worldSize imageSize) lidarPoints)
      with (pre := []) (s := TopView.initial); [| | exact Hret].
    - intros pre a s s' ([Hx Hnx] & [Hy Hny] & [Hz Hnz]) Hplot.
      destruct (plot_not_nan a s s' Hplot) as [Hxa Hya].
      apply plot_Returned in Hplot as (x & y & _ & _ & ->).
      unfold I. cbn [TopView.xwmin TopView.ywmin TopView.ywmax].
      rewrite !fmap_app. cbn [fmap list_fmap].
      split; [now apply least_of_round |].
      split; [now apply least_of_round | apply greatest_of_round; assumption].
    - unfold I. repeat split; try (now left); try constructor. }
  destruct Hfinal as ([Hx _] & [Hy _] & [Hz _]). exact (conj Hx (conj Hy Hz)).
Qed.

End Show3DObjectsFacts.

(** X15. Whenever the loop over the regions completes, every region has one
    circle per Lidar point, and the rectangle drawn for the region encloses
    the centre of each of its circles. *)
Theorem show3DObjects_rectangle_encloses_circles
    (worldSize imageSize : Size.t) (boundingBoxes : list BoundingBox.t)
    (drawings : list Drawing.t) :
  show3DObjects_regions worldSize imageSize boundingBoxes = Returned drawings ->
  Forall2
    (fun it1 drawing =>
       length (TopView.circles (Drawing.view drawing))
       = length (BoundingBox.lidarPoints it1)
       /\ Forall (enclosed (Drawing.view drawing))
            (TopView.circles (Drawing.view drawing)))
    boundingBoxes drawings.
Proof.
  apply (show3DObjects_regions_views worldSize imageSize
           (fun it1 view =>
              length (TopView.circles view) = length (BoundingBox.lidarPoints it1)
              /\ Forall (enclosed view) (TopView.circles view))).
  intros it1 view. apply region_view_encloses.
Qed.

Lemma show3DObjects_rectangle_encloses_circles_witness :
  Forall2
    (fun it1 drawing =>
       length (TopView.circles (Drawing.view drawing))
       = length (BoundingBox.lidarPoints it1)
       /\ Forall (enclosed (Drawing.view drawing))
            (TopView.circles (Drawing.view drawing)))
    [MoreExamples.three_returns; Examples.left_region]
    [MoreExamples.three_returns_drawing; MoreExamples.no_return_drawing].
Proof.
  apply (show3DObjects_rectangle_encloses_circles MoreExamples.world
           MoreExamples.image).
  vm_compute. reflexivity.
Defined.

(** X16. The divisions of lines 88 and 89 are unguarded: with a world size
    of height 0 or of width 0, a region that holds a Lidar point makes the
    loop convert an infinity or NaN to [int], whose behaviour is
    undefined. *)
Theorem show3DObjects_zero_world_size_is_undefined
    (worldSize imageSize : Size.t) (boundingBoxes : list BoundingBox.t) :
  Size.height worldSize = 0 \/ Size.width worldSize = 0 ->
  Exists (fun it1 => BoundingBox.lidarPoints it1 <> []) boundingBoxes ->
  show3DObjects_regions worldSize imageSize boundingBoxes = Undefined.
Proof.
  intros Hzero Hpoint. apply undefined_unless_returns.
  { apply show3DObjects_regions_never_throws. }
  intros drawings Hret.
  apply Exists_exists in Hpoint as (it1 & Hit1 & Hne).
  unfold show3DObjects_regions in Hret.
  destruct (for_each_rounds (fun _ => True) _ boundingBoxes
              (fun _ _ _ _ _ _ => I) [] drawings I Hret it1 Hit1)
    as (ds & ds' & _ & Hround).
  apply bind_Returned in Hround as (drawing & Hview%draw_region_Returned & _).
  destruct (BoundingBox.lidarPoints it1) as [| it2 rest]; [congruence |].
  rewrite for_each_cons in Hview.
  apply bind_Returned in Hview as (s & Hplot & _).
  apply plot_Returned in Hplot as (x & y & Hy & Hx & _).
  destruct Hzero as [Hz | Hz].
  - rewrite topview_y_zero_height in Hy by assumption. discriminate.
  - rewrite topview_x_zero_width in Hx by assumption. discriminate.
Qed.

Lemma show3DObjects_zero_world_size_is_undefined_witness :
  show3DObjects_regions (Size.mk 0 20) MoreExamples.image
    [Examples.left_region; MoreExamples.three_returns]
  = Undefined.
Proof.
  apply (show3DObjects_zero_world_size_is_undefined (Size.mk 0 20)
           MoreExamples.image
           [Examples.left_region; MoreExamples.three_returns]).
  - right. reflexivity.
  - right. left. discriminate.
Defined.

(** X17. Whenever the loop over the regions completes, the values the label
    of a region shows are extremes of its Lidar points as [float]: [xwmin]
    is a least forward value, [ywmin] a least and [ywmax] a greatest lateral
    value, or the value the variable starts from (1e8, 1e8, -1e8) when every
    point is beyond it, as in a region without points. *)
Theorem show3DObjects_label_extremes
    (worldSize imageSize : Size.t) (boundingBoxes : list BoundingBox.t)
    (drawings : list Drawing.t) :
  show3DObjects_regions worldSize imageSize boundingBoxes = Returned drawings ->
  Forall2
    (fun it1 drawing =>
       least_of (TopView.xwmin (Drawing.view drawing)) 1e8%float
         ((fun p => Num.to_float (LidarPoint.x p)) <$> BoundingBox.lidarPoints it1)
       /\ least_of (TopView.ywmin (Drawing.view drawing)) 1e8%float
            ((fun p => Num.to_float (LidarPoint.y p)) <$> BoundingBox.lidarPoints it1)
       /\ greatest_of (TopView.ywmax (Drawing.view drawing)) (- 1e8)%float
            ((fun p => Num.to_float (LidarPoint.y p)) <$> BoundingBox.lidarPoints it1))
    boundingBoxes drawings.
Proof.
  apply (show3DObjects_regions_views worldSize imageSize
           (fun it1 view =>
              least_of (TopView.xwmin view) 1e8%float
                ((fun p => Num.to_float (LidarPoint.x p))
                   <$> BoundingBox.lidarPoints it1)
              /\ least_of (TopView.ywmin view) 1e8%float
                   ((fun p => Num.to_float (LidarPoint.y p))
                      <$> BoundingBox.lidarPoints it1)
              /\ greatest_of (TopView.ywmax view) (- 1e8)%float
                   ((fun p => Num.to_float (LidarPoint.y p))
                      <$> BoundingBox.lidarPoints it1))).
  intros it1 view Hview.
  apply (region_view_extremes worldSize imageSize) in Hview.
  exact Hview.
Qed.

Lemma show3DObjects_label_extremes_witness :
  Forall2
    (fun it1 drawing =>
       least_of (TopView.xwmin (Drawing.view drawing)) 1e8%float
         ((fun p => Num.to_float (LidarPoint.x p)) <$> BoundingBox.lidarPoints it1)
       /\ least_of (TopView.ywmin (Drawing.view drawing)) 1e8%float
            ((fun p => Num.to_float (LidarPoint.y p)) <$> BoundingBox.lidarPoints it1)
       /\ greatest_of (TopView.ywmax (Drawing.view drawing)) (- 1e8)%float
            ((fun p => Num.to_float (LidarPoint.y p)) <$> BoundingBox.lidarPoints it1))
    [MoreExamples.three_returns; Examples.left_region]
    [MoreExamples.three_returns_drawing; MoreExamples.no_return_drawing].
Proof.
  apply (show3DObjects_label_extremes MoreExamples.world MoreExamples.image).
  vm_compute. reflexivity.
Defined.

